(** * OpenLLM client (npm package [@use-solace/openllm]): streaming inference
      client, model registry and request router.

    The development embeds [src/npm/src/client.ts], [src/npm/src/registry.ts]
    and the router handler of [src/npm/src/elysia.ts] as executable Rocq
    functions and proves the properties of the design document about them. *)

From Stdlib Require Import List Bool Arith NArith ZArith Lia.
From Stdlib Require Import Strings.String Strings.Ascii Strings.Byte.
From Stdlib Require Import Numbers.DecimalString.
Import ListNotations.

Set Implicit Arguments.
#[local] Set Warnings "-register-all".

(* ================================================================== *)
(** * JavaScript strings and values *)
(* ================================================================== *)

Module Js.

(** A JavaScript string is a sequence of UTF-16 code units. *)
Definition CodeUnit := N.
Definition JsString := list CodeUnit.

(** String literals of the source, written as Rocq strings. *)
Definition lit (s : string) : JsString :=
  List.map N_of_ascii (list_ascii_of_string s).

(** Same, with every apostrophe read as a double quote, so that JSON text can
    be written in a Rocq string. *)
Definition json_lit (s : string) : JsString :=
  List.map (fun c => if N.eqb c 39 then 34%N else c) (lit s).

Definition nl : CodeUnit := 10%N.

Definition JsString_eqb (a b : JsString) : bool :=
  if list_eq_dec N.eq_dec a b then true else false.

(** [s.split("\n")] for a one-unit separator: never empty, one more piece than
    there are separators. *)
Fixpoint split (sep : CodeUnit) (s : JsString) : list JsString :=
  match s with
  | [] => [[]]
  | c :: s' =>
      if N.eqb c sep then [] :: split sep s'
      else match split sep s' with
           | [] => [[c]]
           | l :: ls => (c :: l) :: ls
           end
  end.

(** [lines.pop() ?? ""]: the removed last element and the shortened array. *)
Definition pop (lines : list JsString) : JsString * list JsString :=
  (last lines [], removelast lines).

(** WhiteSpace and LineTerminator code units, as [String.prototype.trim]
    strips them. *)
Definition is_space (c : CodeUnit) : bool :=
  ((9 <=? c) && (c <=? 13) || (c =? 32) || (c =? 160) || (c =? 5760)
   || (8192 <=? c) && (c <=? 8202) || (c =? 8232) || (c =? 8233)
   || (c =? 8239) || (c =? 8287) || (c =? 12288) || (c =? 65279))%N.

Fixpoint trimStart (s : JsString) : JsString :=
  match s with
  | c :: s' => if is_space c then trimStart s' else s
  | [] => []
  end.

Definition trimEnd (s : JsString) : JsString := rev (trimStart (rev s)).

Definition trim (s : JsString) : JsString := trimEnd (trimStart s).

Fixpoint startsWith (s prefix : JsString) : bool :=
  match prefix, s with
  | [], _ => true
  | p :: prefix', c :: s' => N.eqb c p && startsWith s' prefix'
  | _ :: _, [] => false
  end.

(** [s.slice(n)] for a non-negative [n]. *)
Definition slice (n : nat) (s : JsString) : JsString := skipn n s.

(** A string is truthy when it is not empty. *)
Definition truthy_string (s : JsString) : bool :=
  match s with [] => false | _ :: _ => true end.

(** Decimal rendering of a non-negative integer in a template literal. *)
Definition N_toString (n : N) : JsString :=
  lit (NilEmpty.string_of_uint (N.to_uint n)).

(** A JavaScript number is kept as its canonical rendering
    ([Number.prototype.toString]), the only view the client code takes of a
    number besides its truthiness. *)
Definition JsNumber := JsString.

(** Values that [JSON.parse] returns, and [undefined] for a missing
    property. *)
Inductive JsValue : Type :=
| JUndefined
| JNull
| JBool (b : bool)
| JNum (n : JsNumber)
| JStr (s : JsString)
| JArr (elems : list JsValue)
| JObj (props : list (JsString * JsValue)).

Fixpoint lookup_prop (key : JsString) (props : list (JsString * JsValue))
  : JsValue :=
  match props with
  | [] => JUndefined
  | (k, v) :: rest => if JsString_eqb k key then v else lookup_prop key rest
  end.

(** [v.key] for a key that no built-in prototype defines: a TypeError ([None])
    on [null] and [undefined], the own property of an object, [undefined] on
    every other value. *)
Definition get_prop (v : JsValue) (key : JsString) : option JsValue :=
  match v with
  | JUndefined | JNull => None
  | JObj props => Some (lookup_prop key props)
  | _ => Some JUndefined
  end.

Fixpoint join (sep : JsString) (pieces : list JsString) : JsString :=
  match pieces with
  | [] => []
  | [p] => p
  | p :: rest => p ++ sep ++ join sep rest
  end.

Fixpoint has_prop (key : JsString) (props : list (JsString * JsValue))
  : bool :=
  match props with
  | [] => false
  | (k, _) :: rest => JsString_eqb k key || has_prop key rest
  end.

(** [ToString], as string concatenation applies it to its right operand:
    the text, or [None] for a TypeError. An array is joined with commas,
    [null] and [undefined] elements giving the empty text. An object built
    by [JSON.parse] prints as [[object Object]], unless an own property
    named [toString] (never callable) hides the inherited method, in which
    case the conversion throws. *)
Fixpoint toString (v : JsValue) : option JsString :=
  match v with
  | JUndefined => Some (lit "undefined")
  | JNull => Some (lit "null")
  | JBool true => Some (lit "true")
  | JBool false => Some (lit "false")
  | JNum n => Some n
  | JStr s => Some s
  | JArr elems =>
      match (fix pieces (l : list JsValue) : option (list JsString) :=
               match l with
               | [] => Some []
               | e :: rest =>
                   match match e with
                         | JUndefined | JNull => Some []
                         | _ => toString e
                         end, pieces rest with
                   | Some p, Some ps => Some (p :: ps)
                   | _, _ => None
                   end
               end) elems with
      | Some ps => Some (join (lit ",") ps)
      | None => None
      end
  | JObj props =>
      if has_prop (lit "toString") props then None
      else Some (lit "[object Object]")
  end.

(** [ToBoolean]. *)
Definition toBoolean (v : JsValue) : bool :=
  match v with
  | JUndefined | JNull => false
  | JBool b => b
  | JNum n => negb (JsString_eqb n (lit "0") || JsString_eqb n (lit "NaN"))
  | JStr s => truthy_string s
  | JArr _ | JObj _ => true
  end.

(** The platform's [JSON.parse]: the value read, or [None] when it throws a
    SyntaxError. *)
Class Platform : Type := {
  JSON_parse : JsString -> option JsValue
}.

(** Error objects: [name], [message] and the two fields that
    [createError] adds. *)
Record JsError : Type := mkError {
  name : JsString;
  message : JsString;
  code : option JsString;
  statusCode : option Z
}.

(** [new Error(message)]. *)
Definition new_Error (msg : JsString) : JsError :=
  {| name := lit "Error"; message := msg; code := None; statusCode := None |}.

Definition SyntaxError : JsError :=
  {| name := lit "SyntaxError"; message := lit "Unexpected token";
     code := None; statusCode := None |}.

Definition TypeError : JsError :=
  {| name := lit "TypeError"; message := lit "Cannot read properties";
     code := None; statusCode := None |}.

(** What a [throw] or a rejected promise carries: an [Error] instance, or
    any other value, which it carries along. *)
Inductive Thrown : Type :=
| ThrowError (e : JsError)
| ThrowOther (value : JsValue).

End Js.

(* ================================================================== *)
(** * An executable [JSON.parse] for the examples *)
(* ================================================================== *)

(** The theorems below hold for every [Platform]. The examples run on this
    reader of the JSON subset that the engine's records use: objects,
    arrays, strings without escapes, integers, [true], [false], [null]. *)
Module ExampleJSON.
Import Js.

Definition is_ws (c : CodeUnit) : bool :=
  ((c =? 32) || (c =? 9) || (c =? 10) || (c =? 13))%N.

Fixpoint skip_ws (s : JsString) : JsString :=
  match s with
  | c :: s' => if is_ws c then skip_ws s' else s
  | [] => []
  end.

Definition is_digit (c : CodeUnit) : bool := ((48 <=? c) && (c <=? 57))%N.

Fixpoint digits (s : JsString) : JsString * JsString :=
  match s with
  | c :: s' =>
      if is_digit c then let (ds, rest) := digits s' in (c :: ds, rest)
      else ([], s)
  | [] => ([], [])
  end.

(** An integer literal without superfluous leading zero; its rendering is the
    literal itself, except that minus zero prints as zero. *)
Definition number (s : JsString) : option (JsValue * JsString) :=
  let (neg, s1) := match s with
                   | 45%N :: s' => (true, s')
                   | _ => (false, s)
                   end in
  let (ds, rest) := digits s1 in
  match ds with
  | [] => None
  | [48%N] => Some (JNum (lit "0"), rest)
  | 48%N :: _ => None
  | _ => Some (JNum (if neg then 45%N :: ds else ds), rest)
  end.

(** The units of a string up to its closing quote. *)
Fixpoint chars (s : JsString) : option (JsString * JsString) :=
  match s with
  | [] => None
  | c :: s' =>
      if (c =? 34)%N then Some ([], s')
      else if ((c =? 92) || (c <? 32))%N then None
      else match chars s' with
           | Some (cs, rest) => Some (c :: cs, rest)
           | None => None
           end
  end.

(** A later member replaces an earlier one of the same key. *)
Fixpoint add_prop (k : JsString) (v : JsValue)
  (props : list (JsString * JsValue)) : list (JsString * JsValue) :=
  match props with
  | [] => [(k, v)]
  | (k', v') :: rest =>
      if JsString_eqb k' k then (k, v) :: rest
      else (k', v') :: add_prop k v rest
  end.

Fixpoint value (fuel : nat) (s : JsString) : option (JsValue * JsString) :=
  match fuel with
  | O => None
  | S fuel' =>
      let s := skip_ws s in
      if startsWith s (lit "null") then Some (JNull, skipn 4 s)
      else if startsWith s (lit "true") then Some (JBool true, skipn 4 s)
      else if startsWith s (lit "false") then Some (JBool false, skipn 5 s)
      else match s with
           | 34%N :: s' =>
               match chars s' with
               | Some (cs, rest) => Some (JStr cs, rest)
               | None => None
               end
           | 91%N :: s' =>
               match skip_ws s' with
               | 93%N :: rest => Some (JArr [], rest)
               | _ => match elements fuel' s' with
                      | Some (es, rest) => Some (JArr es, rest)
                      | None => None
                      end
               end
           | 123%N :: s' =>
               match skip_ws s' with
               | 125%N :: rest => Some (JObj [], rest)
               | _ => match members fuel' s' [] with
                      | Some (ps, rest) => Some (JObj ps, rest)
                      | None => None
                      end
               end
           | _ => number s
           end
  end
with elements (fuel : nat) (s : JsString)
  : option (list JsValue * JsString) :=
  match fuel with
  | O => None
  | S fuel' =>
      match value fuel' s with
      | Some (v, rest) =>
          match skip_ws rest with
          | 93%N :: rest' => Some ([v], rest')
          | 44%N :: rest' =>
              match elements fuel' rest' with
              | Some (vs, rest'') => Some (v :: vs, rest'')
              | None => None
              end
          | _ => None
          end
      | None => None
      end
  end
with members (fuel : nat) (s : JsString) (acc : list (JsString * JsValue))
  : option (list (JsString * JsValue) * JsString) :=
  match fuel with
  | O => None
  | S fuel' =>
      match skip_ws s with
      | 34%N :: s' =>
          match chars s' with
          | Some (k, rest) =>
              match skip_ws rest with
              | 58%N :: rest1 =>
                  match value fuel' rest1 with
                  | Some (v, rest2) =>
                      let acc' := add_prop k v acc in
                      match skip_ws rest2 with
                      | 125%N :: rest3 => Some (acc', rest3)
                      | 44%N :: rest3 => members fuel' rest3 acc'
                      | _ => None
                      end
                  | None => None
                  end
              | _ => None
              end
          | None => None
          end
      | _ => None
      end
  end.

Definition parse (s : JsString) : option JsValue :=
  match value (S (List.length s)) s with
  | Some (v, rest) =>
      match skip_ws rest with
      | [] => Some v
      | _ :: _ => None
      end
  | None => None
  end.

#[export] Instance platform : Platform := {| JSON_parse := parse |}.

End ExampleJSON.

(* ================================================================== *)
(** * The platform's [TextDecoder] (UTF-8, stream mode) *)
(* ================================================================== *)

Module TextDecoder.
Import Js.

(** State of the UTF-8 decoder between two bytes, with the flag that the
    byte order mark has been dealt with. *)
Record State : Type := mkState {
  code_point : N;
  bytes_seen : N;
  bytes_needed : N;
  lower : N;
  upper : N;
  bom_seen : bool
}.

(** [new TextDecoder()]. *)
Definition init : State :=
  {| code_point := 0; bytes_seen := 0; bytes_needed := 0;
     lower := 128; upper := 191; bom_seen := false |}.

Definition reset (st : State) : State :=
  {| code_point := 0; bytes_seen := 0; bytes_needed := 0;
     lower := 128; upper := 191; bom_seen := bom_seen st |}.

Definition replacement : N := 65533.

(** The handler on a byte when no sequence is open: the new state and the
    code points produced. *)
Definition lead (st : State) (b : N) : State * list N :=
  if (b <=? 127)%N then (st, [b])
  else if ((194 <=? b) && (b <=? 223))%N then
    ({| code_point := N.land b 31; bytes_seen := 0; bytes_needed := 1;
        lower := 128; upper := 191; bom_seen := bom_seen st |}, [])
  else if ((224 <=? b) && (b <=? 239))%N then
    ({| code_point := N.land b 15; bytes_seen := 0; bytes_needed := 2;
        lower := if (b =? 224)%N then 160 else 128;
        upper := if (b =? 237)%N then 159 else 191;
        bom_seen := bom_seen st |}, [])
  else if ((240 <=? b) && (b <=? 244))%N then
    ({| code_point := N.land b 7; bytes_seen := 0; bytes_needed := 3;
        lower := if (b =? 240)%N then 144 else 128;
        upper := if (b =? 244)%N then 143 else 191;
        bom_seen := bom_seen st |}, [])
  else (st, [replacement]).

(** The handler on one byte. A byte that cannot continue the open sequence
    closes it with U+FFFD and is then read again as a first byte. *)
Definition handler (st : State) (b : N) : State * list N :=
  if (bytes_needed st =? 0)%N then lead st b
  else if negb ((lower st <=? b) && (b <=? upper st))%N then
    let (st', out) := lead (reset st) b in (st', replacement :: out)
  else
    let cp := N.lor (N.shiftl (code_point st) 6) (N.land b 63) in
    let seen := (bytes_seen st + 1)%N in
    if (seen =? bytes_needed st)%N then (reset st, [cp])
    else ({| code_point := cp; bytes_seen := seen;
             bytes_needed := bytes_needed st;
             lower := 128; upper := 191; bom_seen := bom_seen st |}, []).

(** The first code point of the stream is dropped when it is the byte order
    mark. *)
Definition strip_bom (seen : bool) (cps : list N) : bool * list N :=
  match cps with
  | [] => (seen, [])
  | cp :: rest =>
      if seen then (true, cps)
      else if (cp =? 65279)%N then (true, rest)
      else (true, cps)
  end.

(** A code point as UTF-16 code units. *)
Definition utf16 (cp : N) : JsString :=
  if (cp <? 65536)%N then [cp]
  else let c := (cp - 65536)%N in
       [(55296 + N.shiftr c 10)%N; (56320 + N.land c 1023)%N].

(** One byte through the decoder: the new state and the text produced. *)
Definition step (st : State) (b : byte) : State * JsString :=
  let (st1, cps) := handler st (Byte.to_N b) in
  let (seen, cps') := strip_bom (bom_seen st1) cps in
  ({| code_point := code_point st1; bytes_seen := bytes_seen st1;
      bytes_needed := bytes_needed st1; lower := lower st1;
      upper := upper st1; bom_seen := seen |},
   flat_map utf16 cps').

(** [decoder.decode(value, { stream: true })]: the bytes of the chunk go
    through the decoder one by one; an unfinished sequence stays in the
    state for the next call. *)
Fixpoint decode (st : State) (value : list byte) : State * JsString :=
  match value with
  | [] => (st, [])
  | b :: rest =>
      let (st1, s1) := step st b in
      let (st2, s2) := decode st1 rest in
      (st2, s1 ++ s2)
  end.

End TextDecoder.

(* ================================================================== *)
(** * [client.ts]: the streaming inference client *)
(* ================================================================== *)

Module Client.
Import Js.

(** ** Data of [types.ts] *)

Record InferenceRequest : Type := mkRequest {
  req_model_id : JsString;
  prompt : JsString;
  max_tokens : option JsNumber;
  temperature : option JsNumber
}.

Record InferenceResponse : Type := mkResponse {
  model_id : JsString;
  text : JsString;
  tokens_generated : nat;
  finish_reason : JsString
}.

(** [StreamOptions]: [onToken] is mandatory, the other two callbacks may be
    left out. The callbacks are the caller's observers: a call is recorded
    in the trace and returns normally. *)
Record StreamOptions : Type := mkOptions {
  has_onComplete : bool;
  has_onError : bool
}.

Record OpenLLMClient : Type := mkClient {
  baseUrl : JsString;
  timeout : N      (** milliseconds *)
}.

(** The constructor: [config.engine ?? 8080], [config.timeout ?? 30000]. *)
Definition new_OpenLLMClient (engine : option JsString) (tmo : option N)
  : OpenLLMClient :=
  {| baseUrl := lit "http://localhost:" ++
                match engine with Some e => e | None => lit "8080" end;
     timeout := match tmo with Some t => t | None => 30000%N end |}.

(** ** What the caller and the console observe *)

Inductive Event : Type :=
| OnToken (token : JsValue) (accumulated : JsString) (count : nat)
    (** [options.onToken(token)]; the last two components are the values
        that the local variables [accumulatedText] and [tokenCount] hold at
        the moment of the call (the callback does not receive them). *)
| OnComplete (response : InferenceResponse)
| OnError (error : JsError)
| ConsoleError (data : JsString).

(** ** The engine's side of one call *)

Inductive ReadEnd : Type :=
| ReadDone                 (** [{ done: true }] *)
| ReadFail (t : Thrown).   (** [reader.read()] rejects *)

(** A response body: the chunks that [reader.read()] delivers, each after a
    delay in milliseconds, and how the byte source ends. *)
Record Body : Type := mkBody {
  chunks : list (N * list byte);
  end_delay : N;
  ending : ReadEnd
}.

Record Response : Type := mkResp {
  status : N;
  text_delay : N;
  text_result : Thrown + JsString;    (** [response.text()] *)
  body : option Body                  (** [response.body] *)
}.

(** [response.ok]. *)
Definition ok (r : Response) : bool :=
  ((200 <=? status r) && (status r <=? 299))%N.

(** How [fetch] settles when nothing aborts it, and after how long. *)
Record World : Type := mkWorld {
  fetch_delay : N;
  fetch_result : Thrown + Response
}.

(** ** The machine: clock, pending timer and the local variables of
       [inferenceStream] *)

Record State : Type := mkState {
  now : N;
  timer : option N;          (** deadline of the armed timer, if any *)
  decoder : TextDecoder.State;
  buffer : JsString;
  accumulatedText : JsString;
  tokenCount : nat
}.

Definition initial : State :=
  {| now := 0%N; timer := None; decoder := TextDecoder.init; buffer := [];
     accumulatedText := []; tokenCount := 0 |}.

(** A computation runs from a state to a state, a trace of events and either
    a value or what it threw. *)
Record Run (A : Type) : Type := mkRun {
  final : State;
  trace : list Event;
  result : Thrown + A
}.

Definition M (A : Type) : Type := State -> Run A.

Definition ret {A} (a : A) : M A :=
  fun s => {| final := s; trace := []; result := inr a |}.

Definition throw {A} (t : Thrown) : M A :=
  fun s => {| final := s; trace := []; result := inl t |}.

Definition bind {A B} (m : M A) (k : A -> M B) : M B :=
  fun s =>
    let r := m s in
    match result r with
    | inl t => {| final := final r; trace := trace r; result := inl t |}
    | inr a =>
        let r' := k a (final r) in
        {| final := final r'; trace := trace r ++ trace r';
           result := result r' |}
    end.

(** [try { m } catch (error) { handler }]. *)
Definition try_catch {A} (m : M A) (handler : Thrown -> M A) : M A :=
  fun s =>
    let r := m s in
    match result r with
    | inl t =>
        let r' := handler t (final r) in
        {| final := final r'; trace := trace r ++ trace r';
           result := result r' |}
    | inr a => r
    end.

Definition emit (e : Event) : M unit :=
  fun s => {| final := s; trace := [e]; result := inr tt |}.

Definition get : M State :=
  fun s => {| final := s; trace := []; result := inr s |}.

Definition put (s : State) : M unit :=
  fun _ => {| final := s; trace := []; result := inr tt |}.

Declare Scope client_scope.
Delimit Scope client_scope with client.
Notation "x <- m ;; k" := (bind m (fun x => k))
  (at level 100, m at next level, right associativity) : client_scope.
Notation "m ;; k" := (bind m (fun _ => k))
  (at level 100, right associativity) : client_scope.
Open Scope client_scope.

(** The error of an aborted request. *)
Definition AbortError : JsError :=
  {| name := lit "AbortError"; message := lit "This operation was aborted";
     code := None; statusCode := None |}.

(** The longest delay that the timers of the platform keep: [2^31 - 1] ms.
    A longer delay is replaced by a short one, so that the timer comes due
    at once; so is, on Node, a delay below 1 ms. *)
Definition TIMEOUT_MAX : N := 2147483647.

Definition kept_by_timers (ms : N) : Prop :=
  (1 <= ms)%N /\ (ms <= TIMEOUT_MAX)%N.

(** [setTimeout(() => controller.abort(), ms)], for a delay that the timers
    keep: what is stated about the moment at which the timer comes due is
    stated for delays that are [kept_by_timers]. *)
Definition setTimeout (ms : N) : M unit :=
  s <- get ;;
  put {| now := now s; timer := Some (now s + ms)%N; decoder := decoder s;
         buffer := buffer s; accumulatedText := accumulatedText s;
         tokenCount := tokenCount s |}.

(** [clearTimeout(timeoutId)]. *)
Definition clearTimeout : M unit :=
  s <- get ;;
  put {| now := now s; timer := None; decoder := decoder s;
         buffer := buffer s; accumulatedText := accumulatedText s;
         tokenCount := tokenCount s |}.

Definition at_time (t : N) (s : State) : State :=
  {| now := t; timer := None; decoder := decoder s; buffer := buffer s;
     accumulatedText := accumulatedText s; tokenCount := tokenCount s |}.

Definition advance (d : N) (s : State) : State :=
  {| now := (now s + d)%N; timer := timer s; decoder := decoder s;
     buffer := buffer s; accumulatedText := accumulatedText s;
     tokenCount := tokenCount s |}.

(** [await op] on an operation bound to the abort signal, which would settle
    as [settle] after [delay] ms: when an armed timer comes due first, the
    timer fires, the controller aborts and the operation rejects with an
    [AbortError] at the deadline. A tie goes to the timer. *)
Definition await {A} (delay : N) (settle : Thrown + A) : M A :=
  fun s =>
    match timer s with
    | Some deadline =>
        if (deadline <=? now s + delay)%N then
          {| final := at_time deadline s; trace := [];
             result := inl (ThrowError AbortError) |}
        else {| final := advance delay s; trace := []; result := settle |}
    | None => {| final := advance delay s; trace := []; result := settle |}
    end.

(** ** [createError] *)

(** The rest of a match of [/'([^']+)'/] after the opening quote: a
    non-empty run of units other than the apostrophe, then an apostrophe. *)
Fixpoint quoted_run (s : JsString) (seen : bool) : bool :=
  match s with
  | [] => false
  | c :: s' => if (c =? 39)%N then seen else quoted_run s' true
  end.

(** [message.match(/Model '([^']+)'/)] finds a match. *)
Fixpoint matches_model (s : JsString) : bool :=
  (startsWith s (lit "Model '") && quoted_run (skipn 7 s) false)
  || match s with
     | [] => false
     | _ :: s' => matches_model s'
     end.

Definition createError (st : N) (msg : JsString) : JsError :=
  if (st =? 404)%N && matches_model msg then
    {| name := lit "ModelNotFoundError"; message := msg;
       code := Some (lit "MODEL_NOT_FOUND"); statusCode := Some (Z.of_N st) |}
  else if (st =? 412)%N && matches_model msg then
    {| name := lit "ModelNotLoadedError"; message := msg;
       code := Some (lit "MODEL_NOT_LOADED"); statusCode := Some (Z.of_N st) |}
  else
    {| name := lit "OpenLLMError"; message := msg;
       code := Some (lit "API_ERROR"); statusCode := Some (Z.of_N st) |}.

(** ** [inferenceStream] *)

Section InferenceStream.
Context {P : Platform}.
Variable this : OpenLLMClient.
Variable data : InferenceRequest.
Variable options : StreamOptions.

(** [options.onComplete?.(r)] and [options.onError?.(e)]. *)
Definition call_onComplete (r : InferenceResponse) : M unit :=
  if has_onComplete options then emit (OnComplete r) else ret tt.

Definition call_onError (e : JsError) : M unit :=
  if has_onError options then emit (OnError e) else ret tt.

Definition parse (payload : JsString) : M JsValue :=
  match JSON_parse payload with
  | Some v => ret v
  | None => throw (ThrowError SyntaxError)
  end.

Definition prop (v : JsValue) (key : JsString) : M JsValue :=
  match get_prop v key with
  | Some x => ret x
  | None => throw (ThrowError TypeError)
  end.

(** [text + v] for a string [text]. *)
Definition concat_text (txt : JsString) (v : JsValue) : M JsString :=
  match toString v with
  | Some t => ret (txt ++ t)
  | None => throw (ThrowError TypeError)
  end.

Definition set_accumulatedText (t : JsString) : M unit :=
  s <- get ;;
  put {| now := now s; timer := timer s; decoder := decoder s;
         buffer := buffer s; accumulatedText := t;
         tokenCount := tokenCount s |}.

Definition set_tokenCount (n : nat) : M unit :=
  s <- get ;;
  put {| now := now s; timer := timer s; decoder := decoder s;
         buffer := buffer s; accumulatedText := accumulatedText s;
         tokenCount := n |}.

Definition set_decoder (d : TextDecoder.State) : M unit :=
  s <- get ;;
  put {| now := now s; timer := timer s; decoder := d;
         buffer := buffer s; accumulatedText := accumulatedText s;
         tokenCount := tokenCount s |}.

Definition set_buffer (b : JsString) : M unit :=
  s <- get ;;
  put {| now := now s; timer := timer s; decoder := decoder s;
         buffer := b; accumulatedText := accumulatedText s;
         tokenCount := tokenCount s |}.

(** [decoder.decode(value, { stream: true })]. *)
Definition decode (value : list byte) : M JsString :=
  s <- get ;;
  let (d, txt) := TextDecoder.decode (decoder s) value in
  set_decoder d ;;
  ret txt.

(** The body of [for (const line of lines)]. *)
Definition process_line (line : JsString) : M unit :=
  if startsWith (trim line) (lit "event: token") then ret tt
  else if startsWith (trim line) (lit "data: ") then
    let payload := slice 6 (trim line) in
    if truthy_string payload then
      try_catch
        (token <- parse payload ;;
         fragment <- prop token (lit "token") ;;
         s <- get ;;
         appended <- concat_text (accumulatedText s) fragment ;;
         set_accumulatedText appended ;;
         s <- get ;;
         set_tokenCount (tokenCount s + 1) ;;
         s <- get ;;
         emit (OnToken token (accumulatedText s) (tokenCount s)) ;;
         complete <- prop token (lit "complete") ;;
         if toBoolean complete then
           s <- get ;;
           call_onComplete
             {| model_id := req_model_id data;
                text := accumulatedText s;
                tokens_generated := tokenCount s;
                finish_reason := lit "stop" |}
         else ret tt)
        (fun e => emit (ConsoleError payload))
    else ret tt
  else ret tt.

Fixpoint for_each {A} (f : A -> M unit) (l : list A) : M unit :=
  match l with
  | [] => ret tt
  | x :: rest => f x ;; for_each f rest
  end.

(** [while (true)]: one turn per chunk that [reader.read()] delivers; the
    loop is left when the byte source reports [done] or the read rejects. *)
Fixpoint read_loop (cs : list (N * list byte)) (d_end : N) (e : ReadEnd)
  : M unit :=
  match cs with
  | [] =>
      match e with
      | ReadDone => await d_end (inr tt)
      | ReadFail t => await d_end (inl t)
      end
  | (d, value) :: rest =>
      await d (inr tt) ;;
      txt <- decode value ;;
      s <- get ;;
      set_buffer (buffer s ++ txt) ;;
      s <- get ;;
      let (last_line, lines) := pop (split nl (buffer s)) in
      set_buffer last_line ;;
      for_each process_line lines ;;
      read_loop rest d_end e
  end.

Definition timeoutError : JsError :=
  new_Error (lit "Stream timeout after " ++ N_toString (timeout this)
             ++ lit "ms").

(** The [catch (error)] clause. *)
Definition on_catch (error : Thrown) : M unit :=
  clearTimeout ;;
  match error with
  | ThrowError err =>
      if JsString_eqb (name err) (lit "AbortError") then
        call_onError timeoutError ;;
        throw (ThrowError timeoutError)
      else
        call_onError err ;;
        throw (ThrowError err)
  | ThrowOther _ => ret tt
  end.

(** The [try] block. *)
Definition try_block (w : World) : M unit :=
  response <- await (fetch_delay w) (fetch_result w) ;;
  clearTimeout ;;
  (if negb (ok response) then
     errorText <- await (text_delay response) (text_result response) ;;
     let error := createError (status response) errorText in
     call_onError error ;;
     throw (ThrowError error)
   else ret tt) ;;
  match body response with
  | None =>
      let error := new_Error (lit "No response body") in
      call_onError error ;;
      throw (ThrowError error)
  | Some reader =>
      set_decoder TextDecoder.init ;;
      set_buffer [] ;;
      set_accumulatedText [] ;;
      set_tokenCount 0 ;;
      read_loop (chunks reader) (end_delay reader) (ending reader)
  end.

Definition inferenceStream (w : World) : M unit :=
  setTimeout (timeout this) ;;
  try_catch (try_block w) on_catch.

(** One invocation, on a machine whose clock starts with the call. *)
Definition invoke (w : World) : Run unit := inferenceStream w initial.

End InferenceStream.

End Client.

(* ================================================================== *)
(** * [registry.ts]: the model registry *)
(* ================================================================== *)

Module Registry.
Import Js.

(** Identifiers, backends, capabilities and latency classes are strings at
    run time; context sizes and byte sizes are counts. *)
Record ModelRegistryEntry : Type := mkEntry {
  id : JsString;
  name : JsString;
  inference : JsString;
  context : N;
  quant : option JsString;
  capabilities : list JsString;
  latency : option JsString;
  size_bytes : N;
  loaded : bool;
  loaded_at : option JsString
}.

Record RegistryEntryInput : Type := mkInput {
  in_id : JsString;
  in_inference : JsString;
  in_context : N;
  in_quant : option JsString;
  in_capabilities : list JsString;
  in_latency : option JsString
}.

Record FindModelOptions : Type := mkFind {
  capability : option JsString;
  want_latency : option JsString;
  want_inference : option JsString;
  minContext : option N;
  want_loaded : option bool
}.

(** [find()] without argument: [options = {}]. *)
Definition no_options : FindModelOptions :=
  {| capability := None; want_latency := None; want_inference := None;
     minContext := None; want_loaded := None |}.

(** The private [entries: Map<string, ModelRegistryEntry>]: keys in
    insertion order, each key once. *)
Definition Entries := list (JsString * ModelRegistryEntry).

(** [Map.prototype.set]: a present key keeps its place. *)
Fixpoint Map_set (k : JsString) (v : ModelRegistryEntry) (m : Entries)
  : Entries :=
  match m with
  | [] => [(k, v)]
  | (k', v') :: rest =>
      if JsString_eqb k' k then (k, v) :: rest
      else (k', v') :: Map_set k v rest
  end.

Fixpoint Map_get (k : JsString) (m : Entries) : option ModelRegistryEntry :=
  match m with
  | [] => None
  | (k', v) :: rest => if JsString_eqb k' k then Some v else Map_get k rest
  end.

Definition Map_has (k : JsString) (m : Entries) : bool :=
  match Map_get k m with Some _ => true | None => false end.

Definition Map_delete (k : JsString) (m : Entries) : Entries :=
  filter (fun kv => negb (JsString_eqb (fst kv) k)) m.

Definition registerEntry (k : JsString) (entry : RegistryEntryInput)
  (m : Entries) : Entries * ModelRegistryEntry :=
  let model :=
    {| id := k;
       name := in_id entry;
       inference := in_inference entry;
       context := in_context entry;
       quant := in_quant entry;
       capabilities := in_capabilities entry;
       latency := in_latency entry;
       size_bytes := 4000000000;
       loaded := false;
       loaded_at := None |} in
  (Map_set k model m, model).

(** The constructor, on [Object.entries(config.entries ?? {})]. *)
Definition ModelRegistry (config : list (JsString * RegistryEntryInput))
  : Entries :=
  fold_left (fun m kv => fst (registerEntry (fst kv) (snd kv) m)) config [].

Definition list (m : Entries) : Datatypes.list ModelRegistryEntry :=
  List.map snd m.

Definition get (k : JsString) (m : Entries) : option ModelRegistryEntry :=
  Map_get k m.

(** [array.includes(x)] on strings. *)
Definition includes (l : Datatypes.list JsString) (x : JsString) : bool :=
  existsb (fun y => JsString_eqb y x) l.

(** [a !== b] for an optional string [a] and a string [b]. *)
Definition differs (a : option JsString) (b : JsString) : bool :=
  match a with
  | Some s => negb (JsString_eqb s b)
  | None => true
  end.

(** An optional string that is truthy, and an optional number that is. *)
Definition truthy (o : option JsString) : option JsString :=
  match o with
  | Some s => if truthy_string s then Some s else None
  | None => None
  end.

Definition truthy_number (o : option N) : option N :=
  match o with
  | Some n => if (n =? 0)%N then None else Some n
  | None => None
  end.

(** The five tests of the predicate that [find] passes to [filter]: each
    tells whether its criterion is set and the model fails it. *)
Definition lacks_capability (options : FindModelOptions)
  (model : ModelRegistryEntry) : bool :=
  match truthy (capability options) with
  | Some c => negb (includes (capabilities model) c)
  | None => false
  end.

Definition other_latency (options : FindModelOptions)
  (model : ModelRegistryEntry) : bool :=
  match truthy (want_latency options) with
  | Some l => differs (latency model) l
  | None => false
  end.

Definition other_inference (options : FindModelOptions)
  (model : ModelRegistryEntry) : bool :=
  match truthy (want_inference options) with
  | Some i => negb (JsString_eqb (inference model) i)
  | None => false
  end.

Definition below_minContext (options : FindModelOptions)
  (model : ModelRegistryEntry) : bool :=
  match truthy_number (minContext options) with
  | Some c => (context model <? c)%N
  | None => false
  end.

Definition other_loaded (options : FindModelOptions)
  (model : ModelRegistryEntry) : bool :=
  match want_loaded options with
  | Some b => negb (Bool.eqb (loaded model) b)
  | None => false
  end.

(** The predicate itself. *)
Definition matches (options : FindModelOptions) (model : ModelRegistryEntry)
  : bool :=
  if lacks_capability options model then false
  else if other_latency options model then false
  else if other_inference options model then false
  else if below_minContext options model then false
  else if other_loaded options model then false
  else true.

Definition find (options : FindModelOptions) (m : Entries)
  : Datatypes.list ModelRegistryEntry :=
  filter (matches options) (list m).

(** [this.find(options)[0]]. *)
Definition findOne (options : FindModelOptions) (m : Entries)
  : option ModelRegistryEntry :=
  nth_error (find options m) 0.

Definition has (k : JsString) (m : Entries) : bool := Map_has k m.

Definition count (m : Entries) : nat := List.length m.

(** [add]: throws when the key is taken. *)
Definition add (k : JsString) (entry : RegistryEntryInput) (m : Entries)
  : JsError + (Entries * ModelRegistryEntry) :=
  if Map_has k m then
    inl (new_Error (lit "Model with id '" ++ k ++ lit "' already exists"))
  else inr (registerEntry k entry m).

Definition remove (k : JsString) (m : Entries) : Entries * bool :=
  (Map_delete k m, Map_has k m).

Definition clear (m : Entries) : Entries := [].

End Registry.

(* ================================================================== *)
(** * [elysia.ts]: the handler of [POST /router/chat] *)
(* ================================================================== *)

Module Router.
Import Js.

Record ChatOptions : Type := mkChatOptions {
  model : option JsString;
  latency : option JsString;
  inference : option JsString;
  minContext : option N;
  max_tokens : option JsNumber;
  temperature : option JsNumber
}.

Record ChatRequest : Type := mkChat {
  prompt : JsString;
  options : option ChatOptions
}.

(** [request.options ?? {}]. *)
Definition options_or_empty (r : ChatRequest) : ChatOptions :=
  match options r with
  | Some o => o
  | None => {| model := None; latency := None; inference := None;
               minContext := None; max_tokens := None;
               temperature := None |}
  end.

(** The criteria that the caller sent, without the capability that the
    handler adds. *)
Definition caller_criteria (opts : ChatOptions) : Registry.FindModelOptions :=
  {| Registry.capability := None;
     Registry.want_latency := latency opts;
     Registry.want_inference := inference opts;
     Registry.minContext := minContext opts;
     Registry.want_loaded := None |}.

(** The criteria that the handler passes to [findOne]: the caller's, and the
    capability "chat". *)
Definition lookup_criteria (opts : ChatOptions) : Registry.FindModelOptions :=
  {| Registry.capability := Some (lit "chat");
     Registry.want_latency := latency opts;
     Registry.want_inference := inference opts;
     Registry.minContext := minContext opts;
     Registry.want_loaded := None |}.

(** The inference call that the handler makes for a model. *)
Definition call_for (request : ChatRequest)
  (entry : Registry.ModelRegistryEntry) : Client.InferenceRequest :=
  {| Client.req_model_id := Registry.id entry;
     Client.prompt := prompt request;
     Client.max_tokens := max_tokens (options_or_empty request);
     Client.temperature := temperature (options_or_empty request) |}.

(** What one handling of a request does: the inference calls sent to the
    engine, in order, and what the handler returns or throws. *)
Record Handled : Type := mkHandled {
  calls : list Client.InferenceRequest;
  outcome : Thrown + Client.InferenceResponse
}.

Section Handler.
(** The registry passed in the configuration and [client.inference]. *)
Variable registry : Registry.Entries.
Variable client_inference :
  Client.InferenceRequest -> Thrown + Client.InferenceResponse.

(** The first part of the handler: the model that serves the request, or
    the error thrown. *)
Definition resolve (opts : ChatOptions)
  : JsError + Registry.ModelRegistryEntry :=
  match Registry.truthy (model opts) with
  | Some m =>
      match Registry.get m registry with
      | Some entry => inr entry
      | None =>
          inl (new_Error (lit "Model '" ++ m ++ lit "' not found in registry"))
      end
  | None =>
      match Registry.findOne
              {| Registry.capability := Some (lit "chat");
                 Registry.want_latency := latency opts;
                 Registry.want_inference := inference opts;
                 Registry.minContext := minContext opts;
                 Registry.want_loaded := None |} registry with
      | Some entry => inr entry
      | None =>
          inl (new_Error
                 (lit "No suitable model found for the given constraints"))
      end
  end.

Definition router_chat (request : ChatRequest) : Handled :=
  let opts := options_or_empty request in
  match resolve opts with
  | inl err => {| calls := []; outcome := inl (ThrowError err) |}
  | inr entry =>
      let req :=
        {| Client.req_model_id := Registry.id entry;
           Client.prompt := prompt request;
           Client.max_tokens := max_tokens opts;
           Client.temperature := temperature opts |} in
      {| calls := [req]; outcome := client_inference req |}
  end.

End Handler.

End Router.

(* ================================================================== *)
(** * Reading the stream as a whole *)
(* ================================================================== *)

(** What the read loop of [inferenceStream] does, told over the whole byte
    sequence instead of chunk by chunk. The theorems relate these functions
    to [Client.read_loop] and [Client.inferenceStream]. *)
Module Stream.
Import Js Client.

(** What a line of the stream is to the loop body. *)
Inductive Record_ : Type :=
| Ignored
| Malformed (payload : JsString)
| Token (token : JsValue) (fragment : JsString) (complete : bool).

Section Stream.
Context {P : Platform}.
Variable data : InferenceRequest.
Variable options : StreamOptions.

(** The payload of a data line: the line is not an event-name line, starts
    with the six-unit marker and has something after it. *)
Definition data_record (line : JsString) : option JsString :=
  if startsWith (trim line) (lit "event: token") then None
  else if startsWith (trim line) (lit "data: ") then
    let payload := slice 6 (trim line) in
    if truthy_string payload then Some payload else None
  else None.

(** A payload read as a [StreamToken]: the parsed value, the text that its
    [token] field adds to the accumulated text and its [complete] flag.
    [None] when one of the three steps of the [try] block throws:
    [JSON.parse], reading a property (of [null]), or converting the [token]
    field to text. *)
Definition as_token (payload : JsString) : option (JsValue * JsString * bool) :=
  match JSON_parse payload with
  | None => None
  | Some v =>
      match get_prop v (lit "token"), get_prop v (lit "complete") with
      | Some f, Some c =>
          match toString f with
          | Some t => Some (v, t, toBoolean c)
          | None => None
          end
      | _, _ => None
      end
  end.

Definition classify (line : JsString) : Record_ :=
  match data_record line with
  | None => Ignored
  | Some payload =>
      match as_token payload with
      | Some (v, f, c) => Token v f c
      | None => Malformed payload
      end
  end.

Definition with_locals (s : State) (acc : JsString) (n : nat) : State :=
  {| now := now s; timer := timer s; decoder := decoder s;
     buffer := buffer s; accumulatedText := acc; tokenCount := n |}.

Definition completion (acc : JsString) (n : nat) : InferenceResponse :=
  {| model_id := req_model_id data; text := acc; tokens_generated := n;
     finish_reason := lit "stop" |}.

(** The events of one line, from the accumulators [acc] and [n]. *)
Definition line_events (acc : JsString) (n : nat) (line : JsString)
  : list Event :=
  match classify line with
  | Ignored => []
  | Malformed payload => [ConsoleError payload]
  | Token v f c =>
      OnToken v (acc ++ f) (n + 1)
      :: (if c && has_onComplete options
          then [OnComplete (completion (acc ++ f) (n + 1))] else [])
  end.

(** The accumulators after one line. *)
Definition line_locals (acc : JsString) (n : nat) (line : JsString)
  : JsString * nat :=
  match classify line with
  | Token v f c => (acc ++ f, n + 1)
  | _ => (acc, n)
  end.

Fixpoint lines_events (acc : JsString) (n : nat) (lines : list JsString)
  : list Event :=
  match lines with
  | [] => []
  | l :: rest =>
      line_events acc n l
      ++ lines_events (fst (line_locals acc n l)) (snd (line_locals acc n l))
           rest
  end.

Fixpoint lines_locals (acc : JsString) (n : nat) (lines : list JsString)
  : JsString * nat :=
  match lines with
  | [] => (acc, n)
  | l :: rest =>
      lines_locals (fst (line_locals acc n l)) (snd (line_locals acc n l)) rest
  end.

(** The tokens that a sequence of lines carries. *)
Fixpoint tokens (lines : list JsString) : list (JsValue * JsString * bool) :=
  match lines with
  | [] => []
  | l :: rest =>
      match classify l with
      | Token v f c => (v, f, c) :: tokens rest
      | _ => tokens rest
      end
  end.

Definition fragment (t : JsValue * JsString * bool) : JsString :=
  snd (fst t).

Definition flagged (t : JsValue * JsString * bool) : bool := snd t.

(** The text of a sequence of tokens. *)
Definition fragments (toks : list (JsValue * JsString * bool)) : JsString :=
  List.concat (List.map fragment toks).

(** The callbacks that a sequence of tokens gives rise to, from the
    accumulators [acc] and [n]: one per-token callback each, and a completion
    callback after a flagged one. *)
Fixpoint token_callbacks (acc : JsString) (n : nat)
  (toks : list (JsValue * JsString * bool)) : list Event :=
  match toks with
  | [] => []
  | (v, f, c) :: rest =>
      OnToken v (acc ++ f) (n + 1)
      :: (if c && has_onComplete options
          then [OnComplete (completion (acc ++ f) (n + 1))] else [])
      ++ token_callbacks (acc ++ f) (n + 1) rest
  end.

(** The text that the decoder makes of a byte sequence, and the lines that
    are complete in a text: all pieces of the split but the last. *)
Definition decoded (d : TextDecoder.State) (bytes : list byte) : JsString :=
  snd (TextDecoder.decode d bytes).

Definition complete_lines (txt : JsString) : list JsString :=
  removelast (split nl txt).

Definition pending (txt : JsString) : JsString := last (split nl txt) [].

(** The state in which the loop leaves the machine after the bytes [bytes],
    clock apart, and the events on the way. *)
Definition after_bytes (s : State) (bytes : list byte) : State :=
  let txt := buffer s ++ decoded (decoder s) bytes in
  let loc := lines_locals (accumulatedText s) (tokenCount s)
               (complete_lines txt) in
  {| now := now s; timer := timer s;
     decoder := fst (TextDecoder.decode (decoder s) bytes);
     buffer := pending txt;
     accumulatedText := fst loc; tokenCount := snd loc |}.

Definition events_of_bytes (s : State) (bytes : list byte) : list Event :=
  lines_events (accumulatedText s) (tokenCount s)
    (complete_lines (buffer s ++ decoded (decoder s) bytes)).

Definition total_delay (cs : list (N * list byte)) : N :=
  fold_right (fun c acc => (fst c + acc)%N) 0%N cs.

Definition all_bytes (cs : list (N * list byte)) : list byte :=
  List.concat (List.map snd cs).

(** The body that the loop reads, when the response arrives before the
    deadline with a 2xx status and a body. *)
Definition established (this : OpenLLMClient) (w : World) : option Body :=
  if (timeout this <=? fetch_delay w)%N then None
  else match fetch_result w with
       | inr r => if ok r then body r else None
       | inl _ => None
       end.

(** The lines that the loop body sees in the course of a call. *)
Definition received (this : OpenLLMClient) (w : World) : list JsString :=
  match established this w with
  | Some b =>
      complete_lines (decoded TextDecoder.init (all_bytes (chunks b)))
  | None => []
  end.

(** The error that the [catch] clause reports and rethrows, if any. *)
Definition reported (this : OpenLLMClient) (t : Thrown) : option JsError :=
  match t with
  | ThrowError err =>
      Some (if JsString_eqb (name err) (lit "AbortError")
            then timeoutError this else err)
  | ThrowOther _ => None
  end.

Definition catch_events (this : OpenLLMClient) (t : Thrown) : list Event :=
  match reported this t with
  | Some err => if has_onError options then [OnError err] else []
  | None => []
  end.

Definition catch_result (this : OpenLLMClient) (t : Thrown) : Thrown + unit :=
  match reported this t with
  | Some err => inl (ThrowError err)
  | None => inr tt
  end.

(** What the caller observes and gets when no stream is established. *)
Definition refused_events (this : OpenLLMClient) (w : World) : list Event :=
  if (timeout this <=? fetch_delay w)%N then
    catch_events this (ThrowError AbortError)
  else match fetch_result w with
       | inl t => catch_events this t
       | inr r =>
           if ok r then
             if has_onError options
             then [OnError (new_Error (lit "No response body"));
                   OnError (new_Error (lit "No response body"))]
             else []
           else match text_result r with
                | inl t => catch_events this t
                | inr msg =>
                    if has_onError options
                    then [OnError (createError (status r) msg);
                          OnError (createError (status r) msg)]
                    else []
                end
       end.

Definition refused_result (this : OpenLLMClient) (w : World)
  : Thrown + unit :=
  if (timeout this <=? fetch_delay w)%N then
    catch_result this (ThrowError AbortError)
  else match fetch_result w with
       | inl t => catch_result this t
       | inr r =>
           if ok r then inl (ThrowError (new_Error (lit "No response body")))
           else match text_result r with
                | inl t => catch_result this t
                | inr msg => inl (ThrowError (createError (status r) msg))
                end
       end.

(** How the end of the byte source shows to the caller. *)
Definition end_events (this : OpenLLMClient) (e : ReadEnd) : list Event :=
  match e with
  | ReadDone => []
  | ReadFail t => catch_events this t
  end.

Definition end_result (this : OpenLLMClient) (e : ReadEnd) : Thrown + unit :=
  match e with
  | ReadDone => inr tt
  | ReadFail t => catch_result this t
  end.

End Stream.

(** The same engine behaviour with the body cut into other chunks. *)
Definition with_chunks (w : World) (cs : list (N * list byte)) : World :=
  {| fetch_delay := fetch_delay w;
     fetch_result :=
       match fetch_result w with
       | inl t => inl t
       | inr r =>
           inr {| status := status r; text_delay := text_delay r;
                  text_result := text_result r;
                  body := match body r with
                          | Some b => Some {| chunks := cs;
                                              end_delay := end_delay b;
                                              ending := ending b |}
                          | None => None
                          end |}
       end |}.

(** The machine once the timer is set, and when the response has arrived and
    the timer is cleared. *)
Definition armed (this : OpenLLMClient) : State :=
  {| now := 0; timer := Some (timeout this); decoder := TextDecoder.init;
     buffer := []; accumulatedText := []; tokenCount := 0 |}.

Definition connected (w : World) : State :=
  {| now := fetch_delay w; timer := None; decoder := TextDecoder.init;
     buffer := []; accumulatedText := []; tokenCount := 0 |}.

(** The deadline passes between the arrival of the response and the end of
    the byte source. *)
Definition deadline_while_streaming (this : OpenLLMClient) (w : World)
  : Prop :=
  exists b, established this w = Some b
            /\ (fetch_delay w < timeout this)%N
            /\ (timeout this
                <= fetch_delay w + total_delay (chunks b) + end_delay b)%N.

(** A run with events put in front of its trace. *)
Definition prepend {A} (ev : list Event) (r : Run A) : Run A :=
  {| final := final r; trace := ev ++ trace r; result := result r |}.

(** Counting the callbacks of a trace. *)
Definition is_OnToken (e : Event) : bool :=
  match e with OnToken _ _ _ => true | _ => false end.

Definition is_OnComplete (e : Event) : bool :=
  match e with OnComplete _ => true | _ => false end.

Definition is_OnError (e : Event) : bool :=
  match e with OnError _ => true | _ => false end.

Definition is_callback (e : Event) : bool :=
  match e with ConsoleError _ => false | _ => true end.

Definition is_token_or_complete (e : Event) : bool :=
  is_OnToken e || is_OnComplete e.

Definition count_events (p : Event -> bool) (tr : list Event) : nat :=
  List.length (filter p tr).

Definition fires (p : Event -> bool) (tr : list Event) : bool :=
  existsb p tr.

(** Exactly one of the completion callback and the error callback fires. *)
Definition exactly_one_terminal (tr : list Event) : bool :=
  xorb (fires is_OnComplete tr) (fires is_OnError tr).

(** Nothing is delivered after a completion callback. *)
Definition completion_is_final (tr : list Event) : Prop :=
  forall pre r post,
    tr = pre ++ OnComplete r :: post -> fires is_callback post = false.

End Stream.

(* ================================================================== *)
(** * Engines, callers and catalogs for the examples *)
(* ================================================================== *)

Module Examples.
Import Js Client Stream.

(** The bytes of a text of ASCII units. *)
Definition ascii_bytes (s : JsString) : list byte :=
  List.map (fun c => match Byte.of_N c with Some b => b | None => x3f end) s.

(** A data line carrying the JSON text [payload], apostrophes standing for
    double quotes. *)
Definition record (payload : string) : JsString :=
  lit "data: " ++ json_lit payload ++ [nl].

(** A client with a timeout of 10 ms, a request and a caller that supplies
    all three callbacks. *)
Definition client : OpenLLMClient := new_OpenLLMClient None (Some 10%N).

Definition request : InferenceRequest :=
  {| req_model_id := lit "mistral"; prompt := lit "Say hi";
     max_tokens := None; temperature := None |}.

Definition callbacks : StreamOptions :=
  {| has_onComplete := true; has_onError := true |}.

(** An engine that answers 200 after 5 ms and streams the chunks. *)
Definition streams (cs : list (N * list byte)) (e : ReadEnd) : World :=
  {| fetch_delay := 5;
     fetch_result :=
       inr {| status := 200; text_delay := 0; text_result := inr [];
              body := Some {| chunks := cs; end_delay := 1; ending := e |} |}
  |}.

Definition hi : JsString :=
  record "{'token':'Hi','token_id':0,'complete':false}".

Definition bang : JsString :=
  record "{'token':'!','token_id':1,'complete':true}".

Definition tok_hi : JsValue :=
  JObj [(lit "token", JStr (lit "Hi")); (lit "token_id", JNum (lit "0"));
        (lit "complete", JBool false)].

Definition tok_bang : JsValue :=
  JObj [(lit "token", JStr (lit "!")); (lit "token_id", JNum (lit "1"));
        (lit "complete", JBool true)].

(** The chunks that an engine streams. *)
Definition chunks_of (w : World) : list (N * list byte) :=
  match fetch_result w with
  | inr r => match body r with Some b => chunks b | None => [] end
  | inl _ => []
  end.

(** Two records, the second one flagged complete, in one chunk. *)
Definition w_normal : World :=
  streams [(1%N, ascii_bytes (hi ++ bang))] ReadDone.

(** The same bytes cut in the middle of the first record and of the second. *)
Definition w_split : World :=
  streams [(1%N, firstn 20 (ascii_bytes (hi ++ bang)));
           (1%N, firstn 50 (skipn 20 (ascii_bytes (hi ++ bang))));
           (1%N, skipn 70 (ascii_bytes (hi ++ bang)))] ReadDone.

(** The byte source closes after one token that is not flagged complete. *)
Definition w_silent : World := streams [(1%N, ascii_bytes hi)] ReadDone.

(** A completion-flagged token, then the read fails. *)
Definition w_broken : World :=
  streams [(1%N, ascii_bytes bang)]
    (ReadFail (ThrowError (new_Error (lit "network error")))).

(** The stream goes on after a completion-flagged token. *)
Definition w_goes_on : World :=
  streams [(1%N, ascii_bytes (bang ++ hi ++ bang))] ReadDone.

(** The response arrives after 5 ms, the only chunk 100 ms later: the
    deadline of 10 ms passes while the client is streaming. *)
Definition w_late : World :=
  streams [(100%N, ascii_bytes (hi ++ bang))] ReadDone.

(** The response would arrive after 15 ms: the deadline of 10 ms passes while
    the client is connecting. *)
Definition w_slow : World :=
  {| fetch_delay := 15;
     fetch_result :=
       inr {| status := 200; text_delay := 0; text_result := inr [];
              body := Some {| chunks := [(1%N, ascii_bytes (hi ++ bang))];
                              end_delay := 1; ending := ReadDone |} |} |}.

(** The engine answers 500 with an error text. *)
Definition w_500 : World :=
  {| fetch_delay := 5;
     fetch_result :=
       inr {| status := 500; text_delay := 1;
              text_result := inr (lit "engine failure"); body := None |} |}.

(** A record that is not JSON between two well-formed ones. *)
Definition garbled : JsString := lit "data: {oops" ++ [nl].

Definition w_garbled : World :=
  streams [(1%N, ascii_bytes (hi ++ garbled ++ bang))] ReadDone.

(** A record whose token is the letter e with acute accent, two bytes in
    UTF-8, whole and cut between the two bytes. *)
Definition accent_bytes : list byte :=
  ascii_bytes (lit "data: " ++ json_lit "{'token':'")
  ++ [xc3; xa9]
  ++ ascii_bytes (json_lit "','token_id':0,'complete':true}" ++ [nl]).

Definition w_accent : World := streams [(1%N, accent_bytes)] ReadDone.

Definition w_accent_cut : World :=
  streams [(1%N, firstn 17 accent_bytes); (1%N, skipn 17 accent_bytes)]
    ReadDone.

(** Payloads that are JSON but no [StreamToken]: a number, and [null]. *)
Definition w_number : World :=
  streams [(1%N, ascii_bytes (lit "data: 42" ++ [nl]))] ReadDone.

Definition w_null : World :=
  streams [(1%N, ascii_bytes (lit "data: null" ++ [nl]))] ReadDone.

(** The catalog of the design document, and a model without chat. *)
Definition catalog : Registry.Entries :=
  Registry.ModelRegistry
    [(lit "a", {| Registry.in_id := lit "model-a";
                  Registry.in_inference := lit "ollama";
                  Registry.in_context := 4096;
                  Registry.in_quant := None;
                  Registry.in_capabilities := [lit "chat"];
                  Registry.in_latency := Some (lit "fast") |});
     (lit "b", {| Registry.in_id := lit "model-b";
                  Registry.in_inference := lit "llama";
                  Registry.in_context := 8192;
                  Registry.in_quant := None;
                  Registry.in_capabilities := [lit "chat"];
                  Registry.in_latency := Some (lit "slow") |})].

Definition embedder : Registry.RegistryEntryInput :=
  {| Registry.in_id := lit "embed";
     Registry.in_inference := lit "huggingface";
     Registry.in_context := 32768;
     Registry.in_quant := None;
     Registry.in_capabilities := [lit "embedding"];
     Registry.in_latency := Some (lit "extreme") |}.

Definition catalog_with_embedder : Registry.Entries :=
  Registry.ModelRegistry
    [(lit "e", embedder);
     (lit "b", {| Registry.in_id := lit "model-b";
                  Registry.in_inference := lit "llama";
                  Registry.in_context := 8192;
                  Registry.in_quant := None;
                  Registry.in_capabilities := [lit "chat"];
                  Registry.in_latency := Some (lit "slow") |})].

(** An engine that answers every inference call. *)
Definition engine (req : InferenceRequest) : Thrown + InferenceResponse :=
  inr {| model_id := req_model_id req; text := lit "ok";
         tokens_generated := 1; finish_reason := lit "stop" |}.

(** The example caller's call against an engine, with the example reader of
    JSON. *)
Definition run (w : World) : Run unit :=
  invoke (P := ExampleJSON.platform) client request callbacks w.

Definition lines_of (w : World) : list JsString :=
  received client w.

Definition entry_a : Registry.ModelRegistryEntry :=
  {| Registry.id := lit "a"; Registry.name := lit "model-a";
     Registry.inference := lit "ollama"; Registry.context := 4096;
     Registry.quant := None; Registry.capabilities := [lit "chat"];
     Registry.latency := Some (lit "fast");
     Registry.size_bytes := 4000000000; Registry.loaded := false;
     Registry.loaded_at := None |}.

Definition entry_b : Registry.ModelRegistryEntry :=
  {| Registry.id := lit "b"; Registry.name := lit "model-b";
     Registry.inference := lit "llama"; Registry.context := 8192;
     Registry.quant := None; Registry.capabilities := [lit "chat"];
     Registry.latency := Some (lit "slow");
     Registry.size_bytes := 4000000000; Registry.loaded := false;
     Registry.loaded_at := None |}.

(** The criteria of the design document's example. *)
Definition chat_8192 : Registry.FindModelOptions :=
  {| Registry.capability := Some (lit "chat");
     Registry.want_latency := None; Registry.want_inference := None;
     Registry.minContext := Some 8192%N; Registry.want_loaded := None |}.

Definition ask (m : option JsString) (c : option N) : Router.ChatRequest :=
  {| Router.prompt := lit "Say hi";
     Router.options :=
       Some {| Router.model := m; Router.latency := None;
               Router.inference := None; Router.minContext := c;
               Router.max_tokens := None; Router.temperature := None |} |}.

End Examples.

(* ================================================================== *)
(** * [types.ts]: the error classes *)
(* ================================================================== *)

Module Errors.
Import Js.

(** [new OpenLLMError(message, code, statusCode)]. *)
Definition OpenLLMError (msg : JsString) (c : option JsString)
  (st : option Z) : JsError :=
  {| name := lit "OpenLLMError"; message := msg; code := c;
     statusCode := st |}.

(** [new ModelNotFoundError(modelId)]. *)
Definition ModelNotFoundError (modelId : JsString) : JsError :=
  {| name := lit "ModelNotFoundError";
     message := lit "Model '" ++ modelId ++ lit "' not found";
     code := Some (lit "MODEL_NOT_FOUND"); statusCode := Some 404%Z |}.

(** [new ModelNotLoadedError(modelId)]. *)
Definition ModelNotLoadedError (modelId : JsString) : JsError :=
  {| name := lit "ModelNotLoadedError";
     message := lit "Model '" ++ modelId ++ lit "' is not loaded";
     code := Some (lit "MODEL_NOT_LOADED"); statusCode := Some 412%Z |}.

(** [new InferenceError(message)]. *)
Definition InferenceError (msg : JsString) : JsError :=
  {| name := lit "InferenceError"; message := msg;
     code := Some (lit "INFERENCE_ERROR"); statusCode := Some 502%Z |}.

(** The messages in which [/Model '([^']+)'/] finds a match: somewhere the
    text [Model '], a non-empty run without apostrophe, and an apostrophe. *)
Definition mentions_model (msg : JsString) : Prop :=
  exists pre run post,
    msg = pre ++ lit "Model '" ++ run ++ 39%N :: post
    /\ run <> []
    /\ Forall (fun c => c <> 39%N) run.

End Errors.

(* ================================================================== *)
(** * [client.ts]: the private [request] *)
(* ================================================================== *)

Module Requests.
Import Js Client.

(** The engine's side of a request: the response that [fetch] resolves to,
    with what [response.text()] and [response.json()] give. *)
Record Reply : Type := mkReply {
  reply_status : N;
  reply_text_delay : N;
  reply_text : Thrown + JsString;
  reply_json_delay : N;
  reply_json : Thrown + JsValue
}.

Definition reply_ok (r : Reply) : bool :=
  ((200 <=? reply_status r) && (reply_status r <=? 299))%N.

Record Exchange : Type := mkExchange {
  reply_delay : N;
  reply : Thrown + Reply
}.

Section Request.
Variable this : OpenLLMClient.

Definition requestTimeout : JsError :=
  new_Error (lit "Request timeout after " ++ N_toString (timeout this)
             ++ lit "ms").

(** The [catch (error)] clause of [request]: everything is thrown again, an
    error named [AbortError] as the timeout error. *)
Definition rethrow {A} (error : Thrown) : M A :=
  clearTimeout ;;
  match error with
  | ThrowError err =>
      if JsString_eqb (name err) (lit "AbortError") then
        throw (ThrowError requestTimeout)
      else throw error
  | ThrowOther _ => throw error
  end.

Definition request (x : Exchange) : M JsValue :=
  setTimeout (timeout this) ;;
  try_catch
    (response <- await (reply_delay x) (reply x) ;;
     clearTimeout ;;
     (if negb (reply_ok response) then
        errorText <- await (reply_text_delay response) (reply_text response) ;;
        throw (ThrowError (createError (reply_status response) errorText))
      else ret tt) ;;
     await (reply_json_delay response) (reply_json response))
    rethrow.

(** One call, on a machine whose clock starts with it. *)
Definition perform (x : Exchange) : Run JsValue := request x initial.

(** What the [catch] clause throws for what it caught. *)
Definition relabel (t : Thrown) : Thrown :=
  match t with
  | ThrowError err =>
      if JsString_eqb (name err) (lit "AbortError")
      then ThrowError requestTimeout else t
  | ThrowOther _ => t
  end.

(** The outcome of a call, read off the engine's side. *)
Definition outcome_of (x : Exchange) : Thrown + JsValue :=
  if (timeout this <=? reply_delay x)%N then inl (ThrowError requestTimeout)
  else match reply x with
       | inl t => inl (relabel t)
       | inr r =>
           if reply_ok r then
             match reply_json r with
             | inl t => inl (relabel t)
             | inr v => inr v
             end
           else match reply_text r with
                | inl t => inl (relabel t)
                | inr msg => inl (ThrowError (createError (reply_status r) msg))
                end
       end.

End Request.
End Requests.

(* ================================================================== *)
(** * [registry.ts]: [update], [toObject], [fromObject] *)
(* ================================================================== *)

Module RegistryOps.
Import Js Registry.

(** [Partial<RegistryEntryInput>]: [None] for a key that is absent. The two
    optional fields can be present with the value [undefined]. *)
Record EntryUpdates : Type := mkUpdates {
  up_id : option JsString;
  up_inference : option JsString;
  up_context : option N;
  up_quant : option (option JsString);
  up_capabilities : option (Datatypes.list JsString);
  up_latency : option (option JsString)
}.

Definition or_else {A} (o : option A) (a : A) : A :=
  match o with Some x => x | None => a end.

(** [{ ...existing, ...updates, id }]. *)
Definition spread (existing : ModelRegistryEntry) (updates : EntryUpdates)
  (k : JsString) : ModelRegistryEntry :=
  {| id := k;
     name := name existing;
     inference := or_else (up_inference updates) (inference existing);
     context := or_else (up_context updates) (context existing);
     quant := or_else (up_quant updates) (quant existing);
     capabilities := or_else (up_capabilities updates) (capabilities existing);
     latency := or_else (up_latency updates) (latency existing);
     size_bytes := size_bytes existing;
     loaded := loaded existing;
     loaded_at := loaded_at existing |}.

(** [update]: throws when the key is missing. *)
Definition update (k : JsString) (updates : EntryUpdates) (m : Entries)
  : JsError + (Entries * ModelRegistryEntry) :=
  match Map_get k m with
  | None => inl (new_Error (lit "Model with id '" ++ k ++ lit "' not found"))
  | Some existing =>
      let updated := spread existing updates k in
      inr (Map_set k updated m, updated)
  end.

(** The model that [registerEntry] builds. *)
Definition registered (k : JsString) (entry : RegistryEntryInput)
  : ModelRegistryEntry :=
  snd (registerEntry k entry []).

(** ** Plain objects and their key order *)

Definition is_digit (c : CodeUnit) : bool := ((48 <=? c) && (c <=? 57))%N.

Fixpoint digits_value (acc : N) (s : JsString) : N :=
  match s with
  | [] => acc
  | c :: s' => digits_value (10 * acc + (c - 48))%N s'
  end.

(** The array index that a property key denotes: a canonical decimal
    numeral below 2^32 - 1. *)
Definition array_index (k : JsString) : option N :=
  match k with
  | [] => None
  | c :: rest =>
      if forallb is_digit k
         && (negb (c =? 48)%N || match rest with [] => true | _ => false end)
         && (digits_value 0 k <=? 4294967294)%N
      then Some (digits_value 0 k) else None
  end.

(** The own properties of a plain object, in the order in which
    [Object.entries] lists them: array indices ascending, then the other
    keys in the order of their creation. *)
Definition JsObject := Datatypes.list (JsString * ModelRegistryEntry).

(** A new property with an array index goes before the first property that
    is no array index or has a greater one. *)
Fixpoint insert_index (i : N) (k : JsString) (v : ModelRegistryEntry)
  (o : JsObject) : JsObject :=
  match o with
  | [] => [(k, v)]
  | (k', v') :: rest =>
      match array_index k' with
      | Some j => if (j <? i)%N then (k', v') :: insert_index i k v rest
                  else (k, v) :: o
      | None => (k, v) :: o
      end
  end.

(** [obj[k] = v] as [Object.fromEntries] does it: the value of a present key
    is replaced where it stands. *)
Definition define (k : JsString) (v : ModelRegistryEntry) (o : JsObject)
  : JsObject :=
  if Map_has k o then Map_set k v o
  else match array_index k with
       | Some i => insert_index i k v o
       | None => o ++ [(k, v)]
       end.

Definition Object_fromEntries
  (pairs : Datatypes.list (JsString * ModelRegistryEntry)) : JsObject :=
  fold_left (fun o kv => define (fst kv) (snd kv) o) pairs [].

Definition Object_entries (o : JsObject)
  : Datatypes.list (JsString * ModelRegistryEntry) := o.

(** [toObject] and [fromObject]. *)
Definition toObject (m : Entries) : JsObject := Object_fromEntries m.

Definition fromObject (obj : JsObject) (m : Entries) : Entries :=
  fold_left (fun acc kv => Map_set (fst kv) (snd kv) acc)
    (Object_entries obj) (clear m).

(** ** The registries that the constructor, [add], [update], [remove] and
       [clear] produce *)

Inductive Built : Entries -> Prop :=
| Built_new (config : Datatypes.list (JsString * RegistryEntryInput)) :
    Built (ModelRegistry config)
| Built_add (m m' : Entries) (k : JsString) (entry : RegistryEntryInput)
    (model : ModelRegistryEntry) :
    Built m -> add k entry m = inr (m', model) -> Built m'
| Built_update (m m' : Entries) (k : JsString) (updates : EntryUpdates)
    (model : ModelRegistryEntry) :
    Built m -> update k updates m = inr (m', model) -> Built m'
| Built_remove (m : Entries) (k : JsString) :
    Built m -> Built (fst (remove k m))
| Built_clear (m : Entries) :
    Built m -> Built (clear m).

Definition keys (m : Entries) : Datatypes.list JsString := List.map fst m.

(** Criteria that constrain nothing: every field absent, or present with a
    falsy value (the empty string, zero). *)
Definition vacuous (options : FindModelOptions) : Prop :=
  truthy (capability options) = None
  /\ truthy (want_latency options) = None
  /\ truthy (want_inference options) = None
  /\ truthy_number (minContext options) = None
  /\ want_loaded options = None.

(** What every entry of a registry made by the constructor, [add], [update],
    [remove] and [clear] looks like. *)
Definition pristine (kv : JsString * ModelRegistryEntry) : Prop :=
  id (snd kv) = fst kv
  /\ loaded (snd kv) = false
  /\ size_bytes (snd kv) = 4000000000%N
  /\ loaded_at (snd kv) = None.

End RegistryOps.

(* ================================================================== *)
(** * The shape of a trace *)
(* ================================================================== *)

Module Shape.
Import Js Client Stream.

(** The events that a caller gets who leaves callbacks out. *)
Definition heard (options : StreamOptions) (e : Event) : bool :=
  match e with
  | OnComplete _ => has_onComplete options
  | OnError _ => has_onError options
  | _ => true
  end.

Definition all_callbacks : StreamOptions :=
  {| has_onComplete := true; has_onError := true |}.

(** Traces in which the per-token calls are numbered from [n + 1] on and a
    completion call, where there is one, follows a per-token call and
    repeats its text and count. *)
Inductive Delivered (data : InferenceRequest) : nat -> list Event -> Prop :=
| Delivered_nil n : Delivered data n []
| Delivered_log n payload tr :
    Delivered data n tr -> Delivered data n (ConsoleError payload :: tr)
| Delivered_error n err tr :
    Delivered data n tr -> Delivered data n (OnError err :: tr)
| Delivered_token n v acc tr :
    Delivered data (n + 1) tr ->
    Delivered data n (OnToken v acc (n + 1) :: tr)
| Delivered_complete n v acc tr :
    Delivered data (n + 1) tr ->
    Delivered data n
      (OnToken v acc (n + 1) :: OnComplete (completion data acc (n + 1)) :: tr).

End Shape.

(* ================================================================== *)
(** * Lines, blanks and the bytes between them *)
(* ================================================================== *)

Module Framing.
Import Js.

(** Text that [trim] removes entirely. *)
Definition blank (s : JsString) : bool := forallb is_space s.

(** The byte that the decoder turns into the line separator. *)
Definition newline : byte := x0a.

(** A byte sequence that ends where a line ends: it is empty or its last
    byte is the newline byte. *)
Definition ends_a_line (bytes : Datatypes.list byte) : Prop :=
  bytes = [] \/ exists h, bytes = h ++ [newline].

(** What holds of the decoder state between two bytes: the window for the
    next continuation byte lies in 128..191, and an open sequence has a
    non-zero code point so far, or is at its first continuation byte with a
    window that starts at 144 or above. *)
Definition well_formed (st : TextDecoder.State) : Prop :=
  (128 <= TextDecoder.lower st)%N
  /\ (TextDecoder.upper st <= 191)%N
  /\ (TextDecoder.bytes_needed st = 0%N
      \/ TextDecoder.code_point st <> 0%N
      \/ (TextDecoder.bytes_seen st = 0%N
          /\ (144 <= TextDecoder.lower st)%N
          /\ (2 <= TextDecoder.bytes_needed st)%N)).

End Framing.

(* ================================================================== *)
(** * More example inputs *)
(* ================================================================== *)

Module MoreExamples.
Import Js Client Stream Examples.

(** A read that rejects with an error named [AbortError] after one token. *)
Definition aborted : JsError :=
  {| name := lit "AbortError"; message := lit "The operation was aborted";
     code := None; statusCode := None |}.

Definition w_aborted_read : World :=
  streams [(1%N, ascii_bytes hi)] (ReadFail (ThrowError aborted)).

(** A body whose last record lacks its newline, and the body cut after the
    first record. *)
Definition unterminated : list (N * list byte) :=
  [(1%N, ascii_bytes (hi ++ removelast bang))].

Definition terminated : list (N * list byte) := [(1%N, ascii_bytes hi)].

(** Criteria whose fields are all falsy: empty strings and zero. *)
Definition falsy_criteria : Registry.FindModelOptions :=
  {| Registry.capability := Some [];
     Registry.want_latency := None;
     Registry.want_inference := Some [];
     Registry.minContext := Some 0%N;
     Registry.want_loaded := None |}.

Definition only_loaded : Registry.FindModelOptions :=
  {| Registry.capability := None;
     Registry.want_latency := None;
     Registry.want_inference := None;
     Registry.minContext := None;
     Registry.want_loaded := Some true |}.

(** The configuration of the example catalog. *)
Definition catalog_config
  : list (JsString * Registry.RegistryEntryInput) :=
  [(lit "a", {| Registry.in_id := lit "model-a";
                Registry.in_inference := lit "ollama";
                Registry.in_context := 4096;
                Registry.in_quant := None;
                Registry.in_capabilities := [lit "chat"];
                Registry.in_latency := Some (lit "fast") |});
   (lit "b", {| Registry.in_id := lit "model-b";
                Registry.in_inference := lit "llama";
                Registry.in_context := 8192;
                Registry.in_quant := None;
                Registry.in_capabilities := [lit "chat"];
                Registry.in_latency := Some (lit "slow") |})].

(** A registry whose identifiers are a name and two numerals. *)
Definition numbered : Registry.Entries :=
  Registry.ModelRegistry
    [(lit "b", embedder); (lit "10", embedder); (lit "2", embedder)].

(** A record whose payload is JSON but no [StreamToken]: an object without
    [token] and [complete] fields, between the two records of the example. *)
Definition shapeless : JsString := record "{'text':'x'}".

Definition tok_shapeless : JsValue := JObj [(lit "text", JStr (lit "x"))].

Definition w_shapeless : World :=
  streams [(1%N, ascii_bytes (hi ++ shapeless ++ bang))] ReadDone.

(** An engine that answers a plain request with a JSON value after 3 ms, and
    a transport that rejects with a text, which is no [Error]. *)
Definition healthy : Requests.Exchange :=
  {| Requests.reply_delay := 3;
     Requests.reply :=
       inr {| Requests.reply_status := 200;
              Requests.reply_text_delay := 0;
              Requests.reply_text := inr [];
              Requests.reply_json_delay := 1;
              Requests.reply_json :=
                inr (JObj [(lit "status", JStr (lit "ok"))]) |} |}.

Definition rejects_with_text : Requests.Exchange :=
  {| Requests.reply_delay := 3;
     Requests.reply := inl (ThrowOther (JStr (lit "boom"))) |}.

(** A registry filled by [fromObject] from an object that holds the entry
    [a] under the key [x]. *)
Definition renamed : Registry.Entries :=
  RegistryOps.fromObject [(lit "x", entry_a)] [].

(** A request without options. *)
Definition plain_ask : Router.ChatRequest :=
  {| Router.prompt := lit "Say hi"; Router.options := None |}.

End MoreExamples.

(* ================================================================== *)
(** * Facts about strings and the decoder *)
(* ================================================================== *)

Module JsFacts.
Import Js.

Lemma split_nonempty (sep : CodeUnit) (s : JsString) : split sep s <> [].
Proof.
  destruct s as [|c s]; simpl; [discriminate|].
  destruct (N.eqb c sep); [discriminate|].
  destruct (split sep s); discriminate.
Qed.

(** Splitting a text that continues: the complete pieces of the first part
    stay, and its last piece is glued to what follows. *)
Lemma split_app (sep : CodeUnit) (a b : JsString) :
  split sep (a ++ b)
  = removelast (split sep a) ++ split sep (last (split sep a) [] ++ b).
Proof.
  induction a as [|c a IH]; [reflexivity|].
  cbn [app split].
  destruct (N.eqb c sep) eqn:E.
  - rewrite IH.
    pose proof (split_nonempty sep a) as Hne.
    destruct (split sep a) as [|l ls]; [congruence|]. reflexivity.
  - rewrite IH.
    pose proof (split_nonempty sep a) as Hne.
    destruct (split sep a) as [|l ls]; [congruence|].
    destruct ls as [|l' ls].
    + cbn [removelast last app split]. rewrite E.
      destruct (split sep (l ++ b)); reflexivity.
    + reflexivity.
Qed.

Lemma last_app_nonempty {A} (l l' : list A) (d : A) :
  l' <> [] -> last (l ++ l') d = last l' d.
Proof.
  intros Hne. induction l as [|x l IH]; [reflexivity|].
  cbn [app]. destruct (l ++ l') eqn:E.
  - apply app_eq_nil in E. tauto.
  - cbn [last]. exact IH.
Qed.

Lemma removelast_split_app (sep : CodeUnit) (a b : JsString) :
  removelast (split sep (a ++ b))
  = removelast (split sep a)
    ++ removelast (split sep (last (split sep a) [] ++ b)).
Proof.
  rewrite split_app, removelast_app by apply split_nonempty. reflexivity.
Qed.

Lemma last_split_app (sep : CodeUnit) (a b : JsString) :
  last (split sep (a ++ b)) []
  = last (split sep (last (split sep a) [] ++ b)) [].
Proof.
  rewrite split_app, last_app_nonempty by apply split_nonempty. reflexivity.
Qed.

(** A text without separator is its own single piece. *)
Lemma split_no_sep (sep : CodeUnit) (s : JsString) :
  ~ In sep s -> split sep s = [s].
Proof.
  induction s as [|c s IH]; intros Hn; [reflexivity|].
  simpl. destruct (N.eqb_spec c sep) as [->|_].
  - exfalso. apply Hn. now left.
  - rewrite IH; [reflexivity|]. intros H. apply Hn. now right.
Qed.

(** The piece kept in the buffer never holds a separator. *)
Lemma last_split_no_sep (sep : CodeUnit) (s : JsString) :
  ~ In sep (last (split sep s) []).
Proof.
  induction s as [|c s IH]; [intros []|].
  cbn [split]. pose proof (split_nonempty sep s) as Hne.
  destruct (N.eqb_spec c sep) as [->|Hc].
  - destruct (split sep s) as [|l ls]; [congruence|]. exact IH.
  - destruct (split sep s) as [|l ls]; [congruence|].
    destruct ls as [|l' ls].
    + cbn [last] in *. intros [H|H]; [congruence|auto].
    + exact IH.
Qed.

(** The decoder carries its state from chunk to chunk: decoding two chunks
    in turn is decoding their concatenation. *)
Lemma decode_app (st : TextDecoder.State) (a b : list byte) :
  TextDecoder.decode st (a ++ b)
  = (fst (TextDecoder.decode (fst (TextDecoder.decode st a)) b),
     snd (TextDecoder.decode st a)
     ++ snd (TextDecoder.decode (fst (TextDecoder.decode st a)) b)).
Proof.
  revert st. induction a as [|x a IH]; intros st.
  - cbn. now destruct (TextDecoder.decode st b).
  - cbn [app TextDecoder.decode].
    destruct (TextDecoder.step st x) as [st1 s1].
    rewrite IH.
    destruct (TextDecoder.decode st1 a) as [st2 s2]. cbn [fst snd].
    destruct (TextDecoder.decode st2 b) as [st3 s3]. cbn [fst snd].
    now rewrite app_assoc.
Qed.

End JsFacts.

(* ================================================================== *)
(** * Running computations step by step *)
(* ================================================================== *)

Module MonadFacts.
Import Js Client Stream.

Lemma prepend_nil {A} (r : Run A) : prepend [] r = r.
Proof. now destruct r. Qed.

Section Laws.
Context {A B : Type}.
Variables (k : A -> M B) (s : State).

Lemma bind_ret (a : A) : bind (ret a) k s = k a s.
Proof. unfold bind, ret. cbn. now destruct (k a s). Qed.

Lemma bind_throw (t : Thrown) : bind (throw t) k s = throw t s.
Proof. reflexivity. Qed.

End Laws.

Section StateLaws.
Context {B : Type}.
Variable s : State.

Lemma bind_get (k : State -> M B) : bind get k s = k s s.
Proof. unfold bind, get. cbn. now destruct (k s s). Qed.

Lemma bind_put (s' : State) (k : unit -> M B) : bind (put s') k s = k tt s'.
Proof. unfold bind, put. cbn. now destruct (k tt s'). Qed.

Lemma bind_emit (e : Event) (k : unit -> M B) :
  bind (emit e) k s = prepend [e] (k tt s).
Proof. reflexivity. Qed.

End StateLaws.

Lemma bind_assoc {A B C} (m : M A) (k : A -> M B) (k' : B -> M C)
  (s : State) :
  bind (bind m k) k' s = bind m (fun x => bind (k x) k') s.
Proof.
  unfold bind. destruct (m s) as [f tr [t|a]]; cbn; [reflexivity|].
  destruct (k a f) as [f' tr' [t'|b]]; cbn; [reflexivity|].
  now rewrite app_assoc.
Qed.

(** A computation whose run is known, followed by another. *)
Lemma bind_run {A B} (m : M A) (k : A -> M B) (s s' : State)
  (ev : list Event) (a : A) :
  m s = {| final := s'; trace := ev; result := inr a |} ->
  bind m k s = prepend ev (k a s').
Proof. intros E. unfold bind. now rewrite E. Qed.

Lemma bind_run_throws {A B} (m : M A) (k : A -> M B) (s s' : State)
  (ev : list Event) (t : Thrown) :
  m s = {| final := s'; trace := ev; result := inl t |} ->
  bind m k s = {| final := s'; trace := ev; result := inl t |}.
Proof. intros E. unfold bind. now rewrite E. Qed.

Lemma try_catch_run {A} (m : M A) (h : Thrown -> M A) (s s' : State)
  (ev : list Event) (a : A) :
  m s = {| final := s'; trace := ev; result := inr a |} ->
  try_catch m h s = {| final := s'; trace := ev; result := inr a |}.
Proof. intros E. unfold try_catch. now rewrite E. Qed.

Lemma try_catch_run_throws {A} (m : M A) (h : Thrown -> M A) (s s' : State)
  (ev : list Event) (t : Thrown) :
  m s = {| final := s'; trace := ev; result := inl t |} ->
  try_catch m h s = prepend ev (h t s').
Proof. intros E. unfold try_catch. now rewrite E. Qed.

End MonadFacts.

(** One step of a run: the first instruction of a sequence is executed. *)
Ltac run_step :=
  first [ rewrite MonadFacts.bind_ret | rewrite MonadFacts.bind_throw
        | rewrite MonadFacts.bind_get | rewrite MonadFacts.bind_put
        | rewrite MonadFacts.bind_emit | rewrite MonadFacts.bind_assoc ];
  cbv beta.

(* ================================================================== *)
(** * The read loop, line by line and as a whole *)
(* ================================================================== *)

Module LoopFacts.
Import Js Client Stream JsFacts MonadFacts.

Section Loop.
Context {P : Platform}.
Variable data : InferenceRequest.
Variable options : StreamOptions.

Lemma with_locals_same (s : State) :
  with_locals s (accumulatedText s) (tokenCount s) = s.
Proof. now destruct s. Qed.

(** One turn of the [for] loop: the line's events, the accumulators moved on,
    nothing thrown. *)
Lemma process_line_run (line : JsString) (s : State) :
  process_line data options line s
  = {| final := with_locals s
                  (fst (line_locals (accumulatedText s) (tokenCount s) line))
                  (snd (line_locals (accumulatedText s) (tokenCount s) line));
       trace := line_events data options (accumulatedText s) (tokenCount s)
                  line;
       result := inr tt |}.
Proof.
  unfold process_line, line_events, line_locals, classify, data_record,
    as_token.
  destruct (startsWith (trim line) (lit "event: token")).
  { cbv iota beta. cbn [fst snd]. rewrite with_locals_same; reflexivity. }
  destruct (startsWith (trim line) (lit "data: ")).
  2:{ cbv iota beta. cbn [fst snd]. rewrite with_locals_same; reflexivity. }
  cbv zeta.
  destruct (truthy_string (slice 6 (trim line))).
  2:{ cbv iota beta. cbn [fst snd]. rewrite with_locals_same; reflexivity. }
  generalize (slice 6 (trim line)) as payload. intros payload.
  unfold try_catch; cbv zeta.
  unfold parse.
  destruct (JSON_parse payload) as [v|].
  2:{ rewrite !bind_throw. cbv iota beta.
      cbn [throw emit result final trace app fst snd].
      rewrite with_locals_same; reflexivity. }
  run_step. unfold prop.
  destruct (get_prop v (lit "token")) as [f|] eqn:Ef.
  2:{ rewrite !bind_throw. cbv iota beta.
      cbn [throw emit result final trace app fst snd].
      rewrite with_locals_same; reflexivity. }
  assert (Hc : exists c, get_prop v (lit "complete") = Some c).
  { destruct v; cbn [get_prop] in Ef |- *; try discriminate; eauto. }
  destruct Hc as [c Hc]. rewrite Hc.
  unfold concat_text, set_accumulatedText, set_tokenCount, call_onComplete.
  repeat run_step.
  destruct (toString f) as [t|].
  2:{ rewrite !bind_throw. cbv iota beta.
      cbn [throw emit result final trace app fst snd].
      rewrite with_locals_same; reflexivity. }
  repeat run_step.
  cbn [now timer decoder buffer accumulatedText tokenCount].
  destruct (toBoolean c); destruct (has_onComplete options);
    repeat run_step;
    cbn [prepend emit ret result final trace app fst snd andb with_locals
         now timer decoder buffer accumulatedText tokenCount completion];
    reflexivity.
Qed.

Lemma for_each_run (lines : list JsString) (s : State) :
  for_each (process_line data options) lines s
  = {| final := with_locals s
                  (fst (lines_locals (accumulatedText s) (tokenCount s) lines))
                  (snd (lines_locals (accumulatedText s) (tokenCount s) lines));
       trace := lines_events data options (accumulatedText s) (tokenCount s)
                  lines;
       result := inr tt |}.
Proof.
  revert s. induction lines as [|l lines IH]; intros s;
    cbn [for_each lines_locals lines_events].
  - unfold ret. now rewrite with_locals_same.
  - unfold bind. rewrite process_line_run. cbn [result final trace].
    rewrite IH. reflexivity.
Qed.

Lemma lines_locals_app (acc : JsString) (n : nat) (l1 l2 : list JsString) :
  lines_locals acc n (l1 ++ l2)
  = lines_locals (fst (lines_locals acc n l1)) (snd (lines_locals acc n l1))
      l2.
Proof.
  revert acc n. induction l1 as [|l l1 IH]; intros acc n; [reflexivity|].
  cbn [app lines_locals]. apply IH.
Qed.

Lemma lines_events_app (acc : JsString) (n : nat) (l1 l2 : list JsString) :
  lines_events data options acc n (l1 ++ l2)
  = lines_events data options acc n l1
    ++ lines_events data options (fst (lines_locals acc n l1))
         (snd (lines_locals acc n l1)) l2.
Proof.
  revert acc n. induction l1 as [|l l1 IH]; intros acc n; [reflexivity|].
  cbn [app lines_events lines_locals]. now rewrite IH, app_assoc.
Qed.

(** Feeding the loop two byte sequences in turn is feeding it their
    concatenation. *)
Lemma after_bytes_app (s : State) (a b : list byte) :
  after_bytes (after_bytes s a) b = after_bytes s (a ++ b).
Proof.
  unfold after_bytes, decoded, complete_lines, pending.
  cbn [now timer decoder buffer accumulatedText tokenCount].
  rewrite (decode_app (decoder s) a b). cbn [fst snd].
  set (da := snd (TextDecoder.decode (decoder s) a)).
  set (db := snd (TextDecoder.decode
                    (fst (TextDecoder.decode (decoder s) a)) b)).
  rewrite (app_assoc (buffer s) da db).
  rewrite (removelast_split_app nl (buffer s ++ da) db).
  rewrite (last_split_app nl (buffer s ++ da) db).
  rewrite lines_locals_app. reflexivity.
Qed.

Lemma events_of_bytes_app (s : State) (a b : list byte) :
  events_of_bytes data options s (a ++ b)
  = events_of_bytes data options s a
    ++ events_of_bytes data options (after_bytes s a) b.
Proof.
  unfold events_of_bytes, after_bytes, decoded, complete_lines, pending.
  cbn [now timer decoder buffer accumulatedText tokenCount].
  rewrite (decode_app (decoder s) a b). cbn [fst snd].
  set (da := snd (TextDecoder.decode (decoder s) a)).
  set (db := snd (TextDecoder.decode
                    (fst (TextDecoder.decode (decoder s) a)) b)).
  rewrite (app_assoc (buffer s) da db).
  rewrite (removelast_split_app nl (buffer s ++ da) db).
  rewrite lines_events_app. reflexivity.
Qed.

Lemma after_bytes_nil (s : State) :
  ~ In nl (buffer s) -> after_bytes s [] = s.
Proof.
  intros Hb. unfold after_bytes, decoded, complete_lines, pending.
  cbn [TextDecoder.decode fst snd]. rewrite app_nil_r, split_no_sep by exact Hb.
  now destruct s.
Qed.

Lemma events_of_bytes_nil (s : State) :
  ~ In nl (buffer s) -> events_of_bytes data options s [] = [].
Proof.
  intros Hb. unfold events_of_bytes, decoded, complete_lines.
  cbn [TextDecoder.decode fst snd]. now rewrite app_nil_r, split_no_sep.
Qed.

Lemma after_bytes_advance (d : N) (s : State) (b : list byte) :
  after_bytes (advance d s) b = advance d (after_bytes s b).
Proof. reflexivity. Qed.

Lemma advance_advance (d1 d2 : N) (s : State) :
  advance d2 (advance d1 s) = advance (d1 + d2) s.
Proof. unfold advance. cbn. now rewrite N.add_assoc. Qed.

Lemma advance_0 (s : State) : advance 0 s = s.
Proof. unfold advance. rewrite N.add_0_r. now destruct s. Qed.

Lemma await_run {A} (d : N) (r : Thrown + A) (s : State) :
  timer s = None ->
  await d r s = {| final := advance d s; trace := []; result := r |}.
Proof. intros Ht. unfold await. now rewrite Ht. Qed.

(** One turn of the [while] loop on a delivered chunk. *)
Lemma read_turn (d : N) (value : list byte) (rest : list (N * list byte))
  (d_end : N) (e : ReadEnd) (s : State) :
  timer s = None ->
  read_loop data options ((d, value) :: rest) d_end e s
  = prepend (events_of_bytes data options s value)
      (read_loop data options rest d_end e (advance d (after_bytes s value))).
Proof.
  intros Ht. cbn [read_loop].
  erewrite bind_run by (apply await_run; exact Ht). rewrite prepend_nil.
  unfold decode, set_decoder, set_buffer.
  repeat run_step.
  cbn [decoder advance].
  unfold events_of_bytes, after_bytes, decoded, complete_lines, pending.
  destruct (TextDecoder.decode (decoder s) value) as [dec txt].
  cbn [fst snd]. repeat run_step.
  cbn [buffer]. unfold pop. repeat run_step.
  erewrite bind_run by apply for_each_run.
  cbn [now timer decoder buffer accumulatedText tokenCount with_locals].
  reflexivity.
Qed.

(** The whole loop, once the timer is cleared: the effect of the bytes taken
    together, the delays added up, and the way the byte source ended. *)
Lemma read_loop_run (cs : list (N * list byte)) (d_end : N) (e : ReadEnd)
  (s : State) :
  timer s = None -> ~ In nl (buffer s) ->
  read_loop data options cs d_end e s
  = {| final := advance (total_delay cs + d_end) (after_bytes s (all_bytes cs));
       trace := events_of_bytes data options s (all_bytes cs);
       result := match e with
                 | ReadDone => inr tt
                 | ReadFail t => inl t
                 end |}.
Proof.
  revert s. induction cs as [|[d value] rest IH]; intros s Ht Hb.
  - cbn [read_loop total_delay all_bytes List.map List.concat fold_right].
    rewrite after_bytes_nil, events_of_bytes_nil by exact Hb.
    rewrite N.add_0_l.
    destruct e; apply await_run; exact Ht.
  - rewrite read_turn by exact Ht.
    rewrite IH.
    + unfold prepend.
      cbn [final trace result total_delay all_bytes List.map List.concat
           fold_right fst snd].
      rewrite after_bytes_advance, advance_advance, after_bytes_app.
      rewrite events_of_bytes_app, N.add_assoc. reflexivity.
    + exact Ht.
    + cbn [advance after_bytes buffer]. unfold pending.
      apply last_split_no_sep.
Qed.

End Loop.
End LoopFacts.

(* ================================================================== *)
(** * One invocation of [inferenceStream], case by case *)
(* ================================================================== *)

Module InvokeFacts.
Import Js Client Stream JsFacts MonadFacts LoopFacts.

Section Invoke.
Context {P : Platform}.
Variable this : OpenLLMClient.
Variable data : InferenceRequest.
Variable options : StreamOptions.

Lemma invoke_unfold (w : World) :
  invoke this data options w
  = try_catch (try_block data options w) (on_catch this options) (armed this).
Proof.
  unfold invoke, inferenceStream, setTimeout. repeat run_step.
  unfold initial, armed. cbn [now timer decoder buffer accumulatedText
                              tokenCount]. now rewrite N.add_0_l.
Qed.

Lemma on_catch_run (t : Thrown) (s : State) :
  on_catch this options t s
  = {| final := at_time (now s) s;
       trace := catch_events options this t;
       result := catch_result this t |}.
Proof.
  unfold on_catch, clearTimeout, catch_events, catch_result, reported,
    call_onError.
  repeat run_step.
  destruct t as [err|]; [|reflexivity].
  destruct (JsString_eqb (name err) (lit "AbortError"));
    destruct (has_onError options); repeat run_step; reflexivity.
Qed.

(** The errors that [createError] builds are never taken for an abort. *)
Lemma createError_not_abort (st : N) (msg : JsString) :
  JsString_eqb (name (createError st msg)) (lit "AbortError") = false.
Proof.
  unfold createError.
  destruct ((st =? 404)%N && matches_model msg); [reflexivity|].
  destruct ((st =? 412)%N && matches_model msg); reflexivity.
Qed.

(** The [try] block when the deadline passes while [fetch] is pending. *)
Lemma try_block_abort (w : World) :
  (timeout this <= fetch_delay w)%N ->
  try_block data options w (armed this)
  = {| final := at_time (timeout this) (armed this); trace := [];
       result := inl (ThrowError AbortError) |}.
Proof.
  intros Hd. unfold try_block. apply bind_run_throws.
  unfold await. cbn [timer now armed]. rewrite N.add_0_l.
  apply N.leb_le in Hd. now rewrite Hd.
Qed.

(** The [try] block when [fetch] settles before the deadline: the timer is
    cleared at once. *)
Lemma await_fetch (w : World) :
  (fetch_delay w < timeout this)%N ->
  await (fetch_delay w) (fetch_result w) (armed this)
  = {| final := advance (fetch_delay w) (armed this); trace := [];
       result := fetch_result w |}.
Proof.
  intros Hd. unfold await. cbn [timer now armed]. rewrite N.add_0_l.
  apply N.leb_gt in Hd. now rewrite Hd.
Qed.

Lemma try_block_rejects (w : World) (t : Thrown) :
  (fetch_delay w < timeout this)%N ->
  fetch_result w = inl t ->
  try_block data options w (armed this)
  = {| final := advance (fetch_delay w) (armed this); trace := [];
       result := inl t |}.
Proof.
  intros Hd Hf. unfold try_block. apply bind_run_throws.
  rewrite await_fetch by exact Hd. now rewrite Hf.
Qed.

Lemma try_block_response (w : World) (r : Response) :
  (fetch_delay w < timeout this)%N ->
  fetch_result w = inr r ->
  try_block data options w (armed this)
  = ((if negb (ok r) then
        errorText <- await (text_delay r) (text_result r) ;;
        let error := createError (status r) errorText in
        call_onError options error ;;
        throw (ThrowError error)
      else ret tt) ;;
     match body r with
     | None =>
         let error := new_Error (lit "No response body") in
         call_onError options error ;;
         throw (ThrowError error)
     | Some reader =>
         set_decoder TextDecoder.init ;;
         set_buffer [] ;;
         set_accumulatedText [] ;;
         set_tokenCount 0 ;;
         read_loop data options (chunks reader) (end_delay reader)
           (ending reader)
     end) (connected w).
Proof.
  intros Hd Hf. unfold try_block.
  erewrite bind_run by (rewrite await_fetch by exact Hd; rewrite Hf;
                        reflexivity).
  rewrite prepend_nil. unfold clearTimeout. repeat run_step.
  unfold connected, advance, armed.
  cbn [now timer decoder buffer accumulatedText tokenCount].
  now rewrite N.add_0_l.
Qed.

(** The deadline passes while [fetch] is pending. *)
Lemma invoke_abort (w : World) :
  (timeout this <= fetch_delay w)%N ->
  invoke this data options w
  = {| final := at_time (timeout this) (armed this);
       trace := if has_onError options then [OnError (timeoutError this)]
                else [];
       result := inl (ThrowError (timeoutError this)) |}.
Proof.
  intros Hd. rewrite invoke_unfold.
  erewrite try_catch_run_throws by (apply try_block_abort; exact Hd).
  rewrite prepend_nil, on_catch_run. reflexivity.
Qed.

(** [fetch] rejects before the deadline. *)
Lemma invoke_fetch_rejects (w : World) (t : Thrown) :
  (fetch_delay w < timeout this)%N ->
  fetch_result w = inl t ->
  trace (invoke this data options w) = catch_events options this t
  /\ result (invoke this data options w) = catch_result this t.
Proof.
  intros Hd Hf. rewrite invoke_unfold.
  erewrite try_catch_run_throws by (apply try_block_rejects; eassumption).
  rewrite prepend_nil, on_catch_run. auto.
Qed.

(** A response outside 2xx whose text is read: the error built from the
    text goes to the callback in the [try] block and, being thrown there,
    once more in the [catch] clause. *)
Lemma invoke_not_ok (w : World) (r : Response) (msg : JsString) :
  (fetch_delay w < timeout this)%N ->
  fetch_result w = inr r ->
  ok r = false ->
  text_result r = inr msg ->
  trace (invoke this data options w)
  = (if has_onError options
     then [OnError (createError (status r) msg);
           OnError (createError (status r) msg)]
     else [])
  /\ result (invoke this data options w)
     = inl (ThrowError (createError (status r) msg)).
Proof.
  intros Hd Hf Hok Ht. rewrite invoke_unfold.
  assert (E : try_block data options w (armed this)
              = {| final := advance (text_delay r) (connected w);
                   trace := if has_onError options
                            then [OnError (createError (status r) msg)]
                            else [];
                   result := inl (ThrowError (createError (status r) msg)) |}).
  { rewrite (try_block_response w Hd Hf). rewrite Hok. cbn [negb].
    apply bind_run_throws.
    erewrite bind_run
      by (rewrite await_run by reflexivity; rewrite Ht; reflexivity).
    rewrite prepend_nil. cbv zeta. unfold call_onError.
    destruct (has_onError options); repeat run_step; reflexivity. }
  erewrite try_catch_run_throws by exact E.
  rewrite on_catch_run. unfold catch_events, catch_result, reported, prepend.
  rewrite createError_not_abort. cbn [final trace result].
  destruct (has_onError options); auto.
Qed.

(** A response outside 2xx whose text cannot be read. *)
Lemma invoke_not_ok_text_fails (w : World) (r : Response) (t : Thrown) :
  (fetch_delay w < timeout this)%N ->
  fetch_result w = inr r ->
  ok r = false ->
  text_result r = inl t ->
  trace (invoke this data options w) = catch_events options this t
  /\ result (invoke this data options w) = catch_result this t.
Proof.
  intros Hd Hf Hok Ht. rewrite invoke_unfold.
  assert (E : try_block data options w (armed this)
              = {| final := advance (text_delay r) (connected w);
                   trace := []; result := inl t |}).
  { rewrite (try_block_response w Hd Hf). rewrite Hok. cbn [negb].
    apply bind_run_throws. apply bind_run_throws.
    rewrite await_run by reflexivity. now rewrite Ht. }
  erewrite try_catch_run_throws by exact E.
  rewrite prepend_nil, on_catch_run. auto.
Qed.

(** A 2xx response without body: the same double report. *)
Lemma invoke_no_body (w : World) (r : Response) :
  (fetch_delay w < timeout this)%N ->
  fetch_result w = inr r ->
  ok r = true ->
  body r = None ->
  trace (invoke this data options w)
  = (if has_onError options
     then [OnError (new_Error (lit "No response body"));
           OnError (new_Error (lit "No response body"))]
     else [])
  /\ result (invoke this data options w)
     = inl (ThrowError (new_Error (lit "No response body"))).
Proof.
  intros Hd Hf Hok Hb. rewrite invoke_unfold.
  assert (E : try_block data options w (armed this)
              = {| final := connected w;
                   trace := if has_onError options
                            then [OnError (new_Error (lit "No response body"))]
                            else [];
                   result := inl (ThrowError
                                    (new_Error (lit "No response body"))) |}).
  { rewrite (try_block_response w Hd Hf). rewrite Hok, Hb. cbn [negb].
    run_step. cbv zeta. unfold call_onError.
    destruct (has_onError options); repeat run_step; reflexivity. }
  erewrite try_catch_run_throws by exact E.
  rewrite on_catch_run. unfold catch_events, catch_result, reported, prepend.
  replace (JsString_eqb (name (new_Error (lit "No response body")))
             (lit "AbortError")) with false by reflexivity.
  cbn [final trace result].
  destruct (has_onError options); auto.
Qed.

Lemma established_inv (w : World) (b : Body) :
  established this w = Some b ->
  (fetch_delay w < timeout this)%N
  /\ exists r, fetch_result w = inr r /\ ok r = true /\ body r = Some b.
Proof.
  unfold established.
  destruct (timeout this <=? fetch_delay w)%N eqn:Hd; [discriminate|].
  destruct (fetch_result w) as [|r]; [discriminate|].
  destruct (ok r) eqn:Hok; [|discriminate].
  intros Hb. apply N.leb_gt in Hd. eauto.
Qed.

(** The [try] block of a 2xx response with a body: the loop runs over the
    whole byte source. *)
Lemma try_block_established (w : World) (b : Body) :
  established this w = Some b ->
  try_block data options w (armed this)
  = {| final := advance (total_delay (chunks b) + end_delay b)
                  (after_bytes (connected w) (all_bytes (chunks b)));
       trace := lines_events data options [] 0 (received this w);
       result := match ending b with
                 | ReadDone => inr tt
                 | ReadFail t => inl t
                 end |}.
Proof.
  intros He. unfold received. rewrite He.
  destruct (established_inv w He) as [Hd [r [Hf [Hok Hb]]]].
  rewrite (try_block_response w Hd Hf). rewrite Hok, Hb. cbn [negb].
  run_step.
  unfold set_decoder, set_buffer, set_accumulatedText, set_tokenCount.
  repeat run_step.
  cbn [now timer decoder buffer accumulatedText tokenCount connected].
  rewrite read_loop_run by (cbn; auto). reflexivity.
Qed.

(** A 2xx response with a body, seen from the caller. *)
Lemma invoke_established (w : World) (b : Body) :
  established this w = Some b ->
  trace (invoke this data options w)
  = lines_events data options [] 0 (received this w)
    ++ match ending b with
       | ReadDone => []
       | ReadFail t => catch_events options this t
       end
  /\ result (invoke this data options w)
     = match ending b with
       | ReadDone => inr tt
       | ReadFail t => catch_result this t
       end
  /\ accumulatedText (final (invoke this data options w))
     = fst (lines_locals [] 0 (received this w))
  /\ tokenCount (final (invoke this data options w))
     = snd (lines_locals [] 0 (received this w)).
Proof.
  intros He. rewrite invoke_unfold.
  pose proof (try_block_established w He) as E.
  assert (Hacc : forall d, 
            accumulatedText
              (advance d (after_bytes (connected w) (all_bytes (chunks b))))
            = fst (lines_locals [] 0 (received this w))
            /\ tokenCount
                 (advance d (after_bytes (connected w) (all_bytes (chunks b))))
               = snd (lines_locals [] 0 (received this w))).
  { intros d. unfold received. rewrite He. split; reflexivity. }
  destruct (ending b) as [|t].
  - erewrite try_catch_run by exact E.
    cbn [final trace result]. rewrite app_nil_r.
    destruct (Hacc (total_delay (chunks b) + end_delay b)%N). auto.
  - erewrite try_catch_run_throws by exact E.
    rewrite on_catch_run. unfold prepend. cbn [final trace result].
    destruct (Hacc (total_delay (chunks b) + end_delay b)%N). auto.
Qed.

(** No stream is established: the caller sees errors only. *)
Lemma invoke_refused (w : World) :
  established this w = None ->
  trace (invoke this data options w) = refused_events options this w
  /\ result (invoke this data options w) = refused_result this w.
Proof.
  unfold established, refused_events, refused_result.
  destruct (timeout this <=? fetch_delay w)%N eqn:Hd.
  - intros _. apply N.leb_le in Hd. rewrite (invoke_abort w Hd).
    split; reflexivity.
  - apply N.leb_gt in Hd.
    destruct (fetch_result w) as [t|r] eqn:Hf.
    + intros _. exact (invoke_fetch_rejects w Hd Hf).
    + destruct (ok r) eqn:Hok.
      * intros Hb. exact (invoke_no_body w Hd Hf Hok Hb).
      * intros _. destruct (text_result r) as [t|msg] eqn:Ht.
        -- exact (invoke_not_ok_text_fails w Hd Hf Hok Ht).
        -- exact (invoke_not_ok w Hd Hf Hok Ht).
Qed.

(** Every invocation, from the caller's side. *)
Lemma invoke_observed (w : World) :
  trace (invoke this data options w)
  = match established this w with
    | Some b => lines_events data options [] 0 (received this w)
                ++ end_events options this (ending b)
    | None => refused_events options this w
    end
  /\ result (invoke this data options w)
     = match established this w with
       | Some b => end_result this (ending b)
       | None => refused_result this w
       end.
Proof.
  destruct (established this w) as [b|] eqn:He.
  - destruct (invoke_established w He) as [Ht [Hr _]]. auto.
  - now apply invoke_refused.
Qed.

Lemma catch_events_errors (t : Thrown) :
  filter is_token_or_complete (catch_events options this t) = []
  /\ filter is_OnError (catch_events options this t)
     = catch_events options this t.
Proof.
  unfold catch_events. destruct (reported this t); [|auto].
  destruct (has_onError options); auto.
Qed.

Lemma refused_events_errors (w : World) :
  filter is_token_or_complete (refused_events options this w) = []
  /\ filter is_OnError (refused_events options this w)
     = refused_events options this w.
Proof.
  unfold refused_events.
  destruct (timeout this <=? fetch_delay w)%N; [apply catch_events_errors|].
  destruct (fetch_result w) as [t|r]; [apply catch_events_errors|].
  destruct (ok r).
  - destruct (has_onError options); auto.
  - destruct (text_result r); [apply catch_events_errors|].
    destruct (has_onError options); auto.
Qed.

Lemma end_events_errors (e : ReadEnd) :
  filter is_token_or_complete (end_events options this e) = []
  /\ filter is_OnError (end_events options this e)
     = end_events options this e.
Proof. destruct e; [auto|apply catch_events_errors]. Qed.

Lemma line_events_callbacks (acc : JsString) (n : nat) (line : JsString) :
  filter is_token_or_complete (line_events data options acc n line)
  = match classify line with
    | Token v f c => token_callbacks data options acc n [(v, f, c)]
    | _ => []
    end
  /\ filter is_OnError (line_events data options acc n line) = [].
Proof.
  unfold line_events. destruct (classify line) as [|p|v f c]; auto.
  cbn [token_callbacks]. rewrite app_nil_r.
  destruct (c && has_onComplete options); auto.
Qed.

Lemma token_callbacks_app (acc : JsString) (n : nat)
  (t1 t2 : list (JsValue * JsString * bool)) :
  token_callbacks data options acc n (t1 ++ t2)
  = token_callbacks data options acc n t1
    ++ token_callbacks data options (acc ++ fragments t1)
         (n + List.length t1) t2.
Proof.
  revert acc n. induction t1 as [|[[v f] c] t1 IH]; intros acc n.
  - cbn. now rewrite app_nil_r, Nat.add_0_r.
  - cbn [app token_callbacks]. rewrite IH.
    unfold fragments. cbn [List.map List.concat fragment fst snd List.length].
    rewrite <- !app_assoc, <- Nat.add_assoc. reflexivity.
Qed.

(** The callbacks of a sequence of lines are those of its tokens; no line
    raises the error callback. *)
Lemma lines_events_callbacks (acc : JsString) (n : nat)
  (lines : list JsString) :
  filter is_token_or_complete (lines_events data options acc n lines)
  = token_callbacks data options acc n (tokens lines)
  /\ filter is_OnError (lines_events data options acc n lines) = [].
Proof.
  revert acc n. induction lines as [|l lines IH]; intros acc n; [auto|].
  cbn [lines_events tokens]. rewrite !filter_app.
  destruct (line_events_callbacks acc n l) as [H1 H2]. rewrite H1, H2.
  unfold line_locals.
  destruct (classify l) as [|p|v f c]; cbn [fst snd app]; try apply IH.
  destruct (IH (acc ++ f) (n + 1)) as [IH1 IH2]. rewrite IH1, IH2.
  cbn [token_callbacks]. now rewrite app_nil_r.
Qed.

(** The accumulators after a sequence of lines: the text of its tokens and
    their number. *)
Lemma lines_locals_tokens (acc : JsString) (n : nat) (lines : list JsString) :
  lines_locals acc n lines
  = (acc ++ fragments (tokens lines), n + List.length (tokens lines)).
Proof.
  revert acc n. induction lines as [|l lines IH]; intros acc n.
  - cbn. now rewrite app_nil_r, Nat.add_0_r.
  - cbn [lines_locals tokens]. rewrite IH. unfold line_locals.
    destruct (classify l) as [|p|v f c]; cbn [fst snd]; try reflexivity.
    unfold fragments. cbn [List.map List.concat fragment fst snd List.length].
    now rewrite <- app_assoc, <- Nat.add_assoc.
Qed.

(** The per-token and completion callbacks of an invocation are those of the
    tokens of the lines received. *)
Lemma invoke_callbacks (w : World) :
  filter is_token_or_complete (trace (invoke this data options w))
  = token_callbacks data options [] 0 (tokens (received this w)).
Proof.
  destruct (invoke_observed w) as [Ht _]. rewrite Ht.
  unfold received.
  destruct (established this w) as [b|].
  - rewrite filter_app.
    destruct (lines_events_callbacks [] 0
                (complete_lines (decoded TextDecoder.init
                                   (all_bytes (chunks b))))) as [H1 _].
    rewrite H1. destruct (end_events_errors (ending b)) as [H2 _].
    now rewrite H2, app_nil_r.
  - destruct (refused_events_errors w) as [H _]. exact H.
Qed.

(** The error callbacks of an invocation come from the way it ends. *)
Lemma invoke_errors (w : World) :
  filter is_OnError (trace (invoke this data options w))
  = match established this w with
    | Some b => end_events options this (ending b)
    | None => refused_events options this w
    end.
Proof.
  destruct (invoke_observed w) as [Ht _]. rewrite Ht.
  destruct (established this w) as [b|].
  - rewrite filter_app.
    destruct (lines_events_callbacks [] 0 (received this w)) as [_ H1].
    rewrite H1. destruct (end_events_errors (ending b)) as [_ H2].
    now rewrite H2.
  - destruct (refused_events_errors w) as [_ H]. exact H.
Qed.

End Invoke.
End InvokeFacts.

(* ================================================================== *)
(** * Properties of the streaming client *)
(* ================================================================== *)

Module StreamProperties.
Import Js Client Stream JsFacts MonadFacts LoopFacts InvokeFacts.

Section Properties.
Context {P : Platform}.
Variable this : OpenLLMClient.
Variable data : InferenceRequest.
Variable options : StreamOptions.

Lemma established_with_chunks (w : World) (cs : list (N * list byte)) :
  established this (with_chunks w cs)
  = match established this w with
    | Some b => Some {| chunks := cs; end_delay := end_delay b;
                        ending := ending b |}
    | None => None
    end.
Proof.
  unfold established, with_chunks. cbn [fetch_delay fetch_result].
  destruct (timeout this <=? fetch_delay w)%N; [reflexivity|].
  destruct (fetch_result w) as [t|r]; [reflexivity|].
  unfold ok. cbn [status body]. 
  destruct ((200 <=? status r)%N && (status r <=? 299)%N); [|reflexivity].
  destruct (body r); reflexivity.
Qed.

Lemma refused_with_chunks (w : World) (cs : list (N * list byte)) :
  established this w = None ->
  refused_events options this (with_chunks w cs)
  = refused_events options this w
  /\ refused_result this (with_chunks w cs) = refused_result this w.
Proof.
  unfold established, refused_events, refused_result, with_chunks.
  cbn [fetch_delay fetch_result].
  destruct (timeout this <=? fetch_delay w)%N; [auto|].
  destruct (fetch_result w) as [t|r]; [auto|].
  unfold ok. cbn [status body text_result].
  destruct ((200 <=? status r)%N && (status r <=? 299)%N); [|auto].
  destruct (body r); [discriminate|auto].
Qed.

Lemma received_with_chunks (w : World) (cs : list (N * list byte)) :
  received this (with_chunks w cs)
  = match established this w with
    | Some _ => complete_lines (decoded TextDecoder.init (all_bytes cs))
    | None => []
    end.
Proof.
  unfold received. rewrite established_with_chunks.
  destruct (established this w); reflexivity.
Qed.

(** C4 (split invariance). However the bytes of the response body are cut
    into chunks, the invocation decodes the same lines and tokens, calls the
    same callbacks in the same order and ends the same way as when the same
    bytes arrive as one chunk. *)
Theorem split_invariance (w : World) (cs : list (N * list byte)) (d : N) :
  let chunked := with_chunks w cs in
  let whole := with_chunks w [(d, all_bytes cs)] in
  received this chunked = received this whole
  /\ tokens (received this chunked) = tokens (received this whole)
  /\ trace (invoke this data options chunked)
     = trace (invoke this data options whole)
  /\ result (invoke this data options chunked)
     = result (invoke this data options whole).
Proof.
  cbv zeta.
  assert (Hr : received this (with_chunks w cs)
               = received this (with_chunks w [(d, all_bytes cs)])).
  { rewrite !received_with_chunks. unfold all_bytes at 2.
    cbn [List.map List.concat snd]. now rewrite app_nil_r. }
  split; [exact Hr|]. split; [now rewrite Hr|].
  destruct (invoke_observed this data options (with_chunks w cs)) as [T1 R1].
  destruct (invoke_observed this data options
              (with_chunks w [(d, all_bytes cs)])) as [T2 R2].
  rewrite T1, T2, R1, R2, Hr, !established_with_chunks.
  destruct (established this w) as [b|] eqn:He; cbn [ending]; [auto|].
  destruct (refused_with_chunks w cs He) as [E1 E2].
  destruct (refused_with_chunks w [(d, all_bytes cs)] He) as [E3 E4].
  now rewrite E1, E2, E3, E4.
Qed.

Lemma filter_narrow {A} (p q : A -> bool) (l : list A) :
  (forall x, p x = true -> q x = true) ->
  filter p (filter q l) = filter p l.
Proof.
  intros H. induction l as [|x l IH]; [reflexivity|].
  cbn [filter]. destruct (q x) eqn:Q.
  - cbn [filter]. now rewrite IH.
  - destruct (p x) eqn:Px; [apply H in Px; congruence|exact IH].
Qed.

Lemma OnToken_narrow (e : Event) :
  is_OnToken e = true -> is_token_or_complete e = true.
Proof. now destruct e. Qed.

Lemma OnComplete_narrow (e : Event) :
  is_OnComplete e = true -> is_token_or_complete e = true.
Proof. now destruct e. Qed.

(** The per-token calls of a sequence of tokens: one per token, the [k]-th
    one made when the accumulators already count [k + 1] tokens and hold the
    text up to and including its own fragment. *)
Lemma token_calls_length (acc : JsString) (n : nat)
  (toks : list (JsValue * JsString * bool)) :
  List.length (filter is_OnToken (token_callbacks data options acc n toks))
  = List.length toks.
Proof.
  revert acc n. induction toks as [|[[v f] c] toks IH]; intros acc n;
    [reflexivity|].
  cbn [token_callbacks filter is_OnToken List.length].
  rewrite filter_app, length_app, IH.
  destruct (c && has_onComplete options); reflexivity.
Qed.

Lemma token_calls_nth (acc : JsString) (n : nat)
  (toks : list (JsValue * JsString * bool)) (k : nat)
  (tok : JsValue) (a : JsString) (m : nat) :
  nth_error (filter is_OnToken (token_callbacks data options acc n toks)) k
  = Some (OnToken tok a m) ->
  m = n + S k /\ a = acc ++ fragments (firstn (S k) toks).
Proof.
  revert acc n k. induction toks as [|[[v f] c] toks IH]; intros acc n k.
  - destruct k; discriminate.
  - cbn [token_callbacks filter is_OnToken]. rewrite filter_app.
    replace (filter is_OnToken
               (if c && has_onComplete options
                then [OnComplete (completion data (acc ++ f) (n + 1))]
                else [])) with (@nil Event)
      by (destruct (c && has_onComplete options); reflexivity).
    cbn [app]. destruct k as [|k]; cbn [nth_error].
    + intros E. injection E as <- <- <-. split; [lia|].
      unfold fragments. cbn. now rewrite app_nil_r.
    + intros E. apply IH in E. destruct E as [-> ->]. split; [lia|].
      unfold fragments.
      cbn [firstn List.map List.concat fragment fst snd].
      now rewrite app_assoc.
Qed.

(** Every token gets its call: the [k]-th per-token call is made with the
    [k]-th token. *)
Lemma token_calls_at (acc : JsString) (n : nat)
  (toks : list (JsValue * JsString * bool)) (k : nat)
  (tk : JsValue * JsString * bool) :
  nth_error toks k = Some tk ->
  nth_error (filter is_OnToken (token_callbacks data options acc n toks)) k
  = Some (OnToken (fst (fst tk)) (acc ++ fragments (firstn (S k) toks))
            (n + S k)).
Proof.
  revert acc n k. induction toks as [|[[v f] c] toks IH]; intros acc n k.
  - destruct k; discriminate.
  - cbn [token_callbacks filter is_OnToken]. rewrite filter_app.
    replace (filter is_OnToken
               (if c && has_onComplete options
                then [OnComplete (completion data (acc ++ f) (n + 1))]
                else [])) with (@nil Event)
      by (destruct (c && has_onComplete options); reflexivity).
    cbn [app]. destruct k as [|k]; cbn [nth_error].
    + intros E. injection E as <-. cbn [fst]. unfold fragments. cbn.
      rewrite app_nil_r. reflexivity.
    + intros E. rewrite (IH _ _ _ E). unfold fragments.
      cbn [firstn List.map List.concat fragment fst snd].
      rewrite app_assoc. do 2 f_equal. lia.
Qed.

(** The completion calls of a sequence of tokens none of which is flagged,
    and of such a sequence followed by a flagged token. *)
Lemma no_completion_calls (acc : JsString) (n : nat)
  (toks : list (JsValue * JsString * bool)) :
  Forall (fun t => flagged t = false) toks ->
  filter is_OnComplete (token_callbacks data options acc n toks) = [].
Proof.
  intros H. revert acc n. induction H as [|[[v f] c] toks Hc _ IH];
    intros acc n; [reflexivity|].
  cbn [flagged snd] in Hc. subst c.
  cbn [token_callbacks filter is_OnComplete andb app]. apply IH.
Qed.

Lemma one_completion_call (acc : JsString) (n : nat)
  (toks : list (JsValue * JsString * bool)) (v : JsValue) (f : JsString) :
  has_onComplete options = true ->
  Forall (fun t => flagged t = false) toks ->
  filter is_OnComplete
    (token_callbacks data options acc n (toks ++ [(v, f, true)]))
  = [OnComplete (completion data (acc ++ fragments (toks ++ [(v, f, true)]))
                   (n + List.length (toks ++ [(v, f, true)])))].
Proof.
  intros Hc H. rewrite token_callbacks_app, filter_app.
  rewrite no_completion_calls by exact H.
  cbn [token_callbacks app andb]. rewrite Hc.
  cbn [filter is_OnComplete app].
  unfold fragments. rewrite map_app, concat_app, length_app.
  cbn [List.map List.concat fragment fst snd List.length].
  now rewrite app_nil_r, <- app_assoc, Nat.add_assoc.
Qed.

(** C5 (the aggregate of a stream that terminates normally). When the last
    token of the stream is the one flagged complete, the completion callback
    is called once; the result it receives counts as many tokens as there
    were per-token calls and its text is the concatenation of all fragments
    in order. There is one per-token call for every token of the stream, the
    flagged one included, made with that token after both accumulators were
    updated: the call number [k + 1] is made with the token number [k + 1],
    with the count at [k + 1] and the text holding the first [k + 1]
    fragments. *)
Theorem completion_aggregates (w : World)
  (toks : list (JsValue * JsString * bool)) (v : JsValue) (f : JsString) :
  has_onComplete options = true ->
  tokens (received this w) = toks ++ [(v, f, true)] ->
  Forall (fun t => flagged t = false) toks ->
  exists resp,
    filter is_OnComplete (trace (invoke this data options w))
    = [OnComplete resp]
    /\ tokens_generated resp
       = count_events is_OnToken (trace (invoke this data options w))
    /\ text resp = fragments (toks ++ [(v, f, true)])
    /\ (forall k tok acc n,
         nth_error (filter is_OnToken (trace (invoke this data options w))) k
         = Some (OnToken tok acc n) ->
         n = S k /\ acc = fragments (firstn (S k) (toks ++ [(v, f, true)])))
    /\ count_events is_OnToken (trace (invoke this data options w))
       = List.length (toks ++ [(v, f, true)])
    /\ tokens_generated resp = S (List.length toks)
    /\ (forall k tk,
         nth_error (toks ++ [(v, f, true)]) k = Some tk ->
         nth_error (filter is_OnToken (trace (invoke this data options w))) k
         = Some (OnToken (fst (fst tk))
                   (fragments (firstn (S k) (toks ++ [(v, f, true)])))
                   (S k))).
Proof.
  intros Hc Ht Hf.
  pose proof (invoke_callbacks this data options w) as Hcb. rewrite Ht in Hcb.
  assert (HT : filter is_OnToken (trace (invoke this data options w))
               = filter is_OnToken
                   (token_callbacks data options [] 0
                      (toks ++ [(v, f, true)]))).
  { rewrite <- Hcb. symmetry. apply filter_narrow, OnToken_narrow. }
  assert (HC : filter is_OnComplete (trace (invoke this data options w))
               = filter is_OnComplete
                   (token_callbacks data options [] 0
                      (toks ++ [(v, f, true)]))).
  { rewrite <- Hcb. symmetry. apply filter_narrow, OnComplete_narrow. }
  eexists. split; [|split; [|split; [|split; [|split; [|split]]]]].
  - rewrite HC. apply one_completion_call; assumption.
  - unfold count_events. rewrite HT, token_calls_length. reflexivity.
  - reflexivity.
  - intros k tok acc n E. rewrite HT in E.
    apply token_calls_nth in E. exact E.
  - unfold count_events. rewrite HT. apply token_calls_length.
  - cbn [tokens_generated completion]. rewrite length_app. cbn. lia.
  - intros k tk E. rewrite HT. exact (token_calls_at [] 0 _ _ E).
Qed.

Lemma classify_malformed (line payload : JsString) :
  data_record line = Some payload ->
  as_token payload = None ->
  classify line = Malformed payload.
Proof. intros Hd Ha. unfold classify. now rewrite Hd, Ha. Qed.

Lemma tokens_app (l1 l2 : list JsString) :
  tokens (l1 ++ l2) = tokens l1 ++ tokens l2.
Proof.
  induction l1 as [|l l1 IH]; [reflexivity|].
  cbn [app tokens]. destruct (classify l) as [|p|v f c]; try exact IH.
  cbn [app]. now rewrite IH.
Qed.

Lemma classify_token (line payload : JsString) (v : JsValue)
  (f : JsString) (c : bool) :
  data_record line = Some payload ->
  as_token payload = Some (v, f, c) ->
  classify line = Token v f c.
Proof. intros Hd Ha. unfold classify. now rewrite Hd, Ha. Qed.

Lemma lookup_prop_missing (key : JsString)
  (props : list (JsString * JsValue)) :
  has_prop key props = false -> lookup_prop key props = JUndefined.
Proof.
  induction props as [|[k x] props IH]; [reflexivity|].
  cbn [has_prop lookup_prop]. destruct (JsString_eqb k key); [discriminate|].
  exact IH.
Qed.

(** The payloads on which the [try] block throws: those that [JSON.parse]
    rejects, those that parse to [null], on which reading a property throws,
    and the objects whose [token] field cannot be converted to text. *)
Lemma as_token_throws (payload : JsString) :
  as_token payload = None <->
  JSON_parse payload = None
  \/ JSON_parse payload = Some JNull
  \/ JSON_parse payload = Some JUndefined
  \/ exists props,
       JSON_parse payload = Some (JObj props)
       /\ toString (lookup_prop (lit "token") props) = None.
Proof.
  unfold as_token.
  destruct (JSON_parse payload) as [[| |b|n|s|elems|props]|];
    cbn [get_prop];
    try change (toString JUndefined) with (Some (lit "undefined")).
  1-2: split; auto.
  1-4: split; [discriminate|];
       intros [H|[H|[H|(props & H & _)]]]; discriminate H.
  - destruct (toString (lookup_prop (lit "token") props)) as [t|] eqn:E.
    + split; [discriminate|].
      intros [H|[H|[H|(props' & H & H')]]]; try discriminate H.
      injection H as <-. congruence.
    + split; [|reflexivity]. intros _. right. right. right. eauto.
  - split; auto.
Qed.

(** C7, as the code has it. A data record is skipped exactly when handling
    it throws inside the [try] block: when its payload is no JSON, parses to
    [null], or is an object whose [token] field cannot be converted to text.
    Such a record is written to the console where it stands and nothing else
    happens for it: the accumulators are left as they were, the lines after
    it are processed from those accumulators, so that the per-token and
    completion callbacks are those of the stream without the record, and the
    error callback and the outcome of the call depend only on how the byte
    source ends. No other check is made. A payload that parses to anything
    else is taken for a token, nothing is written to the console for it, its
    text is added, it is counted and the per-token callback is called with
    it; when it is no object or an object without [token] field, the text
    added is "undefined". *)
Theorem malformed_record_skipped (w : World) (pre post : list JsString)
  (bad payload : JsString) :
  received this w = pre ++ bad :: post ->
  data_record bad = Some payload ->
  (as_token payload = None <->
   JSON_parse payload = None
   \/ JSON_parse payload = Some JNull
   \/ JSON_parse payload = Some JUndefined
   \/ exists props,
        JSON_parse payload = Some (JObj props)
        /\ toString (lookup_prop (lit "token") props) = None)
  /\ (as_token payload = None ->
      lines_locals [] 0 (pre ++ [bad]) = lines_locals [] 0 pre
      /\ filter is_token_or_complete (trace (invoke this data options w))
         = token_callbacks data options [] 0 (tokens (pre ++ post))
      /\ exists b,
           established this w = Some b
           /\ trace (invoke this data options w)
              = lines_events data options [] 0 pre
                ++ ConsoleError payload
                   :: lines_events data options
                        (fst (lines_locals [] 0 pre))
                        (snd (lines_locals [] 0 pre)) post
                ++ end_events options this (ending b)
           /\ filter is_OnError (trace (invoke this data options w))
              = end_events options this (ending b)
           /\ result (invoke this data options w)
              = end_result this (ending b))
  /\ (forall v f c,
        as_token payload = Some (v, f, c) ->
        lines_locals [] 0 (pre ++ [bad])
        = (fst (lines_locals [] 0 pre) ++ f,
           snd (lines_locals [] 0 pre) + 1)
        /\ exists b,
             established this w = Some b
             /\ trace (invoke this data options w)
                = lines_events data options [] 0 pre
                  ++ OnToken v (fst (lines_locals [] 0 pre) ++ f)
                       (snd (lines_locals [] 0 pre) + 1)
                     :: (if c && has_onComplete options
                         then [OnComplete
                                 (completion data
                                    (fst (lines_locals [] 0 pre) ++ f)
                                    (snd (lines_locals [] 0 pre) + 1))]
                         else [])
                  ++ lines_events data options
                       (fst (lines_locals [] 0 pre) ++ f)
                       (snd (lines_locals [] 0 pre) + 1) post
                  ++ end_events options this (ending b))
  /\ (forall v,
        JSON_parse payload = Some v ->
        match v with
        | JBool _ | JNum _ | JStr _ | JArr _ =>
            as_token payload = Some (v, lit "undefined", false)
        | JObj props =>
            has_prop (lit "token") props = false ->
            as_token payload
            = Some (v, lit "undefined",
                    toBoolean (lookup_prop (lit "complete") props))
        | JNull | JUndefined => as_token payload = None
        end).
Proof.
  intros Hr Hd.
  assert (Hest : exists b, established this w = Some b).
  { destruct (established this w) as [b|] eqn:He; [eauto|].
    unfold received in Hr. rewrite He in Hr. destruct pre; discriminate. }
  destruct Hest as [b He].
  destruct (invoke_observed this data options w) as [Ht Hres].
  rewrite He in Ht, Hres.
  split; [apply as_token_throws|]. split; [|split].
  - intros Ha. pose proof (classify_malformed bad Hd Ha) as Hc.
    split; [|split].
    + rewrite lines_locals_app. cbn [lines_locals]. unfold line_locals.
      rewrite Hc. now destruct (lines_locals [] 0 pre).
    + rewrite invoke_callbacks, Hr, !tokens_app. cbn [tokens].
      now rewrite Hc.
    + exists b. split; [exact He|]. split; [|split].
      * rewrite Ht, Hr, lines_events_app. cbn [lines_events].
        unfold line_events at 1, line_locals. rewrite Hc. cbn [fst snd app].
        now rewrite <- app_assoc.
      * rewrite invoke_errors, He. reflexivity.
      * exact Hres.
  - intros v f c Ha. pose proof (classify_token bad Hd Ha) as Hc. split.
    + rewrite lines_locals_app. cbn [lines_locals]. unfold line_locals.
      rewrite Hc. reflexivity.
    + exists b. split; [exact He|].
      rewrite Ht, Hr, lines_events_app. cbn [lines_events].
      unfold line_events at 1, line_locals. rewrite Hc. cbn [fst snd app].
      rewrite <- app_assoc, <- app_comm_cons, <- app_assoc. reflexivity.
  - intros v Hp. unfold as_token. rewrite Hp.
    destruct v as [| |x|n|s|elems|props]; cbn [get_prop]; try reflexivity.
    intros Hh. rewrite (lookup_prop_missing _ _ Hh). reflexivity.
Qed.

Lemma fires_app (p : Event -> bool) (l1 l2 : list Event) :
  fires p (l1 ++ l2) = fires p l1 || fires p l2.
Proof. apply existsb_app. Qed.

Lemma fires_filter (p : Event -> bool) (l : list Event) :
  fires p l = fires p (filter p l).
Proof.
  induction l as [|x l IH]; [reflexivity|].
  cbn [fires existsb filter]. destruct (p x) eqn:Px.
  - cbn [existsb]. now rewrite Px.
  - exact IH.
Qed.

Lemma rejects_iff_reported (t : Thrown) :
  has_onError options = true ->
  (fires is_OnError (catch_events options this t) = true
   <-> exists e, catch_result this t = inl (ThrowError e)).
Proof.
  intros He. unfold catch_events, catch_result. rewrite He.
  destruct (reported this t) as [e|]; cbn.
  - split; eauto.
  - split; [discriminate|]. intros [e H]. discriminate.
Qed.

Lemma ends_in_error_iff (e : ReadEnd) :
  has_onError options = true ->
  (fires is_OnError (end_events options this e) = true
   <-> exists err, end_result this e = inl (ThrowError err)).
Proof.
  intros He. destruct e as [|t]; [|now apply rejects_iff_reported].
  cbn. split; [discriminate|]. intros [err H]. discriminate.
Qed.

Lemma refused_in_error_iff (w : World) :
  has_onError options = true ->
  (fires is_OnError (refused_events options this w) = true
   <-> exists err, refused_result this w = inl (ThrowError err)).
Proof.
  intros He. unfold refused_events, refused_result.
  destruct (timeout this <=? fetch_delay w)%N;
    [now apply rejects_iff_reported|].
  destruct (fetch_result w) as [t|r]; [now apply rejects_iff_reported|].
  destruct (ok r).
  - rewrite He. cbn. split; eauto.
  - destruct (text_result r); [now apply rejects_iff_reported|].
    rewrite He. cbn. split; eauto.
Qed.

(** The error callback is called exactly in the calls that reject. *)
Lemma error_iff_rejects (w : World) :
  has_onError options = true ->
  (fires is_OnError (trace (invoke this data options w)) = true
   <-> exists err, result (invoke this data options w)
                   = inl (ThrowError err)).
Proof.
  intros He. rewrite fires_filter, invoke_errors.
  destruct (invoke_observed this data options w) as [_ Hr]. rewrite Hr.
  destruct (established this w) as [b|].
  - now apply ends_in_error_iff.
  - now apply refused_in_error_iff.
Qed.

Lemma completion_fires_iff_flagged (acc : JsString) (n : nat)
  (toks : list (JsValue * JsString * bool)) :
  has_onComplete options = true ->
  fires is_OnComplete (token_callbacks data options acc n toks)
  = existsb flagged toks.
Proof.
  intros Hc. revert acc n. induction toks as [|[[v f] c] toks IH];
    intros acc n; [reflexivity|].
  cbn [token_callbacks fires existsb is_OnComplete flagged snd].
  fold (fires is_OnComplete). rewrite fires_app, Hc, IH.
  destruct c; reflexivity.
Qed.

(** The completion callback is called exactly when a token flagged complete
    is among those decoded. *)
Lemma completion_iff_flagged (w : World) :
  has_onComplete options = true ->
  fires is_OnComplete (trace (invoke this data options w))
  = existsb flagged (tokens (received this w)).
Proof.
  intros Hc. rewrite fires_filter.
  rewrite <- (filter_narrow is_OnComplete is_token_or_complete)
    by apply OnComplete_narrow.
  rewrite invoke_callbacks, <- fires_filter.
  now apply completion_fires_iff_flagged.
Qed.

(** C1, as the code has it. With both callbacks supplied, the error callback
    is called exactly when the call rejects, and the completion callback
    exactly when a token flagged complete is decoded. When the byte source
    closes before any such token, neither is called and the call returns
    normally. *)
Theorem terminal_callbacks (w : World) :
  has_onComplete options = true ->
  has_onError options = true ->
  (fires is_OnError (trace (invoke this data options w)) = true
   <-> exists err, result (invoke this data options w)
                   = inl (ThrowError err))
  /\ fires is_OnComplete (trace (invoke this data options w))
     = existsb flagged (tokens (received this w))
  /\ forall b,
       established this w = Some b ->
       ending b = ReadDone ->
       existsb flagged (tokens (received this w)) = false ->
       fires is_OnComplete (trace (invoke this data options w)) = false
       /\ fires is_OnError (trace (invoke this data options w)) = false
       /\ result (invoke this data options w) = inr tt.
Proof.
  intros Hc He.
  pose proof (error_iff_rejects w He) as H1.
  pose proof (completion_iff_flagged w Hc) as H2.
  split; [exact H1|]. split; [exact H2|].
  intros b Hb Hend Hnone.
  destruct (invoke_observed this data options w) as [_ Hr].
  rewrite Hb, Hend in Hr. cbn [end_result] in Hr.
  split; [now rewrite H2|]. split; [|exact Hr].
  destruct (fires is_OnError (trace (invoke this data options w))) eqn:F;
    [|reflexivity].
  destruct (proj1 H1 eq_refl) as [err E]. congruence.
Qed.

(** The clock of a call that reads a byte source to its end: the delays of
    the response, of every chunk and of the end add up, whatever the
    timeout. *)
Lemma invoke_established_clock (w : World) (b : Body) :
  established this w = Some b ->
  now (final (invoke this data options w))
  = (fetch_delay w + (total_delay (chunks b) + end_delay b))%N
  /\ timer (final (invoke this data options w)) = None.
Proof.
  intros He. rewrite invoke_unfold.
  pose proof (try_block_established this data options w He) as E.
  destruct (ending b) as [|t].
  - erewrite try_catch_run by exact E. cbn. auto.
  - erewrite try_catch_run_throws by exact E.
    rewrite on_catch_run. cbn. auto.
Qed.

(** C2, as the code has it, for a timeout that the timers of the platform
    keep (from 1 to [TIMEOUT_MAX] ms). When the deadline passes while [fetch]
    is pending, the error callback is called once with the timeout error,
    the same error is thrown, and no other callback is called. The timer is
    cleared when the response arrives: a call that reads its byte source to
    a normal end delivers the callbacks of all lines, calls no error
    callback and returns normally, however long the reading takes. *)
Theorem timeout_only_while_connecting (w : World) :
  kept_by_timers (timeout this) ->
  ((timeout this <= fetch_delay w)%N ->
   trace (invoke this data options w)
   = (if has_onError options then [OnError (timeoutError this)] else [])
   /\ result (invoke this data options w)
      = inl (ThrowError (timeoutError this))
   /\ now (final (invoke this data options w)) = timeout this)
  /\ (forall b,
        established this w = Some b ->
        ending b = ReadDone ->
        trace (invoke this data options w)
        = lines_events data options [] 0 (received this w)
        /\ fires is_OnError (trace (invoke this data options w)) = false
        /\ result (invoke this data options w) = inr tt
        /\ now (final (invoke this data options w))
           = (fetch_delay w + (total_delay (chunks b) + end_delay b))%N).
Proof.
  intros _. split.
  - intros Hd. rewrite (invoke_abort this data options w Hd). cbn. auto.
  - intros b He Hend.
    destruct (invoke_observed this data options w) as [Ht Hr].
    rewrite He, Hend in Ht, Hr. cbn [end_events end_result] in Ht, Hr.
    rewrite app_nil_r in Ht.
    destruct (invoke_established_clock w He) as [Hn _].
    repeat split; try assumption.
    rewrite fires_filter, invoke_errors, He, Hend. reflexivity.
Qed.

Lemma line_events_is_callback (acc : JsString) (n : nat) (line : JsString) :
  filter is_callback (line_events data options acc n line)
  = filter is_token_or_complete (line_events data options acc n line).
Proof.
  unfold line_events. destruct (classify line) as [|p|v f c]; auto.
  destruct (c && has_onComplete options); auto.
Qed.

Lemma lines_events_is_callback (acc : JsString) (n : nat)
  (lines : list JsString) :
  filter is_callback (lines_events data options acc n lines)
  = token_callbacks data options acc n (tokens lines).
Proof.
  destruct (lines_events_callbacks data options acc n lines) as [<- _].
  revert acc n. induction lines as [|l lines IH]; intros acc n; [auto|].
  cbn [lines_events]. rewrite !filter_app, line_events_is_callback, IH.
  reflexivity.
Qed.

Lemma catch_events_is_callback (t : Thrown) :
  filter is_callback (catch_events options this t)
  = catch_events options this t.
Proof.
  unfold catch_events. destruct (reported this t); [|auto].
  destruct (has_onError options); auto.
Qed.

Lemma token_calls_count (acc : JsString) (n : nat)
  (toks : list (JsValue * JsString * bool)) :
  has_onComplete options = true ->
  List.length (filter is_OnComplete (token_callbacks data options acc n toks))
  = List.length (filter flagged toks).
Proof.
  intros Hc. revert acc n. induction toks as [|[[v f] c] toks IH];
    intros acc n; [reflexivity|].
  cbn [token_callbacks filter is_OnComplete flagged snd].
  rewrite filter_app, length_app, IH, Hc.
  destruct c; reflexivity.
Qed.

Lemma fragments_snoc (toks : list (JsValue * JsString * bool))
  (v : JsValue) (f : JsString) (c : bool) :
  fragments (toks ++ [(v, f, c)]) = fragments toks ++ f.
Proof.
  unfold fragments. rewrite map_app, concat_app.
  cbn [List.map List.concat fragment fst snd]. now rewrite app_nil_r.
Qed.

(** C3, as the code has it. The client does not stop at a token flagged
    complete. The per-token and completion callbacks of a call are those of
    all tokens of the byte source in order: one per-token call each, and one
    completion call right after each flagged token. When the only flagged
    token is the last token, its completion call is the last of them, and
    only the error callback of a failing byte source can follow. *)
Theorem callbacks_follow_tokens (w : World) :
  filter is_token_or_complete (trace (invoke this data options w))
  = token_callbacks data options [] 0 (tokens (received this w))
  /\ count_events is_OnToken (trace (invoke this data options w))
     = List.length (tokens (received this w))
  /\ (has_onComplete options = true ->
      count_events is_OnComplete (trace (invoke this data options w))
      = List.length (filter flagged (tokens (received this w))))
  /\ (forall b toks v f,
        has_onComplete options = true ->
        established this w = Some b ->
        tokens (received this w) = toks ++ [(v, f, true)] ->
        Forall (fun t => flagged t = false) toks ->
        filter is_callback (trace (invoke this data options w))
        = token_callbacks data options [] 0 toks
          ++ [OnToken v (fragments (toks ++ [(v, f, true)]))
                (List.length (toks ++ [(v, f, true)]));
              OnComplete
                (completion data (fragments (toks ++ [(v, f, true)]))
                   (List.length (toks ++ [(v, f, true)])))]
          ++ end_events options this (ending b)
        /\ fires is_OnComplete (token_callbacks data options [] 0 toks)
           = false).
Proof.
  pose proof (invoke_callbacks this data options w) as Hcb.
  split; [exact Hcb|]. split; [|split].
  - unfold count_events.
    rewrite <- (filter_narrow is_OnToken is_token_or_complete)
      by apply OnToken_narrow.
    rewrite Hcb. apply token_calls_length.
  - intros Hc. unfold count_events.
    rewrite <- (filter_narrow is_OnComplete is_token_or_complete)
      by apply OnComplete_narrow.
    rewrite Hcb. now apply token_calls_count.
  - intros b toks v f Hc He Ht Hf. split.
    + destruct (invoke_observed this data options w) as [Htr _].
      rewrite He in Htr. rewrite Htr, filter_app, lines_events_is_callback.
      rewrite Ht, token_callbacks_app.
      cbn [token_callbacks app andb]. rewrite Hc.
      rewrite fragments_snoc, length_app. cbn [List.length app Nat.add].
      rewrite <- !app_assoc. cbn [app].
      replace (filter is_callback (end_events options this (ending b)))
        with (end_events options this (ending b))
        by (destruct (ending b); [reflexivity|];
            symmetry; apply catch_events_is_callback).
      reflexivity.
    + rewrite completion_fires_iff_flagged by exact Hc.
      clear - Hf. induction Hf as [|t toks Ht _ IH]; [reflexivity|].
      cbn [existsb]. now rewrite Ht.
Qed.

Lemma caught_once (t : Thrown) (e : JsError) :
  has_onError options = true ->
  catch_result this t = inl (ThrowError e) ->
  catch_events options this t = [OnError e].
Proof.
  intros He. unfold catch_result, catch_events. rewrite He.
  destruct (reported this t); intros H; [|discriminate].
  now injection H as ->.
Qed.

(** Every failure of a call reaches the error callback with the very error
    that is thrown: once when it comes from [fetch], a read or the timer,
    twice when it is raised inside the [try] block (response outside 2xx,
    missing body). *)
Lemma failure_reported_and_thrown (w : World) (e : JsError) :
  has_onError options = true ->
  result (invoke this data options w) = inl (ThrowError e) ->
  filter is_OnError (trace (invoke this data options w)) = [OnError e]
  \/ filter is_OnError (trace (invoke this data options w))
     = [OnError e; OnError e].
Proof.
  intros He. rewrite invoke_errors.
  destruct (invoke_observed this data options w) as [_ Hr]. rewrite Hr.
  destruct (established this w) as [b|].
  - destruct (ending b) as [|t]; cbn [end_result end_events];
      [discriminate|].
    intros H. left. now apply caught_once.
  - unfold refused_result, refused_events.
    destruct (timeout this <=? fetch_delay w)%N.
    { intros H. left. now apply caught_once. }
    destruct (fetch_result w) as [t|r].
    { intros H. left. now apply caught_once. }
    rewrite He. destruct (ok r).
    { intros H. injection H as <-. now right. }
    destruct (text_result r) as [t|msg].
    { intros H. left. now apply caught_once. }
    intros H. injection H as <-. now right.
Qed.

End Properties.
End StreamProperties.

(* ================================================================== *)
(** * The streaming client on concrete engines *)
(* ================================================================== *)

Module StreamRuns.
Import Js Client Stream Examples StreamProperties.

(** The example of the design document: two records, the second flagged
    complete. *)
Example run_normal :
  trace (run w_normal)
  = [OnToken tok_hi (lit "Hi") 1;
     OnToken tok_bang (lit "Hi!") 2;
     OnComplete {| model_id := lit "mistral"; text := lit "Hi!";
                   tokens_generated := 2; finish_reason := lit "stop" |}]
  /\ result (run w_normal) = inr tt.
Proof. vm_compute. split; reflexivity. Qed.

(** The same bytes in three chunks cut inside the records. *)
Example run_split :
  all_bytes (chunks_of w_split) = all_bytes (chunks_of w_normal)
  /\ trace (run w_split) = trace (run w_normal).
Proof. vm_compute. split; reflexivity. Qed.

(** A chunk boundary inside a character: the decoder keeps the first byte
    until the second arrives. *)
Example run_cut_inside_character :
  all_bytes (chunks_of w_accent_cut) = all_bytes (chunks_of w_accent)
  /\ last (firstn 17 accent_bytes) x00 = xc3
  /\ trace (run w_accent_cut) = trace (run w_accent)
  /\ accumulatedText (final (run w_accent_cut)) = [233%N].
Proof. vm_compute. repeat split; reflexivity. Qed.

(** The cast to [StreamToken] checks nothing: a payload that parses to a
    number is delivered as a token, and its missing [token] field adds the
    text "undefined". A payload [null] makes the property access throw and is
    logged like a payload that does not parse. *)
Example run_unchecked_shape :
  trace (run w_number) = [OnToken (JNum (lit "42")) (lit "undefined") 1]
  /\ trace (run w_null) = [ConsoleError (lit "null")]
  /\ tokenCount (final (run w_null)) = 0.
Proof. vm_compute. repeat split; reflexivity. Qed.

(** C1 fails on the code: a byte source that closes after a token that is
    not flagged complete leaves the caller without completion and without
    error, and the call returns normally; a read that fails after the flagged
    token gives the caller both. *)
Lemma silent_close_neither_broken_both :
  established client w_silent
  = Some {| chunks := [(1%N, ascii_bytes hi)]; end_delay := 1;
            ending := ReadDone |}
  /\ trace (run w_silent) = [OnToken tok_hi (lit "Hi") 1]
  /\ result (run w_silent) = inr tt
  /\ exactly_one_terminal (trace (run w_silent)) = false
  /\ fires is_OnComplete (trace (run w_broken)) = true
  /\ fires is_OnError (trace (run w_broken)) = true
  /\ exactly_one_terminal (trace (run w_broken)) = false.
Proof. vm_compute. repeat split; reflexivity. Qed.

(** The byte source closes after one token that is not flagged: neither
    terminal callback, normal return. *)
Lemma terminal_callbacks_witness :
  fires is_OnComplete (trace (run w_silent)) = false
  /\ fires is_OnError (trace (run w_silent)) = false
  /\ result (run w_silent) = inr tt.
Proof.
  refine (proj2 (proj2 (@terminal_callbacks ExampleJSON.platform
                          client request callbacks w_silent _ _))
            {| chunks := [(1%N, ascii_bytes hi)]; end_delay := 1;
               ending := ReadDone |} _ _ _);
    vm_compute; reflexivity.
Defined.

(** C2 fails on the code: the deadline of 10 ms passes while the client is
    streaming, and the call goes on to deliver both tokens and the
    completion 96 ms later, without any error. *)
Lemma deadline_passes_while_streaming :
  deadline_while_streaming client w_late
  /\ trace (run w_late) = trace (run w_normal)
  /\ fires is_OnError (trace (run w_late)) = false
  /\ fires is_OnComplete (trace (run w_late)) = true
  /\ result (run w_late) = inr tt
  /\ now (final (run w_late)) = 106%N.
Proof.
  split.
  - exists {| chunks := [(100%N, ascii_bytes (hi ++ bang))]; end_delay := 1;
              ending := ReadDone |}.
    vm_compute. repeat split; congruence.
  - vm_compute. repeat split; reflexivity.
Qed.

(** A response due after the deadline, and a stream that outlasts it. *)
Lemma timeout_only_while_connecting_witness :
  (trace (run w_slow) = [OnError (timeoutError client)]
   /\ result (run w_slow) = inl (ThrowError (timeoutError client))
   /\ now (final (run w_slow)) = 10%N)
  /\ (trace (run w_late)
      = lines_events (P := ExampleJSON.platform) request callbacks [] 0
          (lines_of w_late)
      /\ fires is_OnError (trace (run w_late)) = false
      /\ result (run w_late) = inr tt
      /\ now (final (run w_late)) = (5 + (100 + 1))%N).
Proof.
  assert (Hrange : kept_by_timers (timeout client))
    by (split; vm_compute; discriminate).
  split.
  - refine (proj1 (@timeout_only_while_connecting ExampleJSON.platform
                     client request callbacks w_slow Hrange) _).
    vm_compute. discriminate.
  - refine (proj2 (@timeout_only_while_connecting ExampleJSON.platform
                     client request callbacks w_late Hrange)
              {| chunks := [(100%N, ascii_bytes (hi ++ bang))];
                 end_delay := 1; ending := ReadDone |} _ _);
      vm_compute; reflexivity.
Defined.

(** C3 fails on the code: after the token flagged complete and its
    completion callback, the two records that follow are decoded and
    delivered, and a second completion callback is called. *)
Lemma stream_goes_on_after_completion :
  trace (run w_goes_on)
  = [OnToken tok_bang (lit "!") 1;
     OnComplete {| model_id := lit "mistral"; text := lit "!";
                   tokens_generated := 1; finish_reason := lit "stop" |};
     OnToken tok_hi (lit "!Hi") 2;
     OnToken tok_bang (lit "!Hi!") 3;
     OnComplete {| model_id := lit "mistral"; text := lit "!Hi!";
                   tokens_generated := 3; finish_reason := lit "stop" |}]
  /\ count_events is_OnComplete (trace (run w_goes_on)) = 2
  /\ ~ completion_is_final (trace (run w_goes_on)).
Proof.
  assert (E : trace (run w_goes_on)
              = [OnToken tok_bang (lit "!") 1;
                 OnComplete {| model_id := lit "mistral"; text := lit "!";
                               tokens_generated := 1;
                               finish_reason := lit "stop" |};
                 OnToken tok_hi (lit "!Hi") 2;
                 OnToken tok_bang (lit "!Hi!") 3;
                 OnComplete {| model_id := lit "mistral"; text := lit "!Hi!";
                               tokens_generated := 3;
                               finish_reason := lit "stop" |}])
    by (vm_compute; reflexivity).
  split; [exact E|]. split; [now rewrite E|].
  intros H. rewrite E in H.
  specialize (H [OnToken tok_bang (lit "!") 1] _ _ eq_refl).
  discriminate H.
Qed.

(** Three tokens of which two are flagged, and the two-record example. *)
Lemma callbacks_follow_tokens_witness :
  count_events is_OnToken (trace (run w_goes_on)) = 3
  /\ count_events is_OnComplete (trace (run w_goes_on)) = 2
  /\ filter is_callback (trace (run w_normal))
     = [OnToken tok_hi (lit "Hi") 1; OnToken tok_bang (lit "Hi!") 2;
        OnComplete {| model_id := lit "mistral"; text := lit "Hi!";
                      tokens_generated := 2; finish_reason := lit "stop" |}].
Proof.
  split; [|split].
  - exact (proj1 (proj2 (@callbacks_follow_tokens ExampleJSON.platform
                           client request callbacks w_goes_on))).
  - exact (proj1 (proj2 (proj2 (@callbacks_follow_tokens
                                  ExampleJSON.platform
                                  client request callbacks w_goes_on)))
             eq_refl).
  - refine (proj1 (proj2 (proj2 (proj2 (callbacks_follow_tokens
                                          (P := ExampleJSON.platform)
                                          client request callbacks w_normal)))
                     {| chunks := [(1%N, ascii_bytes (hi ++ bang))];
                        end_delay := 1; ending := ReadDone |}
                     [(tok_hi, lit "Hi", false)] tok_bang (lit "!")
                     eq_refl _ _ _)).
    + vm_compute; reflexivity.
    + vm_compute; reflexivity.
    + repeat constructor.
Defined.

(** The two-record example: one completion, two tokens, text "Hi!". *)
Lemma completion_aggregates_witness :
  exists resp,
    filter is_OnComplete (trace (run w_normal)) = [OnComplete resp]
    /\ tokens_generated resp = count_events is_OnToken (trace (run w_normal))
    /\ text resp = lit "Hi!"
    /\ (forall k tok acc n,
         nth_error (filter is_OnToken (trace (run w_normal))) k
         = Some (OnToken tok acc n) ->
         n = S k
         /\ acc = fragments (firstn (S k) [(tok_hi, lit "Hi", false);
                                           (tok_bang, lit "!", true)]))
    /\ count_events is_OnToken (trace (run w_normal)) = 2
    /\ tokens_generated resp = 2
    /\ (forall k tk,
         nth_error [(tok_hi, lit "Hi", false); (tok_bang, lit "!", true)] k
         = Some tk ->
         nth_error (filter is_OnToken (trace (run w_normal))) k
         = Some (OnToken (fst (fst tk))
                   (fragments (firstn (S k) [(tok_hi, lit "Hi", false);
                                             (tok_bang, lit "!", true)]))
                   (S k))).
Proof.
  refine (@completion_aggregates ExampleJSON.platform
            client request callbacks w_normal
            [(tok_hi, lit "Hi", false)] tok_bang (lit "!") _ _ _).
  - reflexivity.
  - vm_compute; reflexivity.
  - repeat constructor.
Defined.

(** A garbled record between the two records of the example. *)
Lemma malformed_record_skipped_witness :
  trace (run w_garbled)
  = [OnToken tok_hi (lit "Hi") 1;
     ConsoleError (lit "{oops");
     OnToken tok_bang (lit "Hi!") 2;
     OnComplete {| model_id := lit "mistral"; text := lit "Hi!";
                   tokens_generated := 2; finish_reason := lit "stop" |}]
  /\ filter is_token_or_complete (trace (run w_garbled))
     = filter is_token_or_complete (trace (run w_normal))
  /\ filter is_OnError (trace (run w_garbled)) = []
  /\ result (run w_garbled) = inr tt.
Proof.
  pose proof (@malformed_record_skipped ExampleJSON.platform
                client request callbacks w_garbled
                [removelast hi] [removelast bang] (removelast garbled)
                (lit "{oops")) as H.
  assert (H1 : received client w_garbled
               = [removelast hi] ++ removelast garbled :: [removelast bang])
    by (vm_compute; reflexivity).
  assert (H2 : data_record (removelast garbled) = Some (lit "{oops"))
    by (vm_compute; reflexivity).
  assert (H3 : as_token (P := ExampleJSON.platform) (lit "{oops") = None)
    by (vm_compute; reflexivity).
  destruct (proj1 (proj2 (H H1 H2)) H3) as [_ [Hcb [b [Hb [Ht [He Hr]]]]]].
  assert (Hb' : b = {| chunks := [(1%N, ascii_bytes (hi ++ garbled ++ bang))];
                       end_delay := 1; ending := ReadDone |}).
  { vm_compute in Hb. now injection Hb. }
  subst b. unfold run. split; [|split; [|split]].
  - rewrite Ht. vm_compute. reflexivity.
  - rewrite Hcb. vm_compute. reflexivity.
  - exact He.
  - exact Hr.
Defined.

(** C7 fails on the code for a payload that is JSON but no [StreamToken]:
    the record is not reported, the text "undefined" is added for its missing
    [token] field, it is counted, and the per-token callback is called with
    it; the token after it is the third, and the completion carries the text
    with "undefined" in it. *)
Lemma unchecked_record_is_delivered :
  received client MoreExamples.w_shapeless
  = [removelast hi; removelast MoreExamples.shapeless; removelast bang]
  /\ data_record (removelast MoreExamples.shapeless)
     = Some (json_lit "{'text':'x'}")
  /\ JSON_parse (Platform := ExampleJSON.platform) (json_lit "{'text':'x'}")
     = Some MoreExamples.tok_shapeless
  /\ get_prop MoreExamples.tok_shapeless (lit "token") = Some JUndefined
  /\ trace (run MoreExamples.w_shapeless)
     = [OnToken tok_hi (lit "Hi") 1;
        OnToken MoreExamples.tok_shapeless (lit "Hiundefined") 2;
        OnToken tok_bang (lit "Hiundefined!") 3;
        OnComplete {| model_id := lit "mistral"; text := lit "Hiundefined!";
                      tokens_generated := 3; finish_reason := lit "stop" |}]
  /\ filter (fun e => negb (is_callback e))
       (trace (run MoreExamples.w_shapeless)) = []
  /\ accumulatedText (final (run MoreExamples.w_shapeless))
     = lit "Hiundefined!"
  /\ tokenCount (final (run MoreExamples.w_shapeless)) = 3.
Proof. vm_compute. repeat split; reflexivity. Qed.

(** C9 fails on the code for a response outside 2xx: the error reaches the
    error callback twice, in the [try] block and again in the [catch]
    clause that it is thrown into, and is then thrown to the caller. For a
    timeout the callback is called once. *)
Lemma non_ok_response_reported_twice :
  trace (run w_500)
  = [OnError (createError 500 (lit "engine failure"));
     OnError (createError 500 (lit "engine failure"))]
  /\ result (run w_500)
     = inl (ThrowError (createError 500 (lit "engine failure")))
  /\ count_events is_OnError (trace (run w_500)) = 2
  /\ count_events is_OnError (trace (run w_slow)) = 1.
Proof. vm_compute. repeat split; reflexivity. Qed.

End StreamRuns.

(* ================================================================== *)
(** * Properties of model selection and routing *)
(* ================================================================== *)

Module SelectionProperties.
Import Js Registry.

Lemma JsString_eqb_eq (a b : JsString) : JsString_eqb a b = true <-> a = b.
Proof.
  unfold JsString_eqb. destruct (list_eq_dec N.eq_dec a b); split; auto.
  discriminate.
Qed.

Lemma findOne_found (options : FindModelOptions) (m : Entries)
  (model : ModelRegistryEntry) :
  findOne options m = Some model ->
  In model (list m) /\ matches options model = true.
Proof.
  unfold findOne, find. intros H. apply nth_error_In in H.
  apply filter_In in H. exact H.
Qed.

Lemma findOne_none (options : FindModelOptions) (m : Entries) :
  findOne options m = None <->
  forall model, In model (list m) -> matches options model = false.
Proof.
  unfold findOne, find. split.
  - intros H model Hin.
    destruct (matches options model) eqn:E; [|reflexivity].
    assert (Hf : In model (filter (matches options) (list m)))
      by (apply filter_In; auto).
    destruct (filter (matches options) (list m)); [destruct Hf|discriminate].
  - intros H. destruct (filter (matches options) (list m)) as [|x l] eqn:E;
      [reflexivity|].
    assert (Hx : In x (filter (matches options) (list m)))
      by (rewrite E; now left).
    apply filter_In in Hx. destruct Hx as [Hin Hm].
    rewrite (H x Hin) in Hm. discriminate.
Qed.

Lemma matches_passes (options : FindModelOptions)
  (model : ModelRegistryEntry) :
  matches options model = true <->
  lacks_capability options model = false
  /\ other_latency options model = false
  /\ other_inference options model = false
  /\ below_minContext options model = false
  /\ other_loaded options model = false.
Proof.
  unfold matches.
  destruct (lacks_capability options model), (other_latency options model),
    (other_inference options model), (below_minContext options model),
    (other_loaded options model); intuition discriminate.
Qed.

(** A bound of zero is falsy: the test is skipped, which is the same as
    asking for a context size of at least zero. *)
Lemma minContext_zero_unconstrained (options : FindModelOptions)
  (model : ModelRegistryEntry) :
  minContext options = Some 0%N ->
  below_minContext options model = false.
Proof. intros H. unfold below_minContext. now rewrite H. Qed.

(** C6 (minimum context). With a minimum-context bound [c] in the criteria,
    a model passes the minimum-context test exactly when its context size is
    at least [c], and neither [find] nor [findOne] returns a model whose
    context size is below [c]. *)
Theorem minContext_respected (m : Entries) (options : FindModelOptions)
  (c : N) :
  minContext options = Some c ->
  (forall model,
     below_minContext options model = false <-> (c <= context model)%N)
  /\ (forall model,
        In model (find options m) -> (c <= context model)%N)
  /\ (forall model,
        findOne options m = Some model -> (c <= context model)%N).
Proof.
  intros Hc.
  assert (H : forall model,
             below_minContext options model = false
             <-> (c <= context model)%N).
  { intros model. unfold below_minContext, truthy_number. rewrite Hc.
    destruct (N.eqb_spec c 0) as [->|Hnz].
    - split; [intros _; apply N.le_0_l|reflexivity].
    - rewrite N.ltb_ge. reflexivity. }
  split; [exact H|]. split.
  - intros model Hin. apply filter_In in Hin. destruct Hin as [_ Hm].
    apply matches_passes in Hm. now apply H.
  - intros model Hf. apply findOne_found in Hf. destruct Hf as [_ Hm].
    apply matches_passes in Hm. now apply H.
Qed.

End SelectionProperties.

Module RouterProperties.
Import Js Router SelectionProperties.

Section Routing.
Variable registry : Registry.Entries.
Variable client_inference :
  Client.InferenceRequest -> Thrown + Client.InferenceResponse.

Lemma lookup_matches (opts : ChatOptions)
  (entry : Registry.ModelRegistryEntry) :
  Registry.matches (lookup_criteria opts) entry
  = Registry.includes (Registry.capabilities entry) (lit "chat")
    && Registry.matches (caller_criteria opts) entry.
Proof.
  unfold Registry.matches, Registry.lacks_capability, lookup_criteria,
    caller_criteria.
  cbn [Registry.capability Registry.truthy].
  replace (truthy_string (lit "chat")) with true by reflexivity.
  destruct (Registry.includes (Registry.capabilities entry) (lit "chat"));
    reflexivity.
Qed.

Lemma resolve_explicit (opts : ChatOptions) (m : JsString) :
  Registry.truthy (model opts) = Some m ->
  resolve registry opts
  = match Registry.get m registry with
    | Some entry => inr entry
    | None => inl (new_Error (lit "Model '" ++ m
                              ++ lit "' not found in registry"))
    end.
Proof. intros H. unfold resolve. now rewrite H. Qed.

Lemma resolve_implicit (opts : ChatOptions) :
  Registry.truthy (model opts) = None ->
  resolve registry opts
  = match Registry.findOne (lookup_criteria opts) registry with
    | Some entry => inr entry
    | None => inl (new_Error
                     (lit "No suitable model found for the given constraints"))
    end.
Proof. intros H. unfold resolve. now rewrite H. Qed.

(** C8 (the router fails fast). An explicit identifier that the catalog does
    not hold makes the handler throw without any inference call; so does a
    request without explicit identifier whose criteria no entry of the
    catalog satisfies. An explicit identifier that the catalog holds is the
    model called, whatever the criteria say. *)
Theorem router_fails_fast (request : ChatRequest) :
  (forall m,
     Registry.truthy (model (options_or_empty request)) = Some m ->
     Registry.get m registry = None ->
     router_chat registry client_inference request
     = {| calls := [];
          outcome := inl (ThrowError
                            (new_Error (lit "Model '" ++ m
                                        ++ lit "' not found in registry"))) |})
  /\ (Registry.truthy (model (options_or_empty request)) = None ->
      (forall entry,
         In entry (Registry.list registry) ->
         Registry.matches (caller_criteria (options_or_empty request)) entry
         = false) ->
      router_chat registry client_inference request
      = {| calls := [];
           outcome :=
             inl (ThrowError
                    (new_Error
                       (lit "No suitable model found for the given constraints")))
        |})
  /\ (forall m entry,
        Registry.truthy (model (options_or_empty request)) = Some m ->
        Registry.get m registry = Some entry ->
        router_chat registry client_inference request
        = {| calls := [call_for request entry];
             outcome := client_inference (call_for request entry) |}).
Proof.
  split; [|split].
  - intros m Hm Hg. unfold router_chat. cbv zeta.
    rewrite (resolve_explicit _ Hm), Hg. reflexivity.
  - intros Hm Hnone. unfold router_chat. cbv zeta.
    rewrite (resolve_implicit _ Hm).
    assert (E : Registry.findOne (lookup_criteria (options_or_empty request))
                  registry = None).
    { apply findOne_none. intros entry Hin.
      rewrite lookup_matches, (Hnone entry Hin). apply andb_false_r. }
    rewrite E. reflexivity.
  - intros m entry Hm Hg. unfold router_chat. cbv zeta.
    rewrite (resolve_explicit _ Hm), Hg. reflexivity.
Qed.

(** C10 (implicit routing requires chat). For a request without explicit
    identifier, every inference call that the handler makes goes to an entry
    of the catalog that has the capability "chat" and satisfies the latency,
    backend and minimum-context constraints of the caller; a catalog without
    such an entry gets no call. *)
Theorem implicit_routing_requires_chat (request : ChatRequest)
  (req : Client.InferenceRequest) :
  Registry.truthy (model (options_or_empty request)) = None ->
  In req (calls (router_chat registry client_inference request)) ->
  exists entry,
    req = call_for request entry
    /\ In entry (Registry.list registry)
    /\ Registry.includes (Registry.capabilities entry) (lit "chat") = true
    /\ Registry.matches (caller_criteria (options_or_empty request)) entry
       = true.
Proof.
  intros Hm Hin. unfold router_chat in Hin. cbv zeta in Hin.
  rewrite (resolve_implicit _ Hm) in Hin.
  destruct (Registry.findOne (lookup_criteria (options_or_empty request))
              registry) as [entry|] eqn:E; [|destruct Hin].
  cbn [calls] in Hin. destruct Hin as [<-|[]].
  apply findOne_found in E. destruct E as [He Hmatch].
  rewrite lookup_matches in Hmatch. apply andb_prop in Hmatch.
  exists entry. unfold call_for. tauto.
Qed.

End Routing.
End RouterProperties.

(* ================================================================== *)
(** * Selection and routing on the example catalogs *)
(* ================================================================== *)

Module RoutingRuns.
Import Js Router Examples SelectionProperties RouterProperties.

(** The example of the design document: the first entry is too small. *)
Example select_b : Registry.findOne chat_8192 catalog = Some entry_b.
Proof. vm_compute. reflexivity. Qed.

(** The bound 8192 on the catalog of the design document. *)
Lemma minContext_respected_witness :
  Registry.findOne chat_8192 catalog = Some entry_b
  /\ (8192 <= Registry.context entry_b)%N
  /\ Registry.below_minContext chat_8192 entry_a = true.
Proof.
  assert (H : Registry.findOne chat_8192 catalog = Some entry_b)
    by (vm_compute; reflexivity).
  split; [exact H|]. split.
  - exact (proj2 (proj2 (minContext_respected catalog chat_8192 eq_refl))
             entry_b H).
  - reflexivity.
Defined.

(** An unknown identifier, a bound that no entry reaches, and a known
    identifier with a bound that its entry does not reach. *)
Lemma router_fails_fast_witness :
  calls (router_chat catalog engine (ask (Some (lit "zebra")) None)) = []
  /\ calls (router_chat catalog engine (ask None (Some 100000%N))) = []
  /\ calls (router_chat catalog engine (ask (Some (lit "a")) (Some 8192%N)))
     = [call_for (ask (Some (lit "a")) (Some 8192%N)) entry_a].
Proof.
  split; [|split].
  - rewrite (proj1 (router_fails_fast catalog engine
                      (ask (Some (lit "zebra")) None))
               (lit "zebra") eq_refl eq_refl).
    reflexivity.
  - rewrite (proj1 (proj2 (router_fails_fast catalog engine
                             (ask None (Some 100000%N)))) eq_refl).
    + reflexivity.
    + intros entry Hin. vm_compute in Hin.
      destruct Hin as [<-|[<-|[]]]; vm_compute; reflexivity.
  - rewrite (proj2 (proj2 (router_fails_fast catalog engine
                             (ask (Some (lit "a")) (Some 8192%N))))
               (lit "a") entry_a eq_refl eq_refl).
    reflexivity.
Defined.

(** The first entry of the catalog has no chat: the second one is called. *)
Lemma implicit_routing_requires_chat_witness :
  calls (router_chat catalog_with_embedder engine (ask None None))
  = [call_for (ask None None) entry_b]
  /\ exists entry,
       call_for (ask None None) entry_b = call_for (ask None None) entry
       /\ In entry (Registry.list catalog_with_embedder)
       /\ Registry.includes (Registry.capabilities entry) (lit "chat") = true
       /\ Registry.matches (caller_criteria (options_or_empty (ask None None)))
            entry = true.
Proof.
  split; [vm_compute; reflexivity|].
  apply (@implicit_routing_requires_chat catalog_with_embedder engine
           (ask None None) (call_for (ask None None) entry_b)).
  - reflexivity.
  - vm_compute. left. reflexivity.
Defined.

End RoutingRuns.

(* ================================================================== *)
(** * The registry as a map *)
(* ================================================================== *)

Module MapFacts.
Import Js Registry RegistryOps.

Lemma eqb_refl (a : JsString) : JsString_eqb a a = true.
Proof. unfold JsString_eqb. now destruct (list_eq_dec N.eq_dec a a). Qed.

Lemma eqb_neq (a b : JsString) : a <> b -> JsString_eqb a b = false.
Proof.
  intros H. unfold JsString_eqb.
  now destruct (list_eq_dec N.eq_dec a b).
Qed.

Lemma eqb_spec (a b : JsString) : reflect (a = b) (JsString_eqb a b).
Proof.
  unfold JsString_eqb. destruct (list_eq_dec N.eq_dec a b);
    constructor; assumption.
Qed.

Lemma has_iff_key (k : JsString) (m : Entries) :
  Map_has k m = true <-> In k (keys m).
Proof.
  unfold Map_has. induction m as [|[k' v] m IH]; cbn.
  - split; [discriminate|tauto].
  - destruct (eqb_spec k' k) as [->|Hn].
    + split; auto.
    + rewrite IH. split; [auto|]. intros [H|H]; [congruence|exact H].
Qed.

Lemma has_false_iff (k : JsString) (m : Entries) :
  Map_has k m = false <-> ~ In k (keys m).
Proof.
  rewrite <- has_iff_key. destruct (Map_has k m); split; congruence.
Qed.

Lemma get_none_iff (k : JsString) (m : Entries) :
  Map_get k m = None <-> ~ In k (keys m).
Proof.
  rewrite <- has_false_iff. unfold Map_has.
  destruct (Map_get k m); split; congruence.
Qed.

Lemma get_in (k : JsString) (m : Entries) (v : ModelRegistryEntry) :
  Map_get k m = Some v -> In (k, v) m.
Proof.
  induction m as [|[k' v'] m IH]; cbn; [discriminate|].
  destruct (eqb_spec k' k) as [->|Hn].
  - intros H. injection H as ->. now left.
  - intros H. right. now apply IH.
Qed.

Lemma in_get (k : JsString) (m : Entries) (v : ModelRegistryEntry) :
  NoDup (keys m) -> In (k, v) m -> Map_get k m = Some v.
Proof.
  induction m as [|[k' v'] m IH]; cbn; [tauto|].
  intros Hnd [H|H].
  - injection H as -> ->. now rewrite eqb_refl.
  - inversion Hnd as [|? ? Hk Hnd']; subst.
    destruct (eqb_spec k' k) as [->|Hn].
    + exfalso. apply Hk. change (In k (keys m)).
      unfold keys. apply in_map_iff. now exists (k, v).
    + now apply IH.
Qed.

Lemma set_fresh (k : JsString) (v : ModelRegistryEntry) (m : Entries) :
  Map_has k m = false -> Map_set k v m = m ++ [(k, v)].
Proof.
  unfold Map_has. induction m as [|[k' v'] m IH]; cbn; [reflexivity|].
  destruct (eqb_spec k' k) as [->|Hn]; [discriminate|].
  intros H. now rewrite IH.
Qed.

Lemma keys_set (k : JsString) (v : ModelRegistryEntry) (m : Entries) :
  keys (Map_set k v m) = if Map_has k m then keys m else keys m ++ [k].
Proof.
  unfold Map_has, keys. induction m as [|[k' v'] m IH]; cbn; [reflexivity|].
  destruct (eqb_spec k' k) as [->|Hn]; [reflexivity|].
  cbn. rewrite IH. now destruct (Map_get k m).
Qed.

Lemma get_set_same (k : JsString) (v : ModelRegistryEntry) (m : Entries) :
  Map_get k (Map_set k v m) = Some v.
Proof.
  induction m as [|[k' v'] m IH]; cbn.
  - now rewrite eqb_refl.
  - destruct (eqb_spec k' k) as [->|Hn]; cbn.
    + now rewrite eqb_refl.
    + rewrite (eqb_neq Hn). exact IH.
Qed.

Lemma get_set_other (k k' : JsString) (v : ModelRegistryEntry) (m : Entries) :
  k <> k' -> Map_get k (Map_set k' v m) = Map_get k m.
Proof.
  intros Hn. induction m as [|[k0 v0] m IH]; cbn.
  - rewrite eqb_neq; [reflexivity|]. congruence.
  - destruct (eqb_spec k0 k') as [->|Hn0]; cbn.
    + rewrite !(eqb_neq (a := k') (b := k)) by congruence. reflexivity.
    + destruct (eqb_spec k0 k); [reflexivity|exact IH].
Qed.

Lemma length_set (k : JsString) (v : ModelRegistryEntry) (m : Entries) :
  List.length (Map_set k v m)
  = if Map_has k m then List.length m else S (List.length m).
Proof.
  rewrite <- (length_map fst (Map_set k v m)).
  change (List.map fst (Map_set k v m)) with (keys (Map_set k v m)).
  rewrite keys_set. destruct (Map_has k m).
  - unfold keys. apply length_map.
  - unfold keys. rewrite length_app, length_map. cbn. lia.
Qed.

Lemma NoDup_set (k : JsString) (v : ModelRegistryEntry) (m : Entries) :
  NoDup (keys m) -> NoDup (keys (Map_set k v m)).
Proof.
  intros H. rewrite keys_set. destruct (Map_has k m) eqn:E; [exact H|].
  apply has_false_iff in E.
  apply NoDup_app; [exact H|repeat constructor; intros []|].
  intros x Hx [<-|[]]. exact (E Hx).
Qed.

Lemma keys_delete (k : JsString) (m : Entries) :
  keys (Map_delete k m) = filter (fun x => negb (JsString_eqb x k)) (keys m).
Proof.
  unfold keys, Map_delete. induction m as [|[k' v'] m IH]; [reflexivity|].
  cbn. destruct (JsString_eqb k' k); cbn; now rewrite IH.
Qed.

Lemma NoDup_delete (k : JsString) (m : Entries) :
  NoDup (keys m) -> NoDup (keys (Map_delete k m)).
Proof. intros H. rewrite keys_delete. now apply NoDup_filter. Qed.

Lemma get_delete_same (k : JsString) (m : Entries) :
  Map_get k (Map_delete k m) = None.
Proof.
  apply get_none_iff. rewrite keys_delete. intros H.
  apply filter_In in H. destruct H as [_ H]. now rewrite eqb_refl in H.
Qed.

Lemma get_delete_other (k k' : JsString) (m : Entries) :
  k <> k' -> Map_get k (Map_delete k' m) = Map_get k m.
Proof.
  intros Hn. unfold Map_delete. induction m as [|[k0 v0] m IH];
    [reflexivity|].
  cbn. destruct (eqb_spec k0 k') as [->|Hn0]; cbn.
  - rewrite (eqb_neq (a := k') (b := k)) by congruence. exact IH.
  - destruct (eqb_spec k0 k); [reflexivity|exact IH].
Qed.

Lemma delete_absent (k : JsString) (m : Entries) :
  Map_has k m = false -> Map_delete k m = m.
Proof.
  unfold Map_has, Map_delete. induction m as [|[k' v'] m IH];
    [reflexivity|].
  cbn. destruct (eqb_spec k' k) as [->|Hn]; [discriminate|].
  intros H. cbn. now rewrite IH.
Qed.

Lemma length_delete (k : JsString) (m : Entries) :
  NoDup (keys m) ->
  List.length (Map_delete k m)
  = if Map_has k m then List.length m - 1 else List.length m.
Proof.
  unfold Map_has, Map_delete. induction m as [|[k' v'] m IH]; intros Hnd;
    [reflexivity|].
  inversion Hnd as [|? ? Hk Hnd']; subst.
  cbn. destruct (eqb_spec k' k) as [->|Hn]; cbn.
  - apply get_none_iff in Hk.
    fold (Map_delete k m). rewrite delete_absent.
    + lia.
    + unfold Map_has. change (Map_get k m) with (Map_get k m).
      now rewrite Hk.
  - rewrite IH by exact Hnd'.
    destruct (Map_get k m) eqn:E; [|reflexivity].
    apply get_in in E. destruct m; [destruct E|cbn; lia].
Qed.

End MapFacts.

(* ================================================================== *)
(** * Properties of the registry operations *)
(* ================================================================== *)

Module RegistryProperties.
Import Js Registry RegistryOps MapFacts SelectionProperties.

(** X7. [find] and [findOne] under criteria that constrain nothing: the whole
    catalog in its order, and its first entry. Empty strings and a zero bound
    count as absent. *)
Theorem find_unconstrained (options : FindModelOptions) (m : Entries) :
  vacuous options ->
  find options m = list m
  /\ findOne options m = nth_error (list m) 0.
Proof.
  intros (Hc & Hl & Hi & Hm & Hd).
  assert (H : forall model, matches options model = true).
  { intros model. apply matches_passes.
    unfold lacks_capability, other_latency, other_inference,
      below_minContext, other_loaded.
    now rewrite Hc, Hl, Hi, Hm, Hd. }
  assert (E : find options m = list m).
  { unfold find. induction (list m) as [|x l IH]; [reflexivity|].
    cbn. now rewrite H, IH. }
  split; [exact E|]. unfold findOne. now rewrite E.
Qed.

Lemma first_of_filter {A} (p : A -> bool) (l : Datatypes.list A) (x : A) :
  nth_error (filter p l) 0 = Some x <->
  exists pre post,
    l = pre ++ x :: post
    /\ Forall (fun y => p y = false) pre /\ p x = true.
Proof.
  induction l as [|a l IH]; cbn.
  - split; [discriminate|]. intros (pre & post & H & _).
    destruct pre; discriminate.
  - destruct (p a) eqn:Pa; cbn.
    + split.
      * intros H. injection H as <-. exists [], l. auto.
      * intros (pre & post & H & Hpre & Hx).
        destruct pre as [|b pre]; cbn in H.
        -- now injection H as ->.
        -- injection H as -> _. inversion Hpre; congruence.
    + rewrite IH. split.
      * intros (pre & post & -> & Hpre & Hx).
        exists (a :: pre), post. auto.
      * intros (pre & post & H & Hpre & Hx).
        destruct pre as [|b pre]; cbn in H.
        -- injection H as -> _. congruence.
        -- injection H as -> ->. inversion Hpre; subst. eauto.
Qed.

Lemma none_of_filter {A} (p : A -> bool) (l : Datatypes.list A) :
  nth_error (filter p l) 0 = None <-> Forall (fun y => p y = false) l.
Proof.
  induction l as [|a l IH]; cbn [filter].
  - split; [constructor|reflexivity].
  - destruct (p a) eqn:Pa.
    + split; [discriminate|]. intros H. inversion H; congruence.
    + rewrite IH. split; [now constructor|]. intros H. now inversion H.
Qed.

(** X8. First match wins: [findOne] returns an entry exactly when it matches
    and no entry before it in the order of [list] does, and it returns
    [undefined] exactly when no entry matches; what it returns is the first
    element of [find]. *)
Theorem findOne_first_match (options : FindModelOptions) (m : Entries) :
  (forall model,
     findOne options m = Some model <->
     exists pre post,
       list m = pre ++ model :: post
       /\ Forall (fun other => matches options other = false) pre
       /\ matches options model = true)
  /\ (findOne options m = None <->
      Forall (fun other => matches options other = false) (list m))
  /\ (findOne options m = None <-> find options m = [])
  /\ (forall model,
        findOne options m = Some model ->
        exists rest, find options m = model :: rest).
Proof.
  unfold findOne, find. split; [|split; [|split]].
  - intros model. apply first_of_filter.
  - apply none_of_filter.
  - destruct (filter (matches options) (list m)); cbn; split;
      congruence.
  - intros model.
    destruct (filter (matches options) (list m)) as [|x rest]; cbn;
      [discriminate|].
    intros H. injection H as ->. now exists rest.
Qed.

Lemma Forall_set (k : JsString) (v : ModelRegistryEntry) (m : Entries) :
  pristine (k, v) -> Forall pristine m -> Forall pristine (Map_set k v m).
Proof.
  intros Hv H. induction H as [|[k' v'] m Hx Hm IH]; cbn.
  - now constructor.
  - destruct (JsString_eqb k' k); constructor; auto.
Qed.

Lemma registerEntry_keeps (k : JsString) (entry : RegistryEntryInput)
  (m : Entries) :
  NoDup (keys m) /\ Forall pristine m ->
  NoDup (keys (fst (registerEntry k entry m)))
  /\ Forall pristine (fst (registerEntry k entry m)).
Proof.
  intros [Hn Hp]. cbn [registerEntry fst]. split.
  - now apply NoDup_set.
  - apply Forall_set; [|exact Hp]. repeat split.
Qed.

Lemma ModelRegistry_keeps
  (config : Datatypes.list (JsString * RegistryEntryInput)) (m : Entries) :
  NoDup (keys m) /\ Forall pristine m ->
  NoDup (keys (fold_left
                 (fun m kv => fst (registerEntry (fst kv) (snd kv) m))
                 config m))
  /\ Forall pristine
       (fold_left (fun m kv => fst (registerEntry (fst kv) (snd kv) m))
          config m).
Proof.
  revert m. induction config as [|[k e] config IH]; intros m H; [exact H|].
  cbn [fold_left]. apply IH. now apply registerEntry_keeps.
Qed.

Lemma built_keeps (m : Entries) :
  Built m -> NoDup (keys m) /\ Forall pristine m.
Proof.
  intros H. induction H as [config|m m' k entry model _ IH Ha
                            |m m' k updates model _ IH Hu
                            |m k _ IH|m _ _].
  - apply ModelRegistry_keeps. split; constructor.
  - unfold add in Ha. destruct (Map_has k m); [discriminate|].
    injection Ha as <- _. now apply registerEntry_keeps.
  - unfold update in Hu. destruct (Map_get k m) as [existing|] eqn:E;
      [|discriminate].
    injection Hu as <- _. destruct IH as [Hn Hp]. split.
    + now apply NoDup_set.
    + apply Forall_set; [|exact Hp].
      apply get_in in E. rewrite Forall_forall in Hp.
      destruct (Hp _ E) as (_ & H2 & H3 & H4). cbn in H2, H3, H4.
      repeat split; assumption.
  - destruct IH as [Hn Hp]. cbn [remove fst]. split.
    + now apply NoDup_delete.
    + unfold Map_delete. rewrite Forall_forall in *.
      intros x Hx. apply filter_In in Hx. now apply Hp.
  - split; constructor.
Qed.

(** X2. The invariant of the registry: through the constructor, [add], [update],
    [remove] and [clear], no identifier occurs twice, [get] returns exactly
    the listed entry that carries the identifier asked for, and every entry
    is unloaded, with the fixed size and no load time. *)
Theorem registry_invariant (m : Entries) :
  Built m ->
  NoDup (List.map id (list m))
  /\ (forall k model,
        get k m = Some model <-> In model (list m) /\ id model = k)
  /\ (forall model,
        In model (list m) ->
        loaded model = false
        /\ size_bytes model = 4000000000%N
        /\ loaded_at model = None).
Proof.
  intros Hb. destruct (built_keeps Hb) as [Hn Hp].
  rewrite Forall_forall in Hp.
  assert (Hid : List.map id (list m) = keys m).
  { unfold list, keys. rewrite List.map_map. apply map_ext_in.
    intros kv Hkv. now destruct (Hp kv Hkv). }
  split; [now rewrite Hid|]. split.
  - intros k model. unfold get, list. split.
    + intros H. apply get_in in H. split.
      * apply in_map_iff. exists (k, model). auto.
      * now destruct (Hp _ H).
    + intros [H <-]. apply in_map_iff in H as ([k' v] & E & Hin).
      cbn [snd] in E. subst v. apply in_get; [exact Hn|].
      destruct (Hp _ Hin) as [E _]. cbn [fst snd] in E. now rewrite E.
  - intros model H. apply in_map_iff in H as (kv & <- & Hin).
    destruct (Hp kv Hin) as (_ & H1 & H2 & H3). auto.
Qed.

(** X9. No operation of the registry marks a model as loaded: asking [find] for
    loaded models finds nothing, and asking for unloaded ones filters
    nothing out. *)
Theorem loaded_filter_is_void (m : Entries) (options : FindModelOptions) :
  Built m ->
  (want_loaded options = Some true -> find options m = [])
  /\ (want_loaded options = Some false ->
      find options m
      = find {| capability := capability options;
                want_latency := want_latency options;
                want_inference := want_inference options;
                minContext := minContext options;
                want_loaded := None |} m).
Proof.
  intros Hb. destruct (built_keeps Hb) as [_ Hp].
  assert (Hl : Forall (fun e => loaded e = false) (list m)).
  { unfold list. rewrite Forall_forall in *. intros e He.
    apply in_map_iff in He. destruct He as [kv [<- Hkv]].
    now destruct (Hp _ Hkv) as (_ & H & _). }
  unfold find. split; intros Hw.
  - induction Hl as [|e l He _ IH]; [reflexivity|].
    cbn. unfold matches at 1, other_loaded. rewrite Hw, He. cbn.
    rewrite IH.
    destruct (lacks_capability options e), (other_latency options e),
      (other_inference options e), (below_minContext options e);
      reflexivity.
  - induction Hl as [|e l He _ IH]; [reflexivity|].
    cbn. rewrite IH. unfold matches, other_loaded. cbn. rewrite Hw, He.
    reflexivity.
Qed.

(** X3. [add]: an identifier already present makes it throw; a new one is
    put at the end of the catalog, as an unloaded model, can be looked up at
    once, and leaves every other identifier as it was. *)
Theorem add_appends (k : JsString) (entry : RegistryEntryInput) (m : Entries) :
  (has k m = true ->
   add k entry m
   = inl (new_Error (lit "Model with id '" ++ k ++ lit "' already exists")))
  /\ (has k m = false ->
      add k entry m = inr (m ++ [(k, registered k entry)], registered k entry)
      /\ list (m ++ [(k, registered k entry)])
         = list m ++ [registered k entry]
      /\ get k (m ++ [(k, registered k entry)]) = Some (registered k entry)
      /\ (forall k', k' <> k ->
                     get k' (m ++ [(k, registered k entry)]) = get k' m)
      /\ count (m ++ [(k, registered k entry)]) = S (count m)).
Proof.
  unfold has, add. split; intros H; rewrite H; [reflexivity|].
  split; [|split; [|split; [|split]]].
  - unfold registerEntry, registered. cbn [snd].
    now rewrite (@set_fresh k _ m H).
  - unfold list. now rewrite map_app.
  - unfold get. rewrite <- (@set_fresh k (registered k entry) m H).
    apply get_set_same.
  - intros k' Hn. unfold get.
    rewrite <- (@set_fresh k (registered k entry) m H).
    now apply get_set_other.
  - unfold count. rewrite length_app. cbn. lia.
Qed.

(** X5. [remove]: it tells whether the identifier was there, after it the
    identifier is gone, every other one is looked up as before, and the
    remaining models keep their order; the count drops by one exactly when
    the identifier was there. *)
Theorem remove_forgets (k : JsString) (m : Entries) :
  snd (remove k m) = has k m
  /\ has k (fst (remove k m)) = false
  /\ (forall k', k' <> k -> get k' (fst (remove k m)) = get k' m)
  /\ fst (remove k m) = filter (fun kv => negb (JsString_eqb (fst kv) k)) m
  /\ (NoDup (keys m) ->
      count (fst (remove k m)) = if has k m then count m - 1 else count m).
Proof.
  cbn [remove fst snd]. unfold has, get, count.
  split; [reflexivity|]. split; [|split; [|split]].
  - unfold Map_has. now rewrite get_delete_same.
  - intros k' Hn. now apply get_delete_other.
  - reflexivity.
  - apply length_delete.
Qed.

(** X6. Adding a new identifier and removing it again gives the registry back. *)
Theorem add_then_remove (k : JsString) (entry : RegistryEntryInput)
  (m m' : Entries) (model : ModelRegistryEntry) :
  add k entry m = inr (m', model) ->
  fst (remove k m') = m.
Proof.
  unfold add. destruct (Map_has k m) eqn:H; [discriminate|].
  intros E. injection E as <- _. unfold registerEntry. cbn [fst remove].
  rewrite (@set_fresh k _ m H). unfold Map_delete.
  rewrite filter_app. cbn. rewrite eqb_refl. cbn. rewrite app_nil_r.
  apply (@delete_absent k m H).
Qed.

Lemma set_present_list (k : JsString) (v old : ModelRegistryEntry)
  (m : Entries) :
  Map_get k m = Some old ->
  exists pre post,
    m = pre ++ (k, old) :: post
    /\ Map_set k v m = pre ++ (k, v) :: post
    /\ ~ In k (keys pre).
Proof.
  induction m as [|[k' v'] m IH]; cbn; [discriminate|].
  destruct (eqb_spec k' k) as [->|Hn].
  - intros H. injection H as ->. exists [], m. cbn. auto.
  - intros H. destruct (IH H) as (pre & post & -> & E & Hp).
    exists ((k', v') :: pre), post. cbn. rewrite E.
    repeat split. intros [?|?]; [congruence|auto].
Qed.

(** X4. [update]: a missing identifier makes it throw. Otherwise the model
    stays where it is in the catalog and keeps its identifier, whatever the
    updates say about [id], as well as its name, size and load state; the
    fields named in the updates are replaced; nothing else in the registry
    changes. *)
Theorem update_in_place (k : JsString) (updates : EntryUpdates) (m : Entries) :
  (get k m = None ->
   update k updates m
   = inl (new_Error (lit "Model with id '" ++ k ++ lit "' not found")))
  /\ (forall existing,
        get k m = Some existing ->
        exists pre post,
          m = pre ++ (k, existing) :: post
          /\ update k updates m
             = inr (pre ++ (k, spread existing updates k) :: post,
                    spread existing updates k)
          /\ id (spread existing updates k) = k
          /\ name (spread existing updates k) = name existing
          /\ size_bytes (spread existing updates k) = size_bytes existing
          /\ loaded (spread existing updates k) = loaded existing
          /\ get k (pre ++ (k, spread existing updates k) :: post)
             = Some (spread existing updates k)
          /\ (forall k', k' <> k ->
                 get k' (pre ++ (k, spread existing updates k) :: post)
                 = get k' m)
          /\ count (pre ++ (k, spread existing updates k) :: post)
             = count m).
Proof.
  unfold get, update. split.
  - intros H. now rewrite H.
  - intros existing H. rewrite H.
    destruct (@set_present_list k (spread existing updates k) existing m H)
      as (pre & post & Em & Es & Hp).
    exists pre, post. rewrite <- Es.
    repeat split; try assumption.
    + apply get_set_same.
    + intros k' Hn. now apply get_set_other.
    + unfold count. rewrite length_set. unfold Map_has. now rewrite H.
Qed.

(** X1. The constructor on a configuration whose keys are distinct: one
    unloaded model per key, in the order of the configuration, each under
    its key and named after the [id] of its input. *)
Theorem constructor_registers
  (config : Datatypes.list (JsString * RegistryEntryInput)) :
  NoDup (List.map fst config) ->
  ModelRegistry config
  = List.map (fun kv => (fst kv, registered (fst kv) (snd kv))) config.
Proof.
  unfold ModelRegistry.
  assert (G : forall m,
             NoDup (keys m ++ List.map fst config) ->
             fold_left (fun m kv => fst (registerEntry (fst kv) (snd kv) m))
               config m
             = m ++ List.map
                      (fun kv => (fst kv, registered (fst kv) (snd kv)))
                      config).
  { induction config as [|[k e] config IH]; intros m Hn.
    - cbn. now rewrite app_nil_r.
    - cbn [fold_left List.map fst snd] in *.
      assert (Hk : Map_has k m = false).
      { apply has_false_iff. intros Hin.
        apply NoDup_remove_2 in Hn. apply Hn. apply in_or_app. now left. }
      unfold registerEntry at 2. cbn [fst].
      rewrite (@set_fresh k _ m Hk). rewrite IH.
      + now rewrite <- app_assoc.
      + unfold keys. rewrite map_app, <- app_assoc. exact Hn. }
  intros H. apply (G []). exact H.
Qed.

Lemma get_app_fresh (k k' : JsString) (v : ModelRegistryEntry) (o : Entries) :
  Map_has k' o = false ->
  Map_get k (o ++ [(k', v)])
  = if JsString_eqb k' k then Some v else Map_get k o.
Proof.
  intros H. rewrite <- (@set_fresh k' v o H).
  destruct (eqb_spec k' k) as [->|Hn].
  - apply get_set_same.
  - apply get_set_other. congruence.
Qed.

Lemma get_insert_index (i : N) (k k' : JsString) (v : ModelRegistryEntry)
  (o : JsObject) :
  Map_has k' o = false ->
  Map_get k (insert_index i k' v o)
  = if JsString_eqb k' k then Some v else Map_get k o.
Proof.
  unfold Map_has. induction o as [|[k0 v0] o IH]; cbn; [reflexivity|].
  destruct (eqb_spec k0 k') as [->|Hn0]; [discriminate|]. intros H.
  destruct (array_index k0) as [j|]; [destruct (j <? i)%N|]; cbn;
    try reflexivity.
  rewrite (IH H).
  destruct (eqb_spec k0 k) as [->|Hn]; [|reflexivity].
  now rewrite (eqb_neq (a := k') (b := k)) by congruence.
Qed.

Lemma get_define (k k' : JsString) (v : ModelRegistryEntry) (o : JsObject) :
  Map_get k (define k' v o)
  = if JsString_eqb k' k then Some v else Map_get k o.
Proof.
  unfold define. destruct (Map_has k' o) eqn:H.
  - destruct (eqb_spec k' k) as [->|Hn].
    + apply get_set_same.
    + apply get_set_other. congruence.
  - destruct (array_index k') as [i|].
    + now apply get_insert_index.
    + now apply get_app_fresh.
Qed.

Lemma length_insert_index (i : N) (k : JsString) (v : ModelRegistryEntry)
  (o : JsObject) :
  List.length (insert_index i k v o) = S (List.length o).
Proof.
  induction o as [|[k0 v0] o IH]; cbn; [reflexivity|].
  destruct (array_index k0) as [j|]; [destruct (j <? i)%N|]; cbn;
    try reflexivity.
  now rewrite IH.
Qed.

Lemma length_define (k : JsString) (v : ModelRegistryEntry) (o : JsObject) :
  List.length (define k v o)
  = if Map_has k o then List.length o else S (List.length o).
Proof.
  unfold define. destruct (Map_has k o) eqn:H.
  - rewrite length_set. now rewrite H.
  - destruct (array_index k).
    + apply length_insert_index.
    + rewrite length_app. cbn. lia.
Qed.

Lemma has_define (k k' : JsString) (v : ModelRegistryEntry) (o : JsObject) :
  Map_has k (define k' v o) = JsString_eqb k' k || Map_has k o.
Proof.
  unfold Map_has. rewrite get_define.
  now destruct (JsString_eqb k' k).
Qed.

Lemma has_set (k k' : JsString) (v : ModelRegistryEntry) (m : Entries) :
  Map_has k (Map_set k' v m) = JsString_eqb k' k || Map_has k m.
Proof.
  unfold Map_has. destruct (eqb_spec k' k) as [->|Hn].
  - now rewrite get_set_same.
  - rewrite get_set_other by congruence. reflexivity.
Qed.

Lemma get_set (k k' : JsString) (v : ModelRegistryEntry) (m : Entries) :
  Map_get k (Map_set k' v m)
  = if JsString_eqb k' k then Some v else Map_get k m.
Proof.
  destruct (eqb_spec k' k) as [->|Hn].
  - apply get_set_same.
  - apply get_set_other. congruence.
Qed.

(** Folding pairs with distinct keys into a map-like structure whose
    insertion obeys the lookup law: every pair can be looked up, the size
    grows by the number of pairs that are new. *)
Section Folding.
Variable put : JsString -> ModelRegistryEntry -> Entries -> Entries.
Hypothesis get_put : forall k k' v o,
  Map_get k (put k' v o) = if JsString_eqb k' k then Some v else Map_get k o.
Hypothesis length_put : forall k v o,
  List.length (put k v o)
  = if Map_has k o then List.length o else S (List.length o).

Lemma fold_get (pairs : Entries) (o : Entries) (k : JsString) :
  NoDup (keys pairs) ->
  Map_get k (fold_left (fun acc kv => put (fst kv) (snd kv) acc) pairs o)
  = match Map_get k pairs with
    | Some v => Some v
    | None => Map_get k o
    end.
Proof.
  revert o. induction pairs as [|[k' v'] pairs IH]; intros o Hn;
    [reflexivity|].
  inversion Hn as [|? ? Hk Hn']; subst.
  cbn [fold_left fst snd Map_get]. rewrite IH by exact Hn'.
  rewrite get_put.
  destruct (eqb_spec k' k) as [->|Hne]; [|reflexivity].
  apply get_none_iff in Hk. now rewrite Hk.
Qed.

Lemma fold_length (pairs : Entries) (o : Entries) :
  NoDup (keys pairs) ->
  (forall k, In k (keys pairs) -> Map_has k o = false) ->
  List.length (fold_left (fun acc kv => put (fst kv) (snd kv) acc) pairs o)
  = List.length o + List.length pairs.
Proof.
  revert o. induction pairs as [|[k' v'] pairs IH]; intros o Hn Hf.
  - cbn. lia.
  - inversion Hn as [|? ? Hk Hn']; subst.
    cbn [fold_left fst snd]. rewrite IH.
    + rewrite length_put, Hf by now left. cbn. lia.
    + exact Hn'.
    + intros k Hin. unfold Map_has. rewrite get_put.
      destruct (eqb_spec k' k) as [->|Hne]; [tauto|].
      apply Hf. now right.
Qed.

End Folding.

Lemma fold_keys_NoDup (pairs : Entries) :
  NoDup (keys pairs) -> NoDup (keys (Object_fromEntries pairs)).
Proof.
  unfold Object_fromEntries.
  assert (G : forall o, NoDup (keys o) ->
                        NoDup (keys (fold_left
                                       (fun o kv => define (fst kv) (snd kv) o)
                                       pairs o))).
  { induction pairs as [|[k v] pairs IH]; intros o Ho; [exact Ho|].
    cbn [fold_left fst snd]. apply IH. unfold define.
    destruct (Map_has k o) eqn:H; [now apply NoDup_set|].
    destruct (array_index k) as [i|].
    - clear IH. apply has_false_iff in H.
      induction o as [|[k0 v0] o IHo]; cbn.
      + repeat constructor. intros [].
      + inversion Ho as [|? ? Hk0 Ho']; subst.
        assert (Hfresh : ~ In k (k0 :: keys o)) by exact H.
        destruct (array_index k0) as [j|]; [destruct (j <? i)%N|]; cbn;
          try (constructor; [exact Hfresh|exact Ho]).
        constructor.
        * intros Hin.
          assert (Hh : Map_has k0 (insert_index i k v o) = true)
            by now apply has_iff_key.
          unfold Map_has in Hh. rewrite get_insert_index in Hh.
          -- destruct (eqb_spec k k0) as [->|Hne].
             ++ apply Hfresh. now left.
             ++ apply Hk0. apply has_iff_key. exact Hh.
          -- apply has_false_iff. intros Hin'. apply Hfresh. now right.
        * apply IHo; [exact Ho'|]. intros Hin. apply H. now right.
    - rewrite <- (@set_fresh k v o H). now apply NoDup_set. }
  intros _. apply G. constructor.
Qed.

(** X10. [fromObject(toObject())] on a registry without repeated identifiers:
    every identifier is looked up as before and the count is the same. When
    no identifier is an array index (a canonical decimal numeral), the
    registry comes back unchanged, order included. *)
Theorem object_round_trip (m old : Entries) :
  NoDup (keys m) ->
  (forall k, get k (fromObject (toObject m) old) = get k m)
  /\ count (fromObject (toObject m) old) = count m
  /\ ((forall k, In k (keys m) -> array_index k = None) ->
      toObject m = m /\ fromObject (toObject m) old = m).
Proof.
  intros Hn. unfold get, count, fromObject, toObject, Object_entries, clear.
  assert (Hget : forall k, Map_get k (Object_fromEntries m) = Map_get k m).
  { intros k. unfold Object_fromEntries.
    rewrite (fold_get define get_define) by exact Hn.
    now destruct (Map_get k m). }
  assert (Hlen : List.length (Object_fromEntries m) = List.length m).
  { unfold Object_fromEntries.
    rewrite (fold_length define get_define length_define) by (auto).
    reflexivity. }
  pose proof (@fold_keys_NoDup m Hn) as Hn2.
  split; [|split].
  - intros k. rewrite (fold_get Map_set get_set) by exact Hn2.
    rewrite Hget. now destruct (Map_get k m).
  - rewrite (fold_length Map_set get_set length_set) by auto.
    exact Hlen.
  - intros Hidx.
    assert (E1 : forall o,
               NoDup (keys o ++ keys m) ->
               fold_left (fun o kv => define (fst kv) (snd kv) o) m o
               = o ++ m).
    { clear Hget Hlen Hn2 Hn. induction m as [|[k v] m IH]; intros o Ho.
      - cbn. now rewrite app_nil_r.
      - cbn [fold_left fst snd]. unfold define at 2.
        assert (Hk : Map_has k o = false).
        { apply has_false_iff. intros Hin. apply NoDup_remove_2 in Ho.
          apply Ho. apply in_or_app. now left. }
        rewrite Hk, (Hidx k) by now left.
        rewrite IH.
        + now rewrite <- app_assoc.
        + intros k' Hin. apply Hidx. now right.
        + unfold keys in *. rewrite map_app, <- app_assoc. exact Ho. }
    assert (E2 : forall o,
               NoDup (keys o ++ keys m) ->
               fold_left (fun acc kv => Map_set (fst kv) (snd kv) acc) m o
               = o ++ m).
    { clear Hget Hlen Hn2 Hn E1 Hidx. induction m as [|[k v] m IH];
        intros o Ho.
      - cbn. now rewrite app_nil_r.
      - cbn [fold_left fst snd].
        assert (Hk : Map_has k o = false).
        { apply has_false_iff. intros Hin. apply NoDup_remove_2 in Ho.
          apply Ho. apply in_or_app. now left. }
        rewrite (@set_fresh k v o Hk), IH.
        + now rewrite <- app_assoc.
        + unfold keys in *. rewrite map_app, <- app_assoc. exact Ho. }
    assert (T : Object_fromEntries m = m) by (apply (E1 []); exact Hn).
    split; [exact T|]. rewrite T. apply (E2 []). exact Hn.
Qed.

End RegistryProperties.

(* ================================================================== *)
(** * Properties of [createError] and of [request] *)
(* ================================================================== *)

Module ErrorProperties.
Import Js Client Errors.

Lemma startsWith_iff (s p : JsString) :
  startsWith s p = true <-> exists rest, s = p ++ rest.
Proof.
  revert s. induction p as [|c p IH]; intros s; cbn.
  - split; [intros _; now exists s|now destruct s].
  - destruct s as [|d s]; cbn [startsWith app].
    + split; [discriminate|]. intros [rest H]. discriminate.
    + rewrite andb_true_iff, N.eqb_eq, IH. split.
      * intros [-> [rest ->]]. eauto.
      * intros [rest H]. injection H as -> ->. eauto.
Qed.

Lemma quoted_run_iff (s : JsString) (seen : bool) :
  quoted_run s seen = true <->
  exists run post,
    s = run ++ 39%N :: post
    /\ Forall (fun c => c <> 39%N) run
    /\ (seen = true \/ run <> []).
Proof.
  revert seen. induction s as [|c s IH]; intros seen; cbn.
  - split; [discriminate|]. intros (run & post & H & _).
    destruct run; discriminate.
  - destruct (N.eqb_spec c 39) as [->|Hc].
    + split.
      * intros ->. exists [], s. auto.
      * intros (run & post & H & Hrun & Hs).
        destruct run as [|d run].
        -- destruct Hs as [Hs|Hs]; [exact Hs|congruence].
        -- injection H as <- _. inversion Hrun; congruence.
    + rewrite IH. split.
      * intros (run & post & -> & Hrun & _).
        exists (c :: run), post. repeat split; auto. right. discriminate.
      * intros (run & post & H & Hrun & _).
        destruct run as [|d run]; [injection H as -> _; congruence|].
        injection H as <- ->. inversion Hrun; subst.
        exists run, post. auto.
Qed.

Lemma matches_model_unfold (s : JsString) :
  matches_model s
  = (startsWith s (lit "Model '") && quoted_run (skipn 7 s) false)
    || match s with
       | [] => false
       | _ :: s' => matches_model s'
       end.
Proof. destruct s; reflexivity. Qed.

Lemma skipn_marker (rest : JsString) :
  skipn 7 (lit "Model '" ++ rest) = rest.
Proof. reflexivity. Qed.

(** The matcher of [createError] finds exactly the messages that the
    regular expression [/Model '([^']+)'/] matches. *)
Theorem matches_model_iff (msg : JsString) :
  matches_model msg = true <-> mentions_model msg.
Proof.
  unfold mentions_model. induction msg as [|c msg IH].
  - split; [discriminate|]. intros (pre & run & post & H & _).
    destruct pre; discriminate.
  - rewrite matches_model_unfold, orb_true_iff, andb_true_iff, IH.
    rewrite startsWith_iff. split.
    + intros [[[rest Hr] Hq]|(pre & run & post & -> & Hn & Hf)].
      * rewrite Hr, skipn_marker in Hq. apply quoted_run_iff in Hq.
        destruct Hq as (run & post & -> & Hf & [Hs|Hs]); [discriminate|].
        exists [], run, post. rewrite Hr. auto.
      * exists (c :: pre), run, post. auto.
    + intros (pre & run & post & H & Hn & Hf).
      destruct pre as [|d pre].
      * left. cbn [app] in H. split; [eauto|].
        rewrite H. change (skipn 7 (lit "Model '" ++ run ++ 39%N :: post))
          with (run ++ 39%N :: post).
        apply quoted_run_iff. exists run, post. auto.
      * right. injection H as _ ->. exists pre, run, post. auto.
Qed.

(** X11. The classification of [createError]. The message and the status are
    kept as they come. A 404 whose text mentions a model is a
    [ModelNotFoundError], a 412 whose text mentions a model is a
    [ModelNotLoadedError], and everything else, a 404 without such a mention
    included, is a plain [OpenLLMError] with the code [API_ERROR]. *)
Theorem createError_classifies (st : N) (msg : JsString) :
  message (createError st msg) = msg
  /\ statusCode (createError st msg) = Some (Z.of_N st)
  /\ (st = 404%N -> mentions_model msg ->
      name (createError st msg) = lit "ModelNotFoundError"
      /\ code (createError st msg) = Some (lit "MODEL_NOT_FOUND"))
  /\ (st = 412%N -> mentions_model msg ->
      name (createError st msg) = lit "ModelNotLoadedError"
      /\ code (createError st msg) = Some (lit "MODEL_NOT_LOADED"))
  /\ ((st <> 404%N /\ st <> 412%N) \/ ~ mentions_model msg ->
      name (createError st msg) = lit "OpenLLMError"
      /\ code (createError st msg) = Some (lit "API_ERROR")).
Proof.
  assert (M : matches_model msg = true <-> mentions_model msg)
    by apply matches_model_iff.
  unfold createError.
  destruct (matches_model msg);
    destruct (N.eqb_spec st 404) as [->|H4];
    try destruct (N.eqb_spec 404 412) as [E|_]; try discriminate E;
    try destruct (N.eqb_spec st 412) as [->|H2];
    cbn [andb name message code statusCode];
    (split; [reflexivity|]); (split; [reflexivity|]);
    (split; [|split]).
  all: try (intros; split; reflexivity).
  all: try (intros; congruence).
  all: try (intros H1 H3; apply M in H3; discriminate H3).
  all: try (intros [[? ?]|H]; [congruence|exfalso; apply H, M; reflexivity]).
Qed.

Lemma quoted_run_seen (run post : JsString) :
  quoted_run (run ++ 39%N :: post) true = true.
Proof.
  induction run as [|c run IH]; cbn; [reflexivity|].
  destruct (c =? 39)%N; [reflexivity|exact IH].
Qed.

Lemma mentions_quoted (c : CodeUnit) (modelId post : JsString) :
  c <> 39%N ->
  matches_model (lit "Model '" ++ (c :: modelId) ++ 39%N :: post) = true.
Proof.
  intros Hc. rewrite matches_model_unfold. apply orb_true_iff. left.
  apply andb_true_iff. split.
  - apply startsWith_iff. eauto.
  - rewrite skipn_marker. cbn [app quoted_run].
    apply N.eqb_neq in Hc. rewrite Hc. apply quoted_run_seen.
Qed.

(** X12. The error texts of the error classes are recognised: given as the body
    of a 404 (412) response, the message of a [ModelNotFoundError]
    ([ModelNotLoadedError]) for an identifier that is not empty and does not
    begin with an apostrophe makes [createError] build an error with the
    same name, message, code and status. The message for the empty
    identifier is not recognised: it gives a plain [OpenLLMError] with the
    code [API_ERROR]. *)
Theorem error_classes_recognised :
  (forall (c : CodeUnit) (modelId : JsString),
     c <> 39%N ->
     createError 404 (message (ModelNotFoundError (c :: modelId)))
     = ModelNotFoundError (c :: modelId)
     /\ createError 412 (message (ModelNotLoadedError (c :: modelId)))
        = ModelNotLoadedError (c :: modelId))
  /\ createError 404 (message (ModelNotFoundError []))
     = OpenLLMError (lit "Model '' not found") (Some (lit "API_ERROR"))
         (Some 404%Z)
  /\ createError 412 (message (ModelNotLoadedError []))
     = OpenLLMError (lit "Model '' is not loaded") (Some (lit "API_ERROR"))
         (Some 412%Z).
Proof.
  split; [|split; reflexivity].
  intros c modelId Hc.
  unfold createError, ModelNotFoundError, ModelNotLoadedError.
  cbn [message].
  change (lit "' not found") with (39%N :: lit " not found").
  change (lit "' is not loaded") with (39%N :: lit " is not loaded").
  rewrite !(mentions_quoted _ _ Hc). split; reflexivity.
Qed.

End ErrorProperties.

Module RequestProperties.
Import Js Client Stream MonadFacts LoopFacts Requests.

Section Request.
Variable this : OpenLLMClient.

Lemma await_late {A} (d : N) (r : Thrown + A) :
  (timeout this <= d)%N ->
  await d r (armed this)
  = {| final := at_time (timeout this) (armed this); trace := [];
       result := inl (ThrowError AbortError) |}.
Proof.
  intros H. unfold await. cbn [timer now armed]. rewrite N.add_0_l.
  apply N.leb_le in H. now rewrite H.
Qed.

Lemma await_in_time {A} (d : N) (r : Thrown + A) :
  (d < timeout this)%N ->
  await d r (armed this)
  = {| final := advance d (armed this); trace := []; result := r |}.
Proof.
  intros H. unfold await. cbn [timer now armed]. rewrite N.add_0_l.
  apply N.leb_gt in H. now rewrite H.
Qed.

Lemma rethrow_run {A} (t : Thrown) (s : State) :
  rethrow (A := A) this t s
  = {| final := at_time (now s) s; trace := [];
       result := inl (relabel this t) |}.
Proof.
  unfold rethrow, relabel, clearTimeout. repeat run_step.
  destruct t as [err|]; [|reflexivity].
  destruct (JsString_eqb (name err) (lit "AbortError")); reflexivity.
Qed.

Lemma perform_unfold (x : Exchange) :
  perform this x
  = try_catch
      (response <- await (reply_delay x) (reply x) ;;
       clearTimeout ;;
       (if negb (reply_ok response) then
          errorText <- await (reply_text_delay response)
                         (reply_text response) ;;
          throw (ThrowError (createError (reply_status response) errorText))
        else ret tt) ;;
       await (reply_json_delay response) (reply_json response))
      (rethrow this) (armed this).
Proof.
  unfold perform, request, setTimeout. repeat run_step.
  unfold initial, armed.
  cbn [now timer decoder buffer accumulatedText tokenCount].
  now rewrite N.add_0_l.
Qed.

Lemma relabel_abort : relabel this (ThrowError AbortError)
                      = ThrowError (requestTimeout this).
Proof. reflexivity. Qed.

(** The try block of [request], as a run. *)
Lemma request_body (x : Exchange) :
  exists s ok_path,
    (ok_path = true -> timer s = None)
    /\ ((response <- await (reply_delay x) (reply x) ;;
         clearTimeout ;;
         (if negb (reply_ok response) then
            errorText <- await (reply_text_delay response)
                           (reply_text response) ;;
            throw (ThrowError
                     (createError (reply_status response) errorText))
          else ret tt) ;;
         await (reply_json_delay response) (reply_json response))
          (armed this)
        = {| final := s; trace := [];
             result :=
               if (timeout this <=? reply_delay x)%N
               then inl (ThrowError AbortError)
               else match reply x with
                    | inl t => inl t
                    | inr r =>
                        if reply_ok r then reply_json r
                        else match reply_text r with
                             | inl t => inl t
                             | inr msg =>
                                 inl (ThrowError
                                        (createError (reply_status r) msg))
                             end
                    end |})
    /\ (ok_path = false ->
        forall v,
          (if (timeout this <=? reply_delay x)%N
           then inl (ThrowError AbortError)
           else match reply x with
                | inl t => inl t
                | inr r =>
                    if reply_ok r then reply_json r
                    else match reply_text r with
                         | inl t => inl t
                         | inr msg =>
                             inl (ThrowError
                                    (createError (reply_status r) msg))
                         end
                end) <> inr v).
Proof.
  destruct (timeout this <=? reply_delay x)%N eqn:Hd.
  - apply N.leb_le in Hd. eexists. exists false.
    split; [discriminate|]. split; [|discriminate].
    apply bind_run_throws. apply (await_late _ Hd).
  - apply N.leb_gt in Hd.
    destruct (reply x) as [t|r] eqn:Hr.
    + eexists. exists false.
      split; [discriminate|]. split; [|discriminate].
      apply bind_run_throws. apply (await_in_time _ Hd).
    + erewrite bind_run by (apply (await_in_time _ Hd)).
      rewrite prepend_nil. unfold clearTimeout. repeat run_step.
      destruct (reply_ok r); cbn [negb].
      * run_step. eexists. exists true.
        split; [|split; [apply await_run; reflexivity|discriminate]].
        reflexivity.
      * destruct (reply_text r) as [t|msg] eqn:Ht.
        -- eexists. exists false.
           split; [discriminate|]. split; [|discriminate].
           apply bind_run_throws; apply bind_run_throws.
           apply await_run; reflexivity.
        -- eexists. exists false.
           split; [discriminate|]. split; [|discriminate].
           apply bind_run_throws.
           erewrite bind_run by (apply await_run; reflexivity).
           rewrite prepend_nil. reflexivity.
Qed.

(** X13. [request] from the caller's side, for a timeout that the timers of
    the platform keep (from 1 to [TIMEOUT_MAX] ms). It resolves, with the
    parsed body, exactly when [fetch] settles before the deadline with a 2xx
    status and the body parses. Otherwise it rejects: with the timeout error
    when the deadline passes first, with the error that [createError] builds
    from status and text for a status outside 2xx, and with whatever
    [fetch], [text()] or [json()] rejected with otherwise; only an error
    named [AbortError] is replaced by the timeout error. A value that is no
    [Error] is thrown again as it is: the call rejects with that very value.
    It calls nothing back and leaves no timer armed. *)
Theorem request_outcome (x : Exchange) :
  kept_by_timers (timeout this) ->
  result (perform this x) = outcome_of this x
  /\ trace (perform this x) = []
  /\ timer (final (perform this x)) = None
  /\ ((exists v, result (perform this x) = inr v) <->
      (reply_delay x < timeout this)%N
      /\ exists r v, reply x = inr r /\ reply_ok r = true
                     /\ reply_json r = inr v)
  /\ (forall value,
        (reply_delay x < timeout this)%N ->
        reply x = inl (ThrowOther value)
        \/ (exists r, reply x = inr r /\ reply_ok r = true
                      /\ reply_json r = inl (ThrowOther value))
        \/ (exists r, reply x = inr r /\ reply_ok r = false
                      /\ reply_text r = inl (ThrowOther value)) ->
        result (perform this x) = inl (ThrowOther value)).
Proof.
  intros _. rewrite perform_unfold.
  destruct (request_body x) as (s & okp & Hs & E & Hno).
  assert (R : result
                (try_catch
                   (response <- await (reply_delay x) (reply x) ;;
                    clearTimeout ;;
                    (if negb (reply_ok response) then
                       errorText <- await (reply_text_delay response)
                                      (reply_text response) ;;
                       throw (ThrowError
                                (createError (reply_status response)
                                   errorText))
                     else ret tt) ;;
                    await (reply_json_delay response) (reply_json response))
                   (rethrow this) (armed this))
              = outcome_of this x).
  { unfold try_catch. rewrite E. cbn [result final trace]. unfold outcome_of.
    destruct (timeout this <=? reply_delay x)%N.
    - rewrite rethrow_run. reflexivity.
    - destruct (reply x) as [t|r].
      + rewrite rethrow_run. reflexivity.
      + destruct (reply_ok r).
        * destruct (reply_json r); [rewrite rethrow_run|]; reflexivity.
        * destruct (reply_text r); rewrite rethrow_run; [reflexivity|].
          cbn [result]. unfold relabel.
          now rewrite InvokeFacts.createError_not_abort. }
  split; [exact R|]. split; [|split; [|split]].
  - unfold try_catch. rewrite E. cbn [result final trace].
    match goal with
    | |- trace (match ?r with inl t => _ | inr a => _ end) = _ =>
        destruct r; [rewrite rethrow_run|]; reflexivity
    end.
  - unfold try_catch. rewrite E. cbn [result final trace].
    match goal with
    | |- timer (final (match ?r with inl t => _ | inr a => _ end)) = _ =>
        destruct r as [t|v] eqn:Er; [rewrite rethrow_run; reflexivity|]
    end.
    destruct okp; [now apply Hs|].
    exfalso. exact (Hno eq_refl v eq_refl).
  - rewrite R. unfold outcome_of.
    destruct (N.leb_spec (timeout this) (reply_delay x)) as [Hd|Hd].
    + split; [intros [v H]; discriminate|]. intros [H _]. lia.
    + destruct (reply x) as [t|r].
      * split; [intros [v H]; discriminate|].
        intros (_ & r & v & H & _). discriminate.
      * destruct (reply_ok r) eqn:Hok.
        -- destruct (reply_json r) as [t|v] eqn:Hj.
           ++ split; [intros [v H]; discriminate|].
              intros (_ & r' & v & H & _ & H'). congruence.
           ++ split; [|eauto]. intros _. split; [exact Hd|].
              exists r, v. auto.
        -- split.
           ++ destruct (reply_text r); intros [v H]; discriminate.
           ++ intros (_ & r' & v & H & H' & _). congruence.
  - intros value Hd Hv. rewrite R. unfold outcome_of.
    replace (timeout this <=? reply_delay x)%N with false
      by (symmetry; apply N.leb_gt; exact Hd).
    destruct Hv as [H|[(r & H & Hok & Hj)|(r & H & Hok & Ht)]]; rewrite H.
    + reflexivity.
    + now rewrite Hok, Hj.
    + now rewrite Hok, Ht.
Qed.

End Request.
End RequestProperties.

(* ================================================================== *)
(** * More properties of [inferenceStream] *)
(* ================================================================== *)

Module StreamMore.
Import Js Client Stream JsFacts MonadFacts LoopFacts InvokeFacts Shape.

Section More.
Context {P : Platform}.
Variable this : OpenLLMClient.
Variable data : InferenceRequest.
Variable options : StreamOptions.

(** The [try] block throws when no stream is established. *)
Lemma try_block_refused (w : World) :
  established this w = None ->
  exists s ev t,
    try_block data options w (armed this)
    = {| final := s; trace := ev; result := inl t |}.
Proof.
  unfold established.
  destruct (timeout this <=? fetch_delay w)%N eqn:Hd.
  - intros _. apply N.leb_le in Hd.
    rewrite (try_block_abort this data options w Hd). eauto.
  - apply N.leb_gt in Hd. destruct (fetch_result w) as [t|r] eqn:Hf.
    + intros _. rewrite (try_block_rejects this data options w Hd Hf). eauto.
    + rewrite (try_block_response this data options w Hd Hf).
      destruct (ok r) eqn:Hok; cbn [negb].
      * intros Hb. rewrite Hb. run_step. cbv zeta. unfold call_onError.
        exists (connected w),
          (if has_onError options
           then [OnError (new_Error (lit "No response body"))] else []),
          (ThrowError (new_Error (lit "No response body"))).
        destruct (has_onError options); repeat run_step; reflexivity.
      * intros _. destruct (text_result r) as [t|msg] eqn:Ht.
        -- do 3 eexists. apply bind_run_throws. apply bind_run_throws.
           rewrite await_run by reflexivity. reflexivity.
        -- exists (advance (text_delay r) (connected w)),
             (if has_onError options
              then [OnError (createError (status r) msg)] else []),
             (ThrowError (createError (status r) msg)).
           apply bind_run_throws.
           erewrite bind_run
             by (rewrite await_run by reflexivity; reflexivity).
           rewrite prepend_nil. cbv zeta. unfold call_onError.
           destruct (has_onError options); repeat run_step; reflexivity.
Qed.

(** X14. Whatever happens, the call ends with its timer cleared. *)
Theorem timer_always_cleared (w : World) :
  timer (final (invoke this data options w)) = None.
Proof.
  destruct (established this w) as [b|] eqn:He.
  - now destruct (@StreamProperties.invoke_established_clock P this data options
                   w b He).
  - rewrite invoke_unfold.
    destruct (try_block_refused w He) as (s & ev & t & E).
    erewrite try_catch_run_throws by exact E.
    rewrite on_catch_run. reflexivity.
Qed.

(** X15. A rejection with a value that is no [Error] is swallowed: the call
    calls no error callback and returns normally, whether the value comes
    from [fetch] or from a read; the promise never rejects with such a
    value. *)
Theorem non_errors_are_swallowed (w : World) :
  (forall value,
     (fetch_delay w < timeout this)%N ->
     fetch_result w = inl (ThrowOther value) ->
     trace (invoke this data options w) = []
     /\ result (invoke this data options w) = inr tt)
  /\ (forall b value,
        established this w = Some b ->
        ending b = ReadFail (ThrowOther value) ->
        trace (invoke this data options w)
        = lines_events data options [] 0 (received this w)
        /\ result (invoke this data options w) = inr tt)
  /\ (forall value,
        result (invoke this data options w) <> inl (ThrowOther value)).
Proof.
  split; [|split].
  - intros value Hd Hf.
    exact (invoke_fetch_rejects this data options w Hd Hf).
  - intros b value He Hend.
    destruct (invoke_observed this data options w) as [Ht Hr].
    rewrite He, Hend in Ht, Hr. cbn in Ht, Hr.
    rewrite app_nil_r in Ht. auto.
  - intros value.
    destruct (invoke_observed this data options w) as [_ Hr]. rewrite Hr.
    assert (C : forall t, catch_result this t <> inl (ThrowOther value)).
    { intros t. unfold catch_result. now destruct (reported this t). }
    destruct (established this w) as [b|].
    + destruct (ending b); [discriminate|apply C].
    + unfold refused_result.
      destruct (timeout this <=? fetch_delay w)%N; [apply C|].
      destruct (fetch_result w) as [t|r]; [apply C|].
      destruct (ok r); [discriminate|].
      destruct (text_result r); [apply C|discriminate].
Qed.

(** X16. An error named [AbortError] is reported as a timeout wherever it comes
    from: a read that rejects with one, long after the timer was cleared and
    whatever the clock says, makes the call fail with the timeout error. *)
Theorem abort_named_errors_become_timeouts (w : World) (b : Body)
  (e : JsError) :
  established this w = Some b ->
  ending b = ReadFail (ThrowError e) ->
  name e = lit "AbortError" ->
  result (invoke this data options w) = inl (ThrowError (timeoutError this))
  /\ filter is_OnError (trace (invoke this data options w))
     = (if has_onError options then [OnError (timeoutError this)] else [])
  /\ timer (connected w) = None.
Proof.
  intros He Hend Hn.
  destruct (invoke_observed this data options w) as [_ Hr].
  rewrite He, Hend in Hr. rewrite invoke_errors, He, Hend, Hr.
  unfold end_events, end_result, catch_events, catch_result, reported.
  rewrite Hn.
  replace (JsString_eqb (lit "AbortError") (lit "AbortError")) with true
    by reflexivity.
  auto.
Qed.

Lemma heard_lines (acc : JsString) (n : nat) (lines : list JsString) :
  lines_events data options acc n lines
  = filter (heard options) (lines_events data all_callbacks acc n lines).
Proof.
  revert acc n. induction lines as [|l lines IH]; intros acc n;
    [reflexivity|].
  cbn [lines_events]. rewrite filter_app, <- IH. f_equal.
  unfold line_events. destruct (classify l) as [|p|v f c]; try reflexivity.
  cbn [filter heard all_callbacks has_onComplete]. rewrite andb_true_r.
  destruct c; cbn [andb filter heard]; [|reflexivity].
  now destruct (has_onComplete options).
Qed.

Lemma heard_catch (t : Thrown) :
  catch_events options this t
  = filter (heard options) (catch_events all_callbacks this t).
Proof.
  unfold catch_events. destruct (reported this t); [|reflexivity].
  cbn. now destruct (has_onError options).
Qed.

(** X17. Leaving a callback out removes its calls and changes nothing else: the
    trace is that of a caller with all callbacks, without the calls of the
    missing ones, and the call resolves or rejects in the same way. *)
Theorem missing_callbacks_only_mute (w : World) :
  trace (invoke this data options w)
  = filter (heard options) (trace (invoke this data all_callbacks w))
  /\ result (invoke this data options w)
     = result (invoke this data all_callbacks w).
Proof.
  destruct (invoke_observed this data options w) as [T1 R1].
  destruct (invoke_observed this data all_callbacks w) as [T2 R2].
  rewrite T1, T2, R1, R2. split; [|reflexivity].
  destruct (established this w) as [b|].
  - rewrite filter_app, <- heard_lines. f_equal.
    destruct (ending b); [reflexivity|apply heard_catch].
  - unfold refused_events.
    destruct (timeout this <=? fetch_delay w)%N; [apply heard_catch|].
    destruct (fetch_result w) as [t|r]; [apply heard_catch|].
    destruct (ok r).
    + cbn. now destruct (has_onError options).
    + destruct (text_result r); [apply heard_catch|].
      cbn. now destruct (has_onError options).
Qed.

Lemma only_errors_delivered (tr : list Event) :
  filter is_OnError tr = tr -> forall k, Delivered data k tr.
Proof.
  intros H.
  assert (F : Forall (fun e => is_OnError e = true) tr).
  { apply Forall_forall. intros x Hx. rewrite <- H in Hx.
    apply filter_In in Hx. tauto. }
  clear H. induction F as [|e tr He _ IH]; intros k; [constructor|].
  destruct e; try discriminate. constructor. apply IH.
Qed.

Lemma lines_delivered (tail : list Event) (lines : list JsString) :
  (forall k, Delivered data k tail) ->
  forall acc n,
    Delivered data n (lines_events data options acc n lines ++ tail).
Proof.
  intros Ht. induction lines as [|l lines IH]; intros acc n; [apply Ht|].
  cbn [lines_events]. unfold line_events, line_locals.
  destruct (classify l) as [|p|v f c]; cbn [fst snd app].
  - apply IH.
  - constructor. apply IH.
  - destruct (c && has_onComplete options); cbn [app];
      constructor; apply IH.
Qed.

(** The trace of every call has the shape [Delivered]. *)
Lemma invoke_delivered (w : World) :
  Delivered data 0 (trace (invoke this data options w)).
Proof.
  destruct (invoke_observed this data options w) as [Ht _]. rewrite Ht.
  destruct (established this w) as [b|].
  - apply lines_delivered. apply only_errors_delivered.
    apply end_events_errors.
  - apply only_errors_delivered. apply refused_events_errors.
Qed.

Lemma delivered_completion (n : nat) (tr : list Event) :
  Delivered data n tr ->
  forall pre r post,
    tr = pre ++ OnComplete r :: post ->
    exists v pre',
      pre = pre' ++ [OnToken v (text r) (tokens_generated r)]
      /\ tokens_generated r = n + count_events is_OnToken pre
      /\ r = completion data (text r) (tokens_generated r).
Proof.
  unfold count_events.
  induction 1 as [n|n payload tr _ IH|n err tr _ IH|n v acc tr _ IH
                  |n v acc tr _ IH]; intros pre r post E.
  - destruct pre; discriminate.
  - destruct pre as [|e pre]; [discriminate|]. injection E as <- E.
    destruct (IH _ _ _ E) as (v & pre' & -> & Hn & Hr).
    exists v, (ConsoleError payload :: pre'). auto.
  - destruct pre as [|e pre]; [discriminate|]. injection E as <- E.
    destruct (IH _ _ _ E) as (v & pre' & -> & Hn & Hr).
    exists v, (OnError err :: pre'). auto.
  - destruct pre as [|e pre]; [discriminate|]. injection E as <- E.
    destruct (IH _ _ _ E) as (v' & pre' & -> & Hn & Hr).
    exists v', (OnToken v acc (n + 1) :: pre'). repeat split; auto.
    cbn [app filter is_OnToken List.length]. lia.
  - destruct pre as [|e pre]; [discriminate|]. injection E as <- E.
    destruct pre as [|e pre].
    + injection E as <- _. exists v, []. cbn. repeat split; lia.
    + injection E as <- E.
      destruct (IH _ _ _ E) as (v' & pre' & -> & Hn & Hr).
      exists v', (OnToken v acc (n + 1)
                  :: OnComplete (completion data acc (n + 1)) :: pre').
      repeat split; auto.
      cbn [app filter is_OnToken List.length]. lia.
Qed.

(** X18. Every completion call comes right after a per-token call and repeats
    what that call was made with: its text is the text accumulated at that
    token and its count is the number of per-token calls made so far; the
    model is the one of the request and the finish reason is "stop". *)
Theorem completion_repeats_its_token (w : World) (pre post : list Event)
  (r : InferenceResponse) :
  trace (invoke this data options w) = pre ++ OnComplete r :: post ->
  exists v pre',
    pre = pre' ++ [OnToken v (text r) (tokens_generated r)]
    /\ tokens_generated r = count_events is_OnToken pre
    /\ model_id r = req_model_id data
    /\ finish_reason r = lit "stop".
Proof.
  intros E.
  destruct (delivered_completion (invoke_delivered w) _ _ _ E)
    as (v & pre' & Hp & Hn & Hr).
  exists v, pre'. repeat split; auto; rewrite Hr; reflexivity.
Qed.

End More.

(** ** White space around a line *)

Section Blanks.
Import Framing.

Lemma trimStart_blank_app (pre s : JsString) :
  blank pre = true -> trimStart (pre ++ s) = trimStart s.
Proof.
  induction pre as [|c pre IH]; [reflexivity|].
  cbn [blank forallb app trimStart]. intros H.
  apply andb_true_iff in H as [Hc Hp]. rewrite Hc. now apply IH.
Qed.

Lemma blank_rev (s : JsString) : blank (rev s) = blank s.
Proof.
  unfold blank. induction s as [|c s IH]; [reflexivity|].
  cbn [rev forallb]. rewrite forallb_app, IH. cbn [forallb].
  rewrite andb_true_r. apply andb_comm.
Qed.

Lemma trimEnd_app_blank (s post : JsString) :
  blank post = true -> trimEnd (s ++ post) = trimEnd s.
Proof.
  intros H. unfold trimEnd. rewrite rev_app_distr.
  rewrite trimStart_blank_app; [reflexivity|]. now rewrite blank_rev.
Qed.

Lemma trimStart_blank (s : JsString) : blank s = true -> trimStart s = [].
Proof.
  intros H. rewrite <- (app_nil_r s). now rewrite trimStart_blank_app.
Qed.

Lemma trimStart_app (s post : JsString) :
  trimStart (s ++ post)
  = if blank s then trimStart post else trimStart s ++ post.
Proof.
  induction s as [|c s IH]; [reflexivity|].
  cbn [app trimStart blank forallb].
  destruct (is_space c); [exact IH|reflexivity].
Qed.

Lemma trim_blank_around (pre line post : JsString) :
  blank pre = true -> blank post = true ->
  trim (pre ++ line ++ post) = trim line.
Proof.
  intros Hpre Hpost. unfold trim.
  rewrite trimStart_blank_app by exact Hpre. rewrite trimStart_app.
  destruct (blank line) eqn:Hl.
  - now rewrite (trimStart_blank post Hpost), (trimStart_blank line Hl).
  - now apply trimEnd_app_blank.
Qed.

Context {P : Platform}.
Variable data : InferenceRequest.
Variable options : StreamOptions.

(** X19. White space around a line does not count: the loop body does on a line
    with blanks before and after it, the carriage return of a CRLF line
    ending among them, what it does on the line alone. *)
Theorem blanks_around_a_line_ignored (pre line post : JsString) :
  blank pre = true -> blank post = true ->
  process_line data options (pre ++ line ++ post)
  = process_line data options line
  /\ classify (pre ++ line ++ post) = classify line.
Proof.
  intros Hpre Hpost. unfold process_line, classify, data_record.
  now rewrite (trim_blank_around pre line post Hpre Hpost).
Qed.

End Blanks.

(** ** Bytes after the last newline *)

Section Tail.
Import Framing TextDecoder.

Lemma lor_shift_high (cp x : N) :
  cp <> 0%N ->
  N.lor (N.shiftl cp 6) x <> 0%N /\ N.lor (N.shiftl cp 6) x <> 10%N.
Proof.
  intros Hcp.
  assert (B : N.testbit (N.lor (N.shiftl cp 6) x) (N.log2 cp + 6) = true).
  { rewrite N.lor_spec, N.shiftl_spec_high' by lia.
    rewrite N.add_sub, N.bit_log2 by exact Hcp. reflexivity. }
  split; intros E; rewrite E in B.
  - now rewrite N.bits_0 in B.
  - rewrite N.bits_above_log2 in B; [discriminate|].
    change (N.log2 10) with 3%N. lia.
Qed.

Lemma lead_well_formed (st : State) (b : byte) :
  well_formed st ->
  well_formed (fst (lead st (Byte.to_N b)))
  /\ (In 10%N (snd (lead st (Byte.to_N b))) -> b = newline).
Proof.
  intros Hst. unfold lead.
  destruct b; cbn -[well_formed]; (split; [|
    first [ intros [H|[]]; first [discriminate H|reflexivity]
          | intros [] ] ]);
    first [ exact Hst
          | unfold well_formed; cbn;
            repeat split; try lia;
            first [ right; left; discriminate
                  | right; right; repeat split; lia ] ].
Qed.

Lemma first_continuation (b : byte) :
  (144 <= Byte.to_N b)%N -> (Byte.to_N b <= 191)%N ->
  N.land (Byte.to_N b) 63 <> 0%N.
Proof. destruct b; cbn; intros; first [lia|discriminate]. Qed.

Lemma reset_well_formed (st : State) : well_formed (reset st).
Proof. unfold well_formed, reset. cbn. repeat split; lia. Qed.

(** What the handler does on a byte in a well-formed state. *)
Lemma handler_well_formed (st : State) (b : byte) :
  well_formed st ->
  well_formed (fst (handler st (Byte.to_N b)))
  /\ (In 10%N (snd (handler st (Byte.to_N b))) -> b = newline).
Proof.
  intros Hst. unfold handler.
  destruct (bytes_needed st =? 0)%N eqn:Hn; [now apply lead_well_formed|].
  apply N.eqb_neq in Hn.
  destruct ((lower st <=? Byte.to_N b) && (Byte.to_N b <=? upper st))%N
    eqn:Hr; cbn [negb].
  - apply andb_true_iff in Hr as [Hlo Hup].
    apply N.leb_le in Hlo. apply N.leb_le in Hup.
    destruct Hst as (Hl & Hu & Hopen).
    destruct (bytes_seen st + 1 =? bytes_needed st)%N eqn:Hfin;
      cbn [fst snd].
    + split; [apply reset_well_formed|].
      intros [H|[]]. exfalso.
      destruct Hopen as [H0|[Hcp|(Hs & _ & H2)]]; [congruence| |].
      * now apply (lor_shift_high (N.land (Byte.to_N b) 63) Hcp).
      * apply N.eqb_eq in Hfin. lia.
    + split; [|intros []].
      unfold well_formed. cbn. repeat split; try lia.
      right. left.
      destruct Hopen as [H0|[Hcp|(Hs & H144 & _)]]; [congruence| |].
      * now apply lor_shift_high.
      * destruct (N.eq_dec (code_point st) 0) as [E|Hcp];
          [|now apply lor_shift_high].
        rewrite E, N.shiftl_0_l, N.lor_0_l.
        apply first_continuation; lia.
  - destruct (lead_well_formed b (reset_well_formed st)) as [Hw Hout].
    destruct (lead (reset st) (Byte.to_N b)) as [st' out]. cbn [fst snd] in *.
    split; [exact Hw|]. intros [H|H]; [discriminate H|auto].
Qed.

Lemma strip_bom_incl (seen : bool) (cps : list N) (x : N) :
  In x (snd (strip_bom seen cps)) -> In x cps.
Proof.
  unfold strip_bom. destruct cps as [|cp rest]; [auto|].
  destruct seen; [auto|]. destruct (cp =? 65279)%N; cbn; auto.
Qed.

Lemma utf16_newline (cp : N) : In 10%N (utf16 cp) -> cp = 10%N.
Proof.
  unfold utf16. destruct (cp <? 65536)%N.
  - intros [H|[]]. auto.
  - intros [H|[H|[]]]; lia.
Qed.

(** One byte in a well-formed state: the state stays well-formed, and only
    the newline byte yields a line separator. *)
Lemma step_well_formed (st : State) (b : byte) :
  well_formed st ->
  well_formed (fst (step st b))
  /\ (In 10%N (snd (step st b)) -> b = newline).
Proof.
  intros Hst. unfold step.
  destruct (handler_well_formed b Hst) as [Hw Hout].
  destruct (handler st (Byte.to_N b)) as [st1 cps]. cbn [fst snd] in *.
  pose proof (strip_bom_incl (bom_seen st1) cps) as Hincl.
  destruct (strip_bom (bom_seen st1) cps) as [seen cps'].
  cbn [fst snd] in *. split; [exact Hw|].
  intros H. apply in_flat_map in H as (cp & Hin & H10).
  apply utf16_newline in H10. subst cp. auto.
Qed.

(** The newline byte always yields a line separator, after the replacement
    character when it breaks a sequence off. *)
Lemma step_newline (st : State) :
  well_formed st -> exists pre, snd (step st newline) = pre ++ [nl].
Proof.
  intros (Hl & _ & _). unfold step, handler, newline.
  change (Byte.to_N x0a) with 10%N.
  destruct (bytes_needed st =? 0)%N.
  - exists []. unfold lead. cbn. now destruct (bom_seen st).
  - replace (lower st <=? 10)%N with false
      by (symmetry; apply N.leb_gt; lia).
    exists [replacement]. cbn. now destruct (bom_seen st).
Qed.

Lemma decode_well_formed (bytes : list byte) :
  forall st, well_formed st -> well_formed (fst (decode st bytes)).
Proof.
  induction bytes as [|b bytes IH]; intros st Hst; [exact Hst|].
  cbn [decode]. destruct (step_well_formed b Hst) as [Hw _].
  destruct (step st b) as [st1 s1]. cbn [fst] in Hw.
  specialize (IH st1 Hw). destruct (decode st1 bytes) as [st2 s2].
  exact IH.
Qed.

(** Bytes without a newline byte decode to text without a separator. *)
Lemma decoded_no_newline (bytes : list byte) :
  forall st, well_formed st -> ~ In newline bytes ->
             ~ In nl (decoded st bytes).
Proof.
  unfold decoded.
  induction bytes as [|b bytes IH]; intros st Hst Hn; [intros []|].
  cbn [decode]. destruct (step_well_formed b Hst) as [Hw Hout].
  destruct (step st b) as [st1 s1]. cbn [fst snd] in *.
  specialize (IH st1 Hw). destruct (decode st1 bytes) as [st2 s2].
  cbn [snd] in *. intros H. apply in_app_or in H as [H|H].
  - apply Hn. left. apply Hout. exact H.
  - apply IH; [|exact H]. intros Hb. apply Hn. now right.
Qed.

Lemma init_well_formed : well_formed init.
Proof. unfold well_formed, init. cbn. repeat split; lia. Qed.

Lemma split_closed_piece (l : JsString) :
  ~ In nl l -> split nl (l ++ [nl]) = [l; []].
Proof.
  induction l as [|c l IH]; intros Hn; [reflexivity|].
  cbn [app split]. destruct (N.eqb_spec c nl) as [->|_].
  - exfalso. apply Hn. now left.
  - rewrite IH; [reflexivity|]. intros H. apply Hn. now right.
Qed.

Lemma pending_after_separator (s : JsString) : pending (s ++ [nl]) = [].
Proof.
  unfold pending. rewrite last_split_app.
  rewrite split_closed_piece by apply last_split_no_sep. reflexivity.
Qed.

(** Nothing is pending after bytes that end a line. *)
Lemma pending_after_line (head : list byte) :
  ends_a_line head -> pending (decoded init head) = [].
Proof.
  intros [->|[h ->]]; [reflexivity|].
  unfold decoded. rewrite decode_app. cbn [snd decode].
  destruct (step_newline (decode_well_formed h init_well_formed))
    as [pre Hpre].
  destruct (step (fst (decode init h)) newline) as [st1 s1].
  cbn [snd] in *. subst s1. rewrite app_nil_r, app_assoc.
  apply pending_after_separator.
Qed.

(** The lines of a stream are those of its part up to the last newline
    byte. *)
Lemma complete_lines_tail (head tail : list byte) :
  ends_a_line head -> ~ In newline tail ->
  complete_lines (decoded init (head ++ tail))
  = complete_lines (decoded init head).
Proof.
  intros Hh Ht. unfold decoded. rewrite decode_app. cbn [snd].
  unfold complete_lines. rewrite removelast_split_app.
  fold (decoded init head). fold (pending (decoded init head)).
  rewrite (pending_after_line Hh). cbn [app].
  fold (decoded (fst (decode init head)) tail).
  rewrite (@split_no_sep nl (decoded (fst (decode init head)) tail)).
  - cbn [removelast]. apply app_nil_r.
  - apply (@decoded_no_newline tail);
      [apply decode_well_formed, init_well_formed|exact Ht].
Qed.

Context {P : Platform}.
Variable this : OpenLLMClient.
Variable data : InferenceRequest.
Variable options : StreamOptions.

(** X20. Bytes after the last newline byte are lost: a body that goes on after
    the end of its last line, without another newline byte, gives the same
    callbacks and the same outcome as the body cut at that line end, however
    both are chunked. A final record that lacks its newline is never
    delivered. *)
Theorem unterminated_tail_is_dropped (w : World)
  (cs cs' : list (N * list byte)) (tail : list byte) :
  all_bytes cs = all_bytes cs' ++ tail ->
  ends_a_line (all_bytes cs') ->
  ~ In newline tail ->
  trace (invoke this data options (with_chunks w cs))
  = trace (invoke this data options (with_chunks w cs'))
  /\ result (invoke this data options (with_chunks w cs))
     = result (invoke this data options (with_chunks w cs')).
Proof.
  intros Hb Hh Ht.
  assert (Hr : received this (with_chunks w cs)
               = received this (with_chunks w cs')).
  { rewrite !(@StreamProperties.received_with_chunks this w).
    destruct (established this w); [|reflexivity].
    rewrite Hb. now apply complete_lines_tail. }
  destruct (invoke_observed this data options (with_chunks w cs)) as [T1 R1].
  destruct (invoke_observed this data options (with_chunks w cs'))
    as [T2 R2].
  rewrite T1, T2, R1, R2, Hr,
    !(@StreamProperties.established_with_chunks this w).
  destruct (established this w) as [b|] eqn:He; cbn [ending]; [auto|].
  destruct (@StreamProperties.refused_with_chunks this options w cs He)
    as [E1 E2].
  destruct (@StreamProperties.refused_with_chunks this options w cs' He)
    as [E3 E4].
  now rewrite E1, E2, E3, E4.
Qed.

End Tail.
End StreamMore.

(* ================================================================== *)
(** * More properties of the router handler *)
(* ================================================================== *)

Module RouterMore.
Import Js Router.

Section Routing.
Variable registry : Registry.Entries.
Variable client_inference :
  Client.InferenceRequest -> Thrown + Client.InferenceResponse.

(** X21. A request that names a key of the registry sends the engine one
    inference call, which carries the [id] of the entry stored under that
    key, the prompt and the two sampling options of the request, and returns
    or throws what that call does. On a registry made by the constructor,
    [add], [update], [remove] and [clear] the [id] sent is the name asked
    for. ([fromObject] stores entries under keys that need not be their
    [id]s.) *)
Theorem explicit_routing_calls_the_named_model (request : ChatRequest)
  (m : JsString) (entry : Registry.ModelRegistryEntry) :
  Registry.truthy (model (options_or_empty request)) = Some m ->
  Registry.get m registry = Some entry ->
  let req :=
    {| Client.req_model_id := Registry.id entry;
       Client.prompt := prompt request;
       Client.max_tokens := max_tokens (options_or_empty request);
       Client.temperature := temperature (options_or_empty request) |} in
  router_chat registry client_inference request
  = {| calls := [req]; outcome := client_inference req |}
  /\ (RegistryOps.Built registry -> Registry.id entry = m).
Proof.
  intros Hm Hg. cbv zeta. split.
  - unfold router_chat.
    rewrite (RouterProperties.resolve_explicit registry _ Hm), Hg.
    reflexivity.
  - intros Hb. destruct (RegistryProperties.built_keeps Hb) as [_ Hp].
    rewrite Forall_forall in Hp.
    destruct (Hp _ (MapFacts.get_in _ _ Hg)) as [Hid _]. exact Hid.
Qed.

(** X22. Without a named model the handler takes the first entry, in the order of
    the registry, that has the capability "chat" and meets the caller's
    criteria; it throws exactly when no entry does. *)
Theorem implicit_routing_takes_the_first_match (opts : ChatOptions) :
  Registry.truthy (model opts) = None ->
  (forall entry,
     resolve registry opts = inr entry <->
     exists pre post,
       Registry.list registry = pre ++ entry :: post
       /\ Forall (fun other =>
                    Registry.includes (Registry.capabilities other)
                      (lit "chat")
                    && Registry.matches (caller_criteria opts) other
                    = false) pre
       /\ Registry.includes (Registry.capabilities entry) (lit "chat") = true
       /\ Registry.matches (caller_criteria opts) entry = true)
  /\ ((exists err, resolve registry opts = inl err) <->
      Forall (fun other =>
                Registry.includes (Registry.capabilities other) (lit "chat")
                && Registry.matches (caller_criteria opts) other
                = false) (Registry.list registry)).
Proof.
  intros Hm. rewrite (RouterProperties.resolve_implicit registry _ Hm).
  unfold Registry.findOne, Registry.find.
  assert (F : forall l,
             Forall (fun other =>
                       Registry.matches (lookup_criteria opts) other = false) l
             <-> Forall (fun other =>
                       Registry.includes (Registry.capabilities other)
                         (lit "chat")
                       && Registry.matches (caller_criteria opts) other
                       = false) l).
  { intros l. rewrite !Forall_forall. split; intros H x Hx;
      specialize (H x Hx); now rewrite RouterProperties.lookup_matches in *. }
  split.
  - intros entry.
    destruct (nth_error
                (filter (Registry.matches (lookup_criteria opts))
                   (Registry.list registry)) 0) as [e|] eqn:E.
    + apply RegistryProperties.first_of_filter in E
        as (pre & post & Hl & Hpre & He).
      rewrite RouterProperties.lookup_matches in He.
      apply andb_true_iff in He as [Hc Hcr]. split.
      * intros H. injection H as <-. exists pre, post.
        repeat split; auto. now apply F.
      * intros (pre' & post' & Hl' & Hpre' & Hc' & Hcr').
        f_equal. apply F in Hpre'.
        assert (E2 : nth_error
                       (filter (Registry.matches (lookup_criteria opts))
                          (Registry.list registry)) 0 = Some entry).
        { apply RegistryProperties.first_of_filter. exists pre', post'.
          repeat split; auto.
          now rewrite RouterProperties.lookup_matches, Hc', Hcr'. }
        assert (E1 : nth_error
                       (filter (Registry.matches (lookup_criteria opts))
                          (Registry.list registry)) 0 = Some e).
        { apply RegistryProperties.first_of_filter. exists pre, post.
          repeat split; auto.
          now rewrite RouterProperties.lookup_matches, Hc, Hcr. }
        congruence.
    + split; [discriminate|].
      intros (pre' & post' & Hl' & Hpre' & Hc' & Hcr'). exfalso.
      apply F in Hpre'.
      assert (E2 : nth_error
                     (filter (Registry.matches (lookup_criteria opts))
                        (Registry.list registry)) 0 = Some entry).
      { apply RegistryProperties.first_of_filter. exists pre', post'.
        repeat split; auto.
        now rewrite RouterProperties.lookup_matches, Hc', Hcr'. }
      congruence.
  - rewrite <- F.
    induction (Registry.list registry) as [|x l IH]; cbn [filter].
    + split; [constructor|]. intros _. eexists. reflexivity.
    + destruct (Registry.matches (lookup_criteria opts) x) eqn:Hx.
      * cbn [nth_error]. split; [intros [err H]; discriminate|].
        intros H. inversion H; congruence.
      * rewrite IH. split; [now constructor|]. intros H. now inversion H.
Qed.

End Routing.
End RouterMore.

(* ================================================================== *)
(** * The further properties on the examples *)
(* ================================================================== *)

Module MoreRuns.
Import Js Client Stream Shape Framing Examples MoreExamples.

(** The example catalog keeps the invariant. *)
Lemma registry_invariant_witness :
  NoDup (List.map Registry.id (Registry.list catalog))
  /\ (forall k model,
        Registry.get k catalog = Some model <->
        In model (Registry.list catalog) /\ Registry.id model = k)
  /\ (forall model,
        In model (Registry.list catalog) ->
        Registry.loaded model = false
        /\ Registry.size_bytes model = 4000000000%N
        /\ Registry.loaded_at model = None).
Proof.
  apply (@RegistryProperties.registry_invariant catalog).
  exact (RegistryOps.Built_new catalog_config).
Defined.

Lemma distinct_ids : NoDup (List.map fst catalog_config).
Proof.
  constructor; [|constructor; [|constructor]]; cbn.
  - intros [H|[]]. discriminate H.
  - intros [].
Qed.

(** The constructor on the configuration of the example catalog. *)
Lemma constructor_registers_witness :
  Registry.ModelRegistry catalog_config
  = [(lit "a", entry_a); (lit "b", entry_b)].
Proof.
  rewrite (@RegistryProperties.constructor_registers catalog_config
             distinct_ids).
  reflexivity.
Defined.

(** Adding the embedder to the catalog and removing it again. *)
Lemma add_then_remove_witness :
  fst (Registry.remove (lit "e")
         (fst (Registry.registerEntry (lit "e") embedder catalog)))
  = catalog.
Proof.
  apply (@RegistryProperties.add_then_remove (lit "e") embedder catalog
           (fst (Registry.registerEntry (lit "e") embedder catalog))
           (snd (Registry.registerEntry (lit "e") embedder catalog))).
  reflexivity.
Defined.

(** Empty strings and a zero bound select the whole catalog. *)
Lemma find_unconstrained_witness :
  Registry.find falsy_criteria catalog = [entry_a; entry_b]
  /\ Registry.findOne falsy_criteria catalog = Some entry_a.
Proof.
  assert (V : RegistryOps.vacuous falsy_criteria)
    by (repeat split; reflexivity).
  destruct (@RegistryProperties.find_unconstrained falsy_criteria catalog V)
    as [H1 H2].
  rewrite H1, H2. split; reflexivity.
Defined.

(** Asking the catalog for loaded models. *)
Lemma loaded_filter_is_void_witness :
  Registry.find only_loaded catalog = [].
Proof.
  apply (@RegistryProperties.loaded_filter_is_void catalog only_loaded
           (RegistryOps.Built_new catalog_config)).
  reflexivity.
Defined.

Lemma numbered_distinct : NoDup (RegistryOps.keys numbered).
Proof.
  constructor; [|constructor; [|constructor; [|constructor]]]; cbn.
  - intros [H|[H|[]]]; discriminate H.
  - intros [H|[]]. discriminate H.
  - intros [].
Qed.

(** A registry with numerals among its identifiers through an object and
    back: the entries are the same, their order is not. *)
Lemma object_round_trip_witness :
  (forall k,
     Registry.get k
       (RegistryOps.fromObject (RegistryOps.toObject numbered) catalog)
     = Registry.get k numbered)
  /\ Registry.count
       (RegistryOps.fromObject (RegistryOps.toObject numbered) catalog)
     = 3
  /\ RegistryOps.keys numbered = [lit "b"; lit "10"; lit "2"]
  /\ RegistryOps.keys
       (RegistryOps.fromObject (RegistryOps.toObject numbered) catalog)
     = [lit "2"; lit "10"; lit "b"].
Proof.
  destruct (@RegistryProperties.object_round_trip numbered catalog
              numbered_distinct) as (H1 & H2 & _).
  split; [exact H1|]. split; [rewrite H2; reflexivity|].
  split; reflexivity.
Defined.

(** The message of a [ModelNotFoundError] for the model [mistral]. *)
Lemma error_classes_recognised_witness :
  createError 404 (lit "Model 'mistral' not found")
  = Errors.ModelNotFoundError (lit "mistral")
  /\ createError 412 (lit "Model 'mistral' is not loaded")
     = Errors.ModelNotLoadedError (lit "mistral").
Proof.
  apply (proj1 ErrorProperties.error_classes_recognised 109%N
           (lit "istral")).
  discriminate.
Defined.

(** A plain request that is answered, and one whose transport rejects with
    a text: the text is what the caller gets. *)
Lemma request_outcome_witness :
  result (Requests.perform client healthy)
  = inr (JObj [(lit "status", JStr (lit "ok"))])
  /\ timer (final (Requests.perform client healthy)) = None
  /\ result (Requests.perform client rejects_with_text)
     = inl (ThrowOther (JStr (lit "boom"))).
Proof.
  assert (Hrange : kept_by_timers (timeout client))
    by (split; vm_compute; discriminate).
  destruct (@RequestProperties.request_outcome client healthy Hrange)
    as (H1 & _ & H3 & _).
  destruct (@RequestProperties.request_outcome client rejects_with_text
              Hrange) as (_ & _ & _ & _ & H5).
  split; [rewrite H1; reflexivity|]. split; [exact H3|].
  apply H5; [reflexivity|]. left. reflexivity.
Defined.

(** A read that rejects with an [AbortError] after one token, 6 ms into a
    call whose timeout is 10 ms. *)
Lemma abort_named_errors_become_timeouts_witness :
  result (run w_aborted_read)
  = inl (ThrowError (new_Error (lit "Stream timeout after 10ms")))
  /\ filter is_OnError (trace (run w_aborted_read))
     = [OnError (new_Error (lit "Stream timeout after 10ms"))]
  /\ timer (connected w_aborted_read) = None.
Proof.
  exact (@StreamMore.abort_named_errors_become_timeouts
           ExampleJSON.platform client request callbacks w_aborted_read
           {| chunks := [(1%N, ascii_bytes hi)]; end_delay := 1;
              ending := ReadFail (ThrowError aborted) |}
           aborted eq_refl eq_refl eq_refl).
Defined.

(** The completion call of the two-record example. *)
Lemma completion_repeats_its_token_witness :
  exists v pre',
    [OnToken tok_hi (lit "Hi") 1; OnToken tok_bang (lit "Hi!") 2]
    = pre' ++ [OnToken v (lit "Hi!") 2]
    /\ 2 = count_events is_OnToken
             [OnToken tok_hi (lit "Hi") 1; OnToken tok_bang (lit "Hi!") 2]
    /\ lit "mistral" = req_model_id request
    /\ lit "stop" = lit "stop".
Proof.
  apply (@StreamMore.completion_repeats_its_token
           ExampleJSON.platform client request callbacks w_normal
           [OnToken tok_hi (lit "Hi") 1; OnToken tok_bang (lit "Hi!") 2] []
           {| model_id := lit "mistral"; text := lit "Hi!";
              tokens_generated := 2; finish_reason := lit "stop" |}).
  vm_compute. reflexivity.
Defined.

(** A record line with a space before it and a carriage return after. *)
Lemma blanks_around_a_line_ignored_witness :
  classify (P := ExampleJSON.platform) ([32%N] ++ removelast hi ++ [13%N])
  = Token tok_hi (lit "Hi") false.
Proof.
  etransitivity.
  - exact (proj2 (@StreamMore.blanks_around_a_line_ignored
                    ExampleJSON.platform request callbacks
                    [32%N] (removelast hi) [13%N] eq_refl eq_refl)).
  - vm_compute. reflexivity.
Defined.

Lemma no_newline_in_tail : ~ In newline (ascii_bytes (removelast bang)).
Proof.
  assert (H : forallb (fun b => negb (Byte.eqb b newline))
                (ascii_bytes (removelast bang)) = true)
    by (vm_compute; reflexivity).
  rewrite forallb_forall in H. intros Hin. specialize (H _ Hin).
  vm_compute in H. discriminate H.
Qed.

(** The completion-flagged record of the example without its newline: it is
    never delivered. *)
Lemma unterminated_tail_is_dropped_witness :
  trace (run (with_chunks w_normal unterminated))
  = [OnToken tok_hi (lit "Hi") 1]
  /\ result (run (with_chunks w_normal unterminated)) = inr tt.
Proof.
  assert (E : all_bytes unterminated
              = all_bytes terminated ++ ascii_bytes (removelast bang))
    by (vm_compute; reflexivity).
  assert (L : ends_a_line (all_bytes terminated)).
  { right. exists (ascii_bytes (removelast hi)). vm_compute. reflexivity. }
  destruct (@StreamMore.unterminated_tail_is_dropped
              ExampleJSON.platform client request callbacks w_normal
              unterminated terminated (ascii_bytes (removelast bang))
              E L no_newline_in_tail) as [H1 H2].
  unfold run. rewrite H1, H2. split; vm_compute; reflexivity.
Defined.

(** A request that names the model [b], with a bound that [b] does not
    reach. *)
Lemma explicit_routing_calls_the_named_model_witness :
  Router.router_chat catalog engine (ask (Some (lit "b")) (Some 100000%N))
  = {| Router.calls :=
         [{| req_model_id := lit "b"; prompt := lit "Say hi";
             max_tokens := None; temperature := None |}];
       Router.outcome :=
         engine {| req_model_id := lit "b"; prompt := lit "Say hi";
                   max_tokens := None; temperature := None |} |}
  /\ (RegistryOps.Built catalog -> Registry.id entry_b = lit "b").
Proof.
  exact (@RouterMore.explicit_routing_calls_the_named_model
           catalog engine (ask (Some (lit "b")) (Some 100000%N)) (lit "b")
           entry_b eq_refl eq_refl).
Defined.

(** After [fromObject] a key need not be the [id] of its entry: the model
    called is not the one named. *)
Example routing_after_fromObject :
  Registry.get (lit "x") renamed = Some entry_a
  /\ Router.calls (Router.router_chat renamed engine (ask (Some (lit "x")) None))
     = [{| req_model_id := lit "a"; prompt := lit "Say hi";
           max_tokens := None; temperature := None |}].
Proof. vm_compute. split; reflexivity. Qed.

(** A request without options on the catalog that starts with the
    embedder: the embedder is passed over. *)
Lemma implicit_routing_takes_the_first_match_witness :
  exists pre post,
    Registry.list catalog_with_embedder = pre ++ entry_b :: post
    /\ Forall (fun other =>
                 Registry.includes (Registry.capabilities other) (lit "chat")
                 && Registry.matches
                      (Router.caller_criteria
                         (Router.options_or_empty plain_ask)) other
                 = false) pre
    /\ Registry.includes (Registry.capabilities entry_b) (lit "chat") = true
    /\ Registry.matches
         (Router.caller_criteria (Router.options_or_empty plain_ask)) entry_b
       = true.
Proof.
  apply (proj1 (@RouterMore.implicit_routing_takes_the_first_match
                  catalog_with_embedder (Router.options_or_empty plain_ask)
                  eq_refl)).
  vm_compute. reflexivity.
Defined.

End MoreRuns.
